(** * my-reading-log: the filter/sort/aggregation core

    A shallow embedding of the data functions of the reading-log page:
    [getTagFrequency] and [getReadingStats] of [src/data/readingData.js]
    and the [filteredData] memo of [src/App.jsx], then the functions
    around them: [getUniqueValues], the dropdown options and
    [renderStars] of the page, and the chart data of the analytics
    panels; followed by the properties the specification states and
    further ones read off the code. *)

From Stdlib Require Import ZArith List String Ascii Lia Permutation Sorted DecimalString.
From Stdlib Require Import Floats.SpecFloat.
From stdpp Require Import gmap strings list sorting.

Local Open Scope string_scope.
Local Open Scope Z_scope.

(** ** JavaScript numbers

    A JS number is an IEEE-754 binary64 value.  The operations are the
    ones of [SpecFloat] at precision 53 and maximal exponent 1024. *)
Module Number.

Definition prec : Z := 53.
Definition emax : Z := 1024.

Definition number := spec_float.

Definition NaN : number := S754_nan.

(** The number denoted by an integer literal or an array length. *)
Definition of_Z (z : Z) : number := binary_normalize prec emax z 0 false.

Definition div (x y : number) : number := SFdiv prec emax x y.
Definition mul (x y : number) : number := SFmul prec emax x y.
Definition add (x y : number) : number := SFadd prec emax x y.

(** [floor (x + 1/2)] computed exactly for the finite value
    [(-1)^s * m * 2^e]. *)
Definition round_half_up (s : bool) (m : positive) (e : Z) : Z :=
  let n := cond_Zopp s (Zpos m) in
  if 0 <=? e then n * 2 ^ e
  else (2 * n + 2 ^ (- e)) / 2 ^ (1 - e).

(** [Math.round]: the nearest integer, ties towards +infinity; NaN,
    the infinities and the zeros are returned unchanged, and a value
    that rounds to zero keeps its sign. *)
Definition Math_round (x : number) : number :=
  match x with
  | S754_finite s m e =>
      binary_normalize prec emax (round_half_up s m e) 0 s
  | _ => x
  end.

Definition isNaN (x : number) : bool :=
  match x with S754_nan => true | _ => false end.

End Number.

Import Number.

(** ** Strings

    Strings are sequences of 8-bit code units.  The case mapping of
    [String.prototype.toLowerCase] is the host's; on Basic Latin it is
    [ascii_toLowerCase]: the letters A to Z move to a to z and every
    other unit is unchanged. *)
Definition lower_unit (c : ascii) : ascii :=
  let n := N_of_ascii c in
  if ((65 <=? n) && (n <=? 90))%N then ascii_of_N (n + 32) else c.

Fixpoint ascii_toLowerCase (s : string) : string :=
  match s with
  | EmptyString => EmptyString
  | String c rest => String (lower_unit c) (ascii_toLowerCase rest)
  end.

(** Every unit of [s] is in Basic Latin. *)
Fixpoint is_ascii (s : string) : bool :=
  match s with
  | EmptyString => true
  | String c rest => (N_of_ascii c <? 128)%N && is_ascii rest
  end.

(** [String.prototype.includes]: [needle] occurs in [hay] at some offset. *)
Fixpoint includes (hay needle : string) : bool :=
  String.prefix needle hay ||
  match hay with
  | EmptyString => false
  | String _ rest => includes rest needle
  end.

(** The relational operators on two strings compare code units
    lexicographically. *)
Definition string_gt (a b : string) : bool :=
  match String.compare a b with Gt => true | _ => false end.
Definition string_lt (a b : string) : bool :=
  match String.compare a b with Lt => true | _ => false end.

(** ** Reading entries

    The fields of [readingEntrySchema] that the functions below read.
    [dateRead], [rating] and [impact] are [null] ([None]) until the
    entry is read. *)
Record entry := {
  id : string;
  dateAdded : string;
  dateRead : option string;
  title : string;
  author : string;
  type : string;
  tags : list string;
  status : string;
  rating : option Z;
  impact : option Z
}.

(** [v || 0] on a number-or-null field. *)
Definition or_zero (v : option Z) : Z :=
  match v with
  | Some n => n
  | None => 0
  end.

(** ** getReadingStats *)
Record stats := {
  totalItems : nat;
  readItems : nat;
  inProgress : nat;
  toRead : nat;
  averageRating : number;
  averageImpact : number
}.

Definition has_status (s : string) (item : entry) : bool :=
  (status item =? s)%string.

(** [Math.round(x * 10) / 10] *)
Definition round_tenth (x : number) : number :=
  div (Math_round (mul x (of_Z 10))) (of_Z 10).

(** [items.reduce((sum, item) => sum + (item.f || 0), 0) / items.length]

    The reducer starts from the number 0 and adds in binary64 at every
    step; [of_Z] is the double that an integer field or the array
    length denotes. *)
Definition average (f : entry -> option Z) (items : list entry) : number :=
  div (fold_left (fun sum item => add sum (of_Z (or_zero (f item)))) items (of_Z 0))
      (of_Z (Z.of_nat (length items))).

Definition getReadingStats (data : list entry) : stats :=
  let read := List.filter (has_status "read") data in
  let totalItems := length data in
  let averageRating := average rating read in
  {| totalItems := totalItems;
     readItems := length read;
     inProgress := length (List.filter (has_status "in-progress") data);
     toRead := length (List.filter (has_status "to-read") data);
     averageRating := round_tenth averageRating;
     averageImpact := round_tenth (average impact read) |}.

(** ** Dates

    A [Date] is its time value, in milliseconds since 1970-01-01;
    [None] is the Invalid Date, whose time value is NaN.  [Date.parse]
    is the host's.  On a date-only ISO string [YYYY-MM-DD], the form of
    the schema, it is [iso_date]: midnight UTC of that day.  [iso_date]
    knows no other form and no day past the end of its month. *)
Definition Date := option Z.

Definition digit (c : ascii) : option Z :=
  let n := Z.of_N (N_of_ascii c) in
  if (48 <=? n) && (n <=? 57) then Some (n - 48) else None.

Definition isLeapYear (y : Z) : bool :=
  (y mod 4 =? 0) && (negb (y mod 100 =? 0) || (y mod 400 =? 0)).

Definition daysInMonth (y m : Z) : Z :=
  if m =? 2 then (if isLeapYear y then 29 else 28)
  else if (m =? 4) || (m =? 6) || (m =? 9) || (m =? 11) then 30
  else 31.

(** Days between 1970-01-01 and the civil date [y]-[m]-[d]. *)
Definition daysFromCivil (y m d : Z) : Z :=
  let y' := if m <=? 2 then y - 1 else y in
  let era := y' / 400 in
  let yoe := y' - era * 400 in
  let mp := if 2 <? m then m - 3 else m + 9 in
  let doy := (153 * mp + 2) / 5 + d - 1 in
  let doe := yoe * 365 + yoe / 4 - yoe / 100 + doy in
  era * 146097 + doe - 719468.

Definition msPerDay : Z := 86400000.

Definition iso_date (s : string) : option Z :=
  match list_ascii_of_string s with
  | [y1; y2; y3; y4; sep1; m1; m2; sep2; d1; d2] =>
      if Ascii.eqb sep1 "-" && Ascii.eqb sep2 "-" then
        a ← digit y1; b ← digit y2; c ← digit y3; d ← digit y4;
        e ← digit m1; f ← digit m2; g ← digit d1; h ← digit d2;
        let y := 1000 * a + 100 * b + 10 * c + d in
        let m := 10 * e + f in
        let dd := 10 * g + h in
        if (1 <=? m) && (m <=? 12) && (1 <=? dd) && (dd <=? daysInMonth y m)
        then Some (daysFromCivil y m dd * msPerDay)
        else None
      else None
  | _ => None
  end.

(** ** The host

    What the program takes from the JavaScript engine beyond arithmetic
    and string comparison: [Array.prototype.sort], [Date.parse] and
    [String.prototype.toLowerCase]. *)
Class Host := {
  array_sort : ∀ {A : Type}, (A -> A -> Z) -> list A -> list A;
  Date_parse : string -> option Z;
  toLowerCase : string -> string
}.

(** [new Date(s)] on a string. *)
Definition newDate `{Host} (s : string) : Date := Date_parse s.

(** [v || d] on a string-or-null field: [null] and the empty string
    are falsy. *)
Definition or_string (v : option string) (d : string) : string :=
  match v with
  | Some EmptyString | None => d
  | Some s => s
  end.

(** [x > y] on two Dates compares their time values; a comparison with
    NaN is false. *)
Definition date_gt (x y : Date) : bool :=
  match x, y with
  | Some tx, Some ty => ty <? tx
  | _, _ => false
  end.
Definition date_lt (x y : Date) : bool := date_gt y x.

(** [ToNumber] on a number-or-null value: [null] converts to 0. *)
Definition ToNumber (v : option Z) : Z :=
  match v with
  | Some n => n
  | None => 0
  end.

(** ** The filter and the sort comparator of [filteredData] *)
Inductive sortField := ByDateAdded | ByDateRead | ByTitle | ByRating.
Inductive sortDirection := asc | desc.

Record settings := {
  searchTerm : string;
  selectedStatus : string;
  selectedType : string;
  selectedTag : string;
  sortBy : sortField;
  sortOrder : sortDirection
}.

Definition matchesSearch `{Host} (searchTerm : string) (item : entry) : bool :=
  includes (toLowerCase (title item)) (toLowerCase searchTerm) ||
  includes (toLowerCase (author item)) (toLowerCase searchTerm) ||
  existsb (fun tag => includes (toLowerCase tag) (toLowerCase searchTerm)) (tags item).

Definition matchesStatus (selectedStatus : string) (item : entry) : bool :=
  (selectedStatus =? "all")%string || (status item =? selectedStatus)%string.

Definition matchesType (selectedType : string) (item : entry) : bool :=
  (selectedType =? "all")%string || (type item =? selectedType)%string.

(** [item.tags.includes(selectedTag)] is strict equality with some element. *)
Definition matchesTag (selectedTag : string) (item : entry) : bool :=
  (selectedTag =? "all")%string || existsb (String.eqb selectedTag) (tags item).

Definition matches `{Host} (cfg : settings) (item : entry) : bool :=
  matchesSearch (searchTerm cfg) item && matchesStatus (selectedStatus cfg) item &&
  matchesType (selectedType cfg) item && matchesTag (selectedTag cfg) item.

(** The value the comparator compares for each sort field: the title
    string, the rating (a number or [null]), or the Date built from the
    date field with ['1900-01-01'] standing in for a falsy one. *)
Definition sortValue (field : sortField) : Type :=
  match field with
  | ByTitle => string
  | ByRating => option Z
  | ByDateAdded | ByDateRead => Date
  end.

Definition sentinel : string := "1900-01-01".

Definition sort_value `{Host} (field : sortField) (a : entry) : sortValue field :=
  match field return sortValue field with
  | ByDateAdded => newDate (or_string (Some (dateAdded a)) sentinel)
  | ByDateRead => newDate (or_string (dateRead a) sentinel)
  | ByTitle => title a
  | ByRating => rating a
  end.

Definition value_gt (field : sortField) : sortValue field -> sortValue field -> bool :=
  match field return sortValue field -> sortValue field -> bool with
  | ByDateAdded | ByDateRead => date_gt
  | ByTitle => string_gt
  | ByRating => fun x y => ToNumber y <? ToNumber x
  end.

Definition value_lt (field : sortField) (x y : sortValue field) : bool :=
  match field return sortValue field -> sortValue field -> bool with
  | ByDateAdded | ByDateRead => date_lt
  | ByTitle => string_lt
  | ByRating => fun x y => ToNumber x <? ToNumber y
  end x y.

Definition comparator `{Host} (field : sortField) (order : sortDirection) (a b : entry)
  : Z :=
  let aValue := sort_value field a in
  let bValue := sort_value field b in
  match order with
  | asc => if value_gt field aValue bValue then 1 else -1
  | desc => if value_lt field aValue bValue then 1 else -1
  end.

(** ** Two sorts

    Both are insertion sorts that grow a sorted prefix from the left
    and sift each next element [x] leftwards; [prefix] is held in
    reverse, the element next to the hole first.  They differ in the
    test that moves [x] past its left neighbour [y]. *)
Fixpoint sift {A} (shift : A -> A -> bool) (x : A) (prefix : list A) : list A :=
  match prefix with
  | [] => [x]
  | y :: rest => if shift x y then y :: sift shift x rest else x :: y :: rest
  end.

Definition insertion_sort {A} (shift : A -> A -> bool) (l : list A) : list A :=
  reverse (fold_left (fun prefix x => sift shift x prefix) l []).

(** [while (j >= 0 && cmp(a[j], x) > 0)]: the textbook loop. *)
Definition sort_gt {A} (cmp : A -> A -> Z) : list A -> list A :=
  insertion_sort (fun x y => 0 <? cmp y x).

(** [if (cmp(x, a[mid]) < 0) right = mid]: the test of a binary
    insertion, here applied neighbour by neighbour. *)
Definition sort_lt {A} (cmp : A -> A -> Z) : list A -> list A :=
  insertion_sort (fun x y => cmp x y <? 0).

(** Two hosts that differ in the sort only. *)
Definition host_gt : Host :=
  {| array_sort := @sort_gt; Date_parse := iso_date; toLowerCase := ascii_toLowerCase |}.
Definition host_lt : Host :=
  {| array_sort := @sort_lt; Date_parse := iso_date; toLowerCase := ascii_toLowerCase |}.

(** ** filteredData *)
Definition filteredData `{Host} (allSampleData : list entry) (cfg : settings)
  : list entry :=
  let filtered := List.filter (matches cfg) allSampleData in
  array_sort (comparator (sortBy cfg) (sortOrder cfg)) filtered.

(** ** The entry store as the program holds it

    [allSampleData] is one array object holding references to entry
    objects; [filter] allocates a new array and [sort] rearranges the
    array it is called on in place.  [M] threads the heap; [None] is a
    read through a dangling reference. *)
Definition loc := positive.

Record heap := {
  objects : gmap loc entry;
  arrays : gmap loc (list loc)
}.

Definition M (A : Type) : Type := heap -> option (A * heap).

#[global] Instance M_ret : MRet M := fun A x h => Some (x, h).

#[global] Instance M_bind : MBind M := fun A B k m h =>
  match m h with
  | Some (x, h') => k x h'
  | None => None
  end.

Definition get_array (r : loc) : M (list loc) :=
  fun h => match arrays h !! r with
           | Some l => Some (l, h)
           | None => None
           end.

Definition get_object (r : loc) : M entry :=
  fun h => match objects h !! r with
           | Some e => Some (e, h)
           | None => None
           end.

Definition alloc_array (l : list loc) : M loc :=
  fun h => let r := fresh (dom (arrays h)) in
           Some (r, {| objects := objects h; arrays := <[r := l]> (arrays h) |}).

Definition put_array (r : loc) (l : list loc) : M unit :=
  fun h => match arrays h !! r with
           | Some _ => Some (tt, {| objects := objects h; arrays := <[r := l]> (arrays h) |})
           | None => None
           end.

Fixpoint filterM {A} (p : A -> M bool) (l : list A) : M (list A) :=
  match l with
  | [] => mret []
  | x :: rest =>
      b ← p x; ys ← filterM p rest; mret (M := M) (if b : bool then x :: ys else ys)
  end.

(** [arr.filter(callback)] *)
Definition Array_filter (arr : loc) (callback : entry -> bool) : M loc :=
  items ← get_array arr;
  kept ← filterM (fun r => item ← get_object r; mret (callback item)) items;
  alloc_array kept.

(** [arr.sort(cmp)]: the comparator is handed two references and reads
    their fields; the array is overwritten with the sorted references. *)
Definition Array_sort `{Host} (arr : loc) (cmp : entry -> entry -> Z) : M loc :=
  items ← get_array arr;
  values ← mapM get_object items;
  let sorted := array_sort (fun x y => cmp (snd x) (snd y)) (zip items values) in
  put_array arr (fst <$> sorted);;
  mret arr.

Definition filteredData_heap `{Host} (allSampleData : loc) (cfg : settings) : M loc :=
  filtered ← Array_filter allSampleData (matches cfg);
  Array_sort filtered (comparator (sortBy cfg) (sortOrder cfg));;
  mret filtered.

(** ** getTagFrequency

    [tagCount] starts as the object literal [{}]: besides its own
    properties it answers for the members it inherits from
    [Object.prototype].  A property value is a number or a string. *)
Inductive jsvalue := VNumber (n : Z) | VString (s : string).

(** The members of [Object.prototype] with the string each converts to
    under [+]: the source text of a built-in function, and
    ['[object Object]'] for the prototype object that [__proto__] reads. *)
Definition native (name : string) : string :=
  "function " ++ name ++ "() { [native code] }".

Definition objectPrototype : list (string * string) :=
  [ ("constructor", native "Object");
    ("__defineGetter__", native "__defineGetter__");
    ("__defineSetter__", native "__defineSetter__");
    ("hasOwnProperty", native "hasOwnProperty");
    ("__lookupGetter__", native "__lookupGetter__");
    ("__lookupSetter__", native "__lookupSetter__");
    ("isPrototypeOf", native "isPrototypeOf");
    ("propertyIsEnumerable", native "propertyIsEnumerable");
    ("toString", native "toString");
    ("valueOf", native "valueOf");
    ("toLocaleString", native "toLocaleString");
    ("__proto__", "[object Object]") ].

Fixpoint assoc (key : string) (l : list (string * string)) : option string :=
  match l with
  | [] => None
  | (k, v) :: rest => if (k =? key)%string then Some v else assoc key rest
  end.

Definition inherited (key : string) : option string := assoc key objectPrototype.

Inductive property :=
  | Undefined
  | Own (v : jsvalue)
  | Inherited (text : string).

(** [tagCount[key]] *)
Definition get (tagCount : gmap string jsvalue) (key : string) : property :=
  match tagCount !! key with
  | Some v => Own v
  | None => match inherited key with
            | Some text => Inherited text
            | None => Undefined
            end
  end.

(** [tagCount[key] = v]: the [__proto__] setter ignores a primitive. *)
Definition set (tagCount : gmap string jsvalue) (key : string) (v : jsvalue)
  : gmap string jsvalue :=
  if (key =? "__proto__")%string then tagCount else <[key := v]> tagCount.

(** [(p || 0) + 1]: a falsy value counts as 0; a string, or an object
    converted to one, is concatenated with ['1']. *)
Definition or_zero_plus_one (p : property) : jsvalue :=
  match p with
  | Undefined => VNumber 1
  | Own (VNumber n) => VNumber (n + 1)
  | Own (VString EmptyString) => VNumber 1
  | Own (VString s) => VString (s ++ "1")
  | Inherited text => VString (text ++ "1")
  end.

Definition getTagFrequency (data : list entry) : gmap string jsvalue :=
  fold_left (fun tagCount item =>
    fold_left (fun tagCount tag => set tagCount tag (or_zero_plus_one (get tagCount tag)))
              (tags item) tagCount)
    data ∅.

(** ** The fixture

    The ten entries of [allSampleData], with the fields modelled above. *)
Definition allSampleData : list entry := [
  {| id := "1"; dateAdded := "2025-01-15"; dateRead := Some "2025-01-20";
     title := "The Three Types of Data Drift";
     author := "Jane Doe"; type := "linkedin_post";
     tags := ["Machine Learning"; "Data Quality"; "MLOps"];
     status := "read"; rating := Some 4; impact := Some 4 |};
  {| id := "2"; dateAdded := "2025-01-10"; dateRead := Some "2025-01-25";
     title := "Atomic Habits";
     author := "James Clear"; type := "book";
     tags := ["Productivity"; "Self-Improvement"; "Psychology"];
     status := "read"; rating := Some 5; impact := Some 5 |};
  {| id := "3"; dateAdded := "2025-02-01"; dateRead := None;
     title := "The Future of AI in Healthcare";
     author := "Dr. Sarah Johnson"; type := "video";
     tags := ["AI"; "Healthcare"; "Technology"; "Future Trends"];
     status := "to-read"; rating := None; impact := None |};
  {| id := "4"; dateAdded := "2025-01-28"; dateRead := Some "2025-02-05";
     title := "Building Resilient Distributed Systems";
     author := "Martin Fowler"; type := "article";
     tags := ["Software Architecture"; "Distributed Systems"; "Resilience"];
     status := "read"; rating := Some 4; impact := Some 4 |};
  {| id := "5"; dateAdded := "2025-02-03"; dateRead := Some "2025-02-08";
     title := "The Tim Ferriss Show: Naval Ravikant";
     author := "Tim Ferriss"; type := "podcast";
     tags := ["Entrepreneurship"; "Philosophy"; "Wealth"; "Happiness"];
     status := "read"; rating := Some 5; impact := Some 5 |};
  {| id := "6"; dateAdded := "2025-02-10"; dateRead := Some "2025-02-15";
     title := "The Lean Startup";
     author := "Eric Ries"; type := "book";
     tags := ["Entrepreneurship"; "Product Management"; "Innovation"];
     status := "read"; rating := Some 4; impact := Some 4 |};
  {| id := "7"; dateAdded := "2025-02-12"; dateRead := None;
     title := "Understanding Large Language Models";
     author := "Google AI Blog"; type := "article";
     tags := ["AI"; "Natural Language Processing"; "Deep Learning"];
     status := "in-progress"; rating := None; impact := None |};
  {| id := "8"; dateAdded := "2025-02-18"; dateRead := Some "2025-02-20";
     title := "The Power of Habit";
     author := "Charles Duhigg"; type := "book";
     tags := ["Psychology"; "Habit Formation"; "Behavioral Science"];
     status := "read"; rating := Some 5; impact := Some 5 |};
  {| id := "9"; dateAdded := "2025-02-20"; dateRead := Some "2025-02-22";
     title := "Why We Sleep";
     author := "Matthew Walker"; type := "book";
     tags := ["Health"; "Science"; "Sleep"];
     status := "read"; rating := Some 5; impact := Some 5 |};
  {| id := "10"; dateAdded := "2025-02-25"; dateRead := None;
     title := "Mastering React Hooks";
     author := "Dan Abramov"; type := "article";
     tags := ["Programming"; "React"; "Frontend Development"];
     status := "to-read"; rating := None; impact := None |}
].

(** * The rest of the page

    The functions around the three above: [getUniqueValues], the
    option lists of the dropdowns and [renderStars] of [App], and the
    chart data of the two analytics panels. *)

(** ** Sets

    [[...new Set(array)]]: the elements in the order they were first
    added.  On strings, numbers and [null] the equality of a Set is the
    equality of values. *)
Definition Set_add {A} `{EqDecision A} (s : list A) (x : A) : list A :=
  if bool_decide (x ∈ s) then s else (s ++ [x])%list.

Definition Set_from {A} `{EqDecision A} (l : list A) : list A :=
  fold_left Set_add l [].

(** ** getUniqueValues

    [item[field]] on the fields that hold a string, a number or
    [null]. *)
Inductive scalar := SNull | SString (s : string) | SNumber (n : Z).

#[global] Instance scalar_eq_dec : EqDecision scalar.
Proof. solve_decision. Defined.

Inductive fieldName :=
  | field_id | field_dateAdded | field_dateRead | field_title | field_author
  | field_type | field_status | field_rating | field_impact.

Definition of_option_string (v : option string) : scalar :=
  match v with Some s => SString s | None => SNull end.

Definition of_option_number (v : option Z) : scalar :=
  match v with Some n => SNumber n | None => SNull end.

Definition get_field (field : fieldName) (item : entry) : scalar :=
  match field with
  | field_id => SString (id item)
  | field_dateAdded => SString (dateAdded item)
  | field_dateRead => of_option_string (dateRead item)
  | field_title => SString (title item)
  | field_author => SString (author item)
  | field_type => SString (type item)
  | field_status => SString (status item)
  | field_rating => of_option_number (rating item)
  | field_impact => of_option_number (impact item)
  end.

(** [Boolean(v)]: [null], the empty string and 0 are falsy. *)
Definition Boolean (v : scalar) : bool :=
  match v with
  | SNull | SString EmptyString | SNumber 0 => false
  | SString _ | SNumber _ => true
  end.

Definition getUniqueValues (data : list entry) (field : fieldName) : list scalar :=
  Set_from (List.filter Boolean (map (get_field field) data)).

(** ** Plain objects used as counters

    The own properties of an object, in the order they were created.
    [Object.entries] lists the properties whose key is an array index
    first, by ascending index, and then the others in creation order. *)
Definition object := list (string * jsvalue).

Fixpoint own (o : object) (key : string) : option jsvalue :=
  match o with
  | [] => None
  | (k, v) :: rest => if (k =? key)%string then Some v else own rest key
  end.

(** [o[key]] *)
Definition obj_get (o : object) (key : string) : property :=
  match own o key with
  | Some v => Own v
  | None => match inherited key with
            | Some text => Inherited text
            | None => Undefined
            end
  end.

Fixpoint obj_update (o : object) (key : string) (v : jsvalue) : object :=
  match o with
  | [] => []
  | (k, w) :: rest =>
      if (k =? key)%string then (k, v) :: rest else (k, w) :: obj_update rest key v
  end.

(** [o[key] = v]: an existing property keeps its place, a new one goes
    last, and the [__proto__] setter ignores a primitive. *)
Definition obj_set (o : object) (key : string) (v : jsvalue) : object :=
  if (key =? "__proto__")%string then o
  else match own o key with
       | Some _ => obj_update o key v
       | None => (o ++ [(key, v)])%list
       end.

(** [o[key] = (o[key] || 0) + 1] *)
Definition count_key (o : object) (key : string) : object :=
  obj_set o key (or_zero_plus_one (obj_get o key)).

(** The value of a string of decimal digits. *)
Fixpoint digits_value (acc : N) (s : string) : option N :=
  match s with
  | EmptyString => Some acc
  | String c rest =>
      match digit c with
      | Some d => digits_value (10 * acc + Z.to_N d) rest
      | None => None
      end
  end.

(** A key is an array index when it is the canonical decimal form of an
    integer below 2^32 - 1. *)
Definition array_index (key : string) : option N :=
  match key with
  | EmptyString => None
  | String c rest =>
      if Ascii.eqb c "0" then (if (rest =? "")%string then Some 0%N else None)
      else match digits_value 0 key with
           | Some n => if (n <? 4294967295)%N then Some n else None
           | None => None
           end
  end.

Fixpoint insert_index (i : N) (p : string * jsvalue) (l : list (N * (string * jsvalue)))
  : list (N * (string * jsvalue)) :=
  match l with
  | [] => [(i, p)]
  | (j, q) :: rest =>
      if (i <? j)%N then (i, p) :: (j, q) :: rest else (j, q) :: insert_index i p rest
  end.

Fixpoint split_keys (o : object)
  : list (N * (string * jsvalue)) * list (string * jsvalue) :=
  match o with
  | [] => ([], [])
  | (k, v) :: rest =>
      let '(indexed, named) := split_keys rest in
      match array_index k with
      | Some i => (insert_index i (k, v) indexed, named)
      | None => (indexed, (k, v) :: named)
      end
  end.

Definition Object_entries (o : object) : list (string * jsvalue) :=
  let '(indexed, named) := split_keys o in ((snd <$> indexed) ++ named)%list.

Definition Object_keys (o : object) : list string := fst <$> Object_entries o.

(** ** The dropdowns of [App] *)

(** [getTagFrequency] with the creation order of the properties kept,
    as [Object.keys] needs it. *)
Definition tagFrequency_object (data : list entry) : object :=
  fold_left (fun tagCount item => fold_left count_key (tags item) tagCount) data [].

(** The comparison of [sort()] without a comparator, on strings. *)
Definition default_compare (x y : string) : Z :=
  if string_lt x y then -1 else if string_lt y x then 1 else 0.

Definition allTags `{Host} (allSampleData : list entry) : list string :=
  array_sort default_compare (Object_keys (tagFrequency_object allSampleData)).

Definition allTypes (allSampleData : list entry) : list string :=
  Set_from (map type allSampleData).

(** ** renderStars

    [None] is the [null] that nothing is rendered for; otherwise the
    five stars, filled or not, and the rating of the caption. *)
Definition renderStars (rating : option Z) : option (list bool * Z) :=
  match rating with
  | None | Some 0 => None
  | Some r => Some ((fun i => i <? r) <$> [0; 1; 2; 3; 4], r)
  end.

(** ** Printing numbers *)

(** The decimal form of an integer, as a template literal prints it. *)
Definition Z_to_string (z : Z) : string :=
  match z with
  | Z0 => "0"
  | Zpos p => NilEmpty.string_of_uint (Pos.to_uint p)
  | Zneg p => "-" ++ NilEmpty.string_of_uint (Pos.to_uint p)
  end.

(** The integer [n] for which [n / 10] is nearest to the exact value
    [m * 2^e], the larger one at a tie. *)
Definition nearest_tenths (m : positive) (e : Z) : Z :=
  if 0 <=? e then 10 * Zpos m * 2 ^ e
  else (20 * Zpos m + 2 ^ (- e)) / 2 ^ (1 - e).

(** [n] tenths printed with one decimal. *)
Definition one_decimal (n : Z) : string :=
  Z_to_string (n / 10) ++ "." ++ Z_to_string (n mod 10).

(** [x.toFixed(1)] for [x] below 10^21 in magnitude, and for NaN;
    [None] for the larger values, which are printed as [String(x)]
    prints them. *)
Definition toFixed1 (x : number) : option string :=
  match x with
  | S754_nan => Some "NaN"
  | S754_infinity _ => None
  | S754_zero _ => Some "0.0"
  | S754_finite s m e =>
      if 10 ^ 21 <=? Zpos m * 2 ^ e then None
      else Some ((if s then "-" else "") ++ one_decimal (nearest_tenths m e))
  end.

(** ** More of the host

    Two more built-ins of the engine: the text of a Date in the en-US
    locale, which depends on the time zone, and
    [String.prototype.trim]. *)
Inductive dateStyle :=
  | MonthYear   (* { year: 'numeric', month: 'short' } *)
  | MonthDay.   (* { month: 'short', day: 'numeric' } *)

Class Builtins := {
  toLocaleDateString : Date -> dateStyle -> string;
  trim : string -> string
}.

(** A string-or-null value is truthy unless it is [null] or empty. *)
Definition truthy (v : option string) : bool :=
  match v with
  | Some (String _ _) => true
  | _ => false
  end.

(** [new Date(v)] on a string-or-null value; [new Date(null)] is the
    epoch. *)
Definition Date_of `{Host} (v : option string) : Date :=
  match v with
  | Some s => newDate s
  | None => Some 0
  end.

(** [array.slice(-n)]: the last [n] elements. *)
Definition slice_last {A} (n : nat) (l : list A) : list A := drop (length l - n) l.

(** ** The analytics panels

    [SimpleAnalytics]; [monthlyData], [cumulativeData], [ratingData]
    and [wordCloudData] are the same in [AdvancedAnalytics]. *)
Module SimpleAnalytics.

Definition month_of `{Host} `{Builtins} (item : entry) : string :=
  toLocaleDateString (Date_of (dateRead item)) MonthYear.

(** The rows [{ month, count }], as pairs. *)
Definition monthlyData `{Host} `{Builtins} (data : list entry) : list (string * jsvalue) :=
  let monthCounts :=
    fold_left (fun monthCounts item => count_key monthCounts (month_of item))
              (List.filter (fun item => truthy (dateRead item)) data) [] in
  slice_last 12 (Object_entries monthCounts).

(** [new Date(a.dateRead) - new Date(b.dateRead)]: the difference of
    the two time values, of which the sort reads the sign; NaN, from
    an invalid Date, counts as +0 there. *)
Definition date_minus `{Host} (a b : entry) : Z :=
  match Date_of (dateRead a), Date_of (dateRead b) with
  | Some ta, Some tb => ta - tb
  | _, _ => 0
  end.

Definition sortedData `{Host} (data : list entry) : list entry :=
  array_sort date_minus (List.filter (fun item => truthy (dateRead item)) data).

Record point := {
  point_date : string;
  point_cumulative : Z;
  point_title : string
}.

(** The [map] over [sortedData], with the counter it increments. *)
Fixpoint running `{Host} `{Builtins} (cumulative : Z) (items : list entry) : list point :=
  match items with
  | [] => []
  | item :: rest =>
      let cumulative := cumulative + 1 in
      {| point_date := toLocaleDateString (Date_of (dateRead item)) MonthDay;
         point_cumulative := cumulative;
         point_title := title item |} :: running cumulative rest
  end.

Definition cumulativeData `{Host} `{Builtins} (data : list entry) : list point :=
  running 0 (sortedData data).

Record radarPoint := { dimension : string; value : nat }.

(** [item.tags.includes(tag)] *)
Definition tags_include (tag : string) (item : entry) : bool :=
  existsb (String.eqb tag) (tags item).

(** [item.tags.some(tag => names.includes(tag))] *)
Definition tags_some (names : list string) (item : entry) : bool :=
  existsb (fun tag => existsb (String.eqb tag) names) (tags item).

Definition radarData (data : list entry) : list radarPoint :=
  let readItems := List.filter (has_status "read") data in
  [ {| dimension := "Productivity";
       value := length (List.filter (tags_include "Productivity") readItems) |};
    {| dimension := "Technology";
       value := length (List.filter (tags_some ["AI"; "Programming"; "Technology"])
                                    readItems) |};
    {| dimension := "Psychology";
       value := length (List.filter (tags_include "Psychology") readItems) |};
    {| dimension := "Business";
       value := length (List.filter (tags_some ["Entrepreneurship"; "Product Management"])
                                    readItems) |};
    {| dimension := "Health";
       value := length (List.filter (tags_include "Health") readItems) |};
    {| dimension := "Science";
       value := length (List.filter (tags_include "Science") readItems) |} ].

(** [Math.max(...radarData.map(d => d.value)) + 1], the end of the
    radius axis. *)
Definition radius_domain (data : list entry) : nat :=
  (foldr Nat.max 0 (value <$> radarData data) + 1)%nat.

(** [CHART_COLORS.warm] *)
Definition warm : list string :=
  ["#ea580c"; "#f97316"; "#fb923c"; "#fdba74"; "#fed7aa"].

Record ratingBar := {
  bar_rating : string;
  bar_count : nat;
  bar_fill : option string
}.

(** [item.rating === rating] *)
Definition rating_is (r : Z) (item : entry) : bool :=
  match rating item with
  | Some n => n =? r
  | None => false
  end.

Definition ratingData (data : list entry) : list ratingBar :=
  let ratings := [1; 2; 3; 4; 5] in
  imap (fun index r =>
          {| bar_rating := Z_to_string r ++ " Star" ++ (if 1 <? r then "s" else "");
             bar_count := length (List.filter (rating_is r) data);
             bar_fill := warm !! index |}) ratings.

Definition count_clean `{Builtins} (tagCounts : object) (tag : string) : object :=
  let cleanTag := trim tag in
  if truthy (Some cleanTag) then count_key tagCounts cleanTag else tagCounts.

(** [b - a] on the counts of two rows.  A count that is not a number
    is the text of an object followed by 1s, which converts to NaN; the
    sort reads NaN as +0. *)
Definition count_minus (x y : string * jsvalue) : Z :=
  match x.2, y.2 with
  | VNumber a, VNumber b => b - a
  | _, _ => 0
  end.

(** The rows [{ word, count }], as pairs. *)
Definition wordCloudData `{Host} `{Builtins} (data : list entry) : list (string * jsvalue) :=
  let tagCounts :=
    fold_left (fun tagCounts item => fold_left count_clean (tags item) tagCounts) data [] in
  take 20 (array_sort count_minus (Object_entries tagCounts)).

(** [avgRating] is the number 0 or the text of [toFixed]. *)
Record basicStats := {
  total : nat;
  read : nat;
  inProgress : nat;
  toRead : nat;
  avgRating : option jsvalue
}.

Definition stats (data : list entry) : basicStats :=
  let readItems := List.filter (has_status "read") data in
  let avgRating :=
    if (0 <? length readItems)%nat then VString <$> toFixed1 (average rating readItems)
    else Some (VNumber 0) in
  {| total := length data;
     read := length readItems;
     inProgress := length (List.filter (has_status "in-progress") data);
     toRead := length (List.filter (has_status "to-read") data);
     avgRating := avgRating |}.

(** The component itself: for an empty [data] it returns the
    "No data available" placeholder ([None]) before any memo runs;
    otherwise its tiles show [stats]. *)
Definition tiles (data : list entry) : option basicStats :=
  match data with
  | [] => None
  | _ :: _ => Some (stats data)
  end.

End SimpleAnalytics.

Module AdvancedAnalytics.

(** [s.replace(c, d)] for one-unit strings [c] and [d]: the first
    occurrence only. *)
Fixpoint String_replace (c d : ascii) (s : string) : string :=
  match s with
  | EmptyString => EmptyString
  | String x rest =>
      if Ascii.eqb x c then String d rest else String x (String_replace c d rest)
  end.

Definition TYPE_COLORS : object :=
  [ ("book", VString "#1e40af");
    ("article", VString "#059669");
    ("video", VString "#dc2626");
    ("podcast", VString "#7c3aed");
    ("linkedin post", VString "#ea580c");
    ("linkedin_post", VString "#ea580c") ].

(** [CHART_COLORS.neutral] *)
Definition neutral : list string :=
  ["#374151"; "#6b7280"; "#9ca3af"; "#d1d5db"; "#f3f4f6"].

(** [array[i]] on an array of strings. *)
Definition element (array : list string) (i : nat) : property :=
  match array !! i with
  | Some s => Own (VString s)
  | None => Undefined
  end.

(** [p || q]: [undefined], 0 and the empty string are falsy, an
    inherited member is an object. *)
Definition or_else (p q : property) : property :=
  match p with
  | Undefined | Own (VNumber 0) | Own (VString EmptyString) => q
  | _ => p
  end.

Record slice := {
  slice_name : string;
  slice_value : jsvalue;
  slice_fill : property
}.

Definition fill_of (name : string) : property :=
  or_else (obj_get TYPE_COLORS name)
          (or_else (obj_get TYPE_COLORS (String_replace " " "_" name)) (element neutral 0)).

Definition typeData (data : list entry) : list slice :=
  let typeCounts :=
    fold_left (fun typeCounts item =>
                 if truthy (Some (type item))
                 then count_key typeCounts (String_replace "_" " " (type item))
                 else typeCounts) data [] in
  (fun '(name, value) =>
     {| slice_name := name; slice_value := value; slice_fill := fill_of name |})
    <$> Object_entries typeCounts.

End AdvancedAnalytics.

(** ** An engine in UTC

    The en-US texts of a Date in the UTC time zone, and [trim] on
    Basic Latin white space. *)
Definition civilFromDays (z : Z) : Z * Z * Z :=
  let z := z + 719468 in
  let era := z / 146097 in
  let doe := z - era * 146097 in
  let yoe := (doe - doe / 1460 + doe / 36524 - doe / 146096) / 365 in
  let doy := doe - (365 * yoe + yoe / 4 - yoe / 100) in
  let mp := (5 * doy + 2) / 153 in
  let d := doy - (153 * mp + 2) / 5 + 1 in
  let m := if mp <? 10 then mp + 3 else mp - 9 in
  ((if m <=? 2 then yoe + era * 400 + 1 else yoe + era * 400), m, d).

Definition monthNames : list string :=
  ["Jan"; "Feb"; "Mar"; "Apr"; "May"; "Jun"; "Jul"; "Aug"; "Sep"; "Oct"; "Nov"; "Dec"].

Definition utc_en_US (date : Date) (style : dateStyle) : string :=
  match date with
  | None => "Invalid Date"
  | Some t =>
      let '(y, m, d) := civilFromDays (t / msPerDay) in
      let month := nth (Z.to_nat (m - 1)) monthNames "" in
      match style with
      | MonthYear => month ++ " " ++ Z_to_string y
      | MonthDay => month ++ " " ++ Z_to_string d
      end
  end.

Definition is_space (c : ascii) : bool :=
  let n := N_of_ascii c in (((9 <=? n) && (n <=? 13)) || (n =? 32))%N.

Fixpoint trim_start (s : string) : string :=
  match s with
  | EmptyString => EmptyString
  | String c rest => if is_space c then trim_start rest else s
  end.

Fixpoint trim_end (s : string) : string :=
  match s with
  | EmptyString => EmptyString
  | String c rest =>
      match trim_end rest with
      | EmptyString => if is_space c then EmptyString else String c EmptyString
      | kept => String c kept
      end
  end.

Definition ascii_trim (s : string) : string := trim_end (trim_start s).

Definition builtins_utc : Builtins :=
  {| toLocaleDateString := utc_en_US; trim := ascii_trim |}.

(** * The vocabulary of the properties *)

(** ** The contract of the host

    The sort returns a rearrangement of the array; it depends on the
    elements only through the comparator; and whenever
    [a ⊑ b := cmp a b ≤ 0] is a total preorder on the elements (with
    zero results symmetric), the result is in ⊑ order.  [Date.parse]
    reads a date-only ISO string as [iso_date] does, and [toLowerCase]
    is [ascii_toLowerCase] on Basic Latin. *)
Definition ordering_on {A} (cmp : A -> A -> Z) (l : list A) : Prop :=
  (∀ a b, a ∈ l → b ∈ l → cmp a b <= 0 ∨ cmp b a <= 0) ∧
  (∀ a b c, a ∈ l → b ∈ l → c ∈ l → cmp a b <= 0 → cmp b c <= 0 → cmp a c <= 0) ∧
  (∀ a b, a ∈ l → b ∈ l → cmp a b = 0 → cmp b a = 0).

Class HostLaws (host : Host) : Prop := {
  array_sort_perm : ∀ (A : Type) (cmp : A -> A -> Z) (l : list A),
    array_sort cmp l ≡ₚ l;
  array_sort_natural : ∀ (A B : Type) (f : A -> B) (cmp : B -> B -> Z) (l : list A),
    f <$> array_sort (fun x y => cmp (f x) (f y)) l = array_sort cmp (f <$> l);
  array_sort_sorted : ∀ (A : Type) (cmp : A -> A -> Z) (l : list A),
    ordering_on cmp l →
    StronglySorted (fun a b => cmp a b <= 0) (array_sort cmp l);
  Date_parse_iso : ∀ (s : string) (t : Z), iso_date s = Some t → Date_parse s = Some t;
  toLowerCase_ascii : ∀ s : string, is_ascii s = true → toLowerCase s = ascii_toLowerCase s
}.

(** A prefix held in reverse is in order when every element is above
    the ones that follow it. *)
Definition descending {A} (cmp : A -> A -> Z) : list A -> Prop :=
  StronglySorted (fun a b => cmp b a <= 0).

(** The test is sound for [cmp] on the elements at hand when moving [x]
    past [y] means [x ⊑ y] and leaving it means [y ⊑ x]. *)
Definition sound_on {A} (shift : A -> A -> bool) (cmp : A -> A -> Z) (l : list A) : Prop :=
  ∀ x y, x ∈ l → y ∈ l →
    if shift x y then cmp x y <= 0 else cmp y x <= 0.

(** ** Substrings *)

(** [needle] occurs somewhere inside [hay]. *)
Definition contains (hay needle : string) : Prop :=
  ∃ pre post, hay = pre ++ needle ++ post.

(** The same, ignoring letter case. *)
Definition contains_ci `{Host} (hay needle : string) : Prop :=
  contains (toLowerCase hay) (toLowerCase needle).

(** ** Sort keys *)

(** The raw value of a date field, and the Date the comparator builds
    from it. *)
Definition raw_date (field : sortField) (e : entry) : option string :=
  match field with
  | ByDateAdded => Some (dateAdded e)
  | ByDateRead => dateRead e
  | ByTitle | ByRating => None
  end.

Definition effective_time `{Host} (field : sortField) (e : entry) : Date :=
  newDate (or_string (raw_date field e) sentinel).

(** [a] compares greater than [b] in the chosen field. *)
Definition above `{Host} (field : sortField) (a b : entry) : bool :=
  value_gt field (sort_value field a) (sort_value field b).

(** The comparator has an order to follow on [e] when the field is not
    a date or its Date is valid. *)
Definition valid_key `{Host} (field : sortField) (e : entry) : Prop :=
  match field with
  | ByDateAdded | ByDateRead => effective_time field e ≠ None
  | ByTitle | ByRating => True
  end.

(** An entry conforms to [readingEntrySchema]: ISO dates, and a rating
    and an impact that are [null] or within 1 to 5. *)
Definition in_scale (v : option Z) : bool :=
  match v with
  | Some n => (1 <=? n) && (n <=? 5)
  | None => true
  end.

Definition conforms `{Host} (e : entry) : bool :=
  match Date_parse (dateAdded e) with Some _ => true | None => false end &&
  match dateRead e with
  | Some d => match Date_parse d with Some _ => true | None => false end
  | None => true
  end &&
  in_scale (rating e) && in_scale (impact e).

(** Settings with a single control moved from its default. *)
Definition no_filter (field : sortField) (order : sortDirection) : settings :=
  {| searchTerm := ""; selectedStatus := "all"; selectedType := "all";
     selectedTag := "all"; sortBy := field; sortOrder := order |}.

Definition only_tag (tag : string) (field : sortField) (order : sortDirection) : settings :=
  {| searchTerm := ""; selectedStatus := "all"; selectedType := "all";
     selectedTag := tag; sortBy := field; sortOrder := order |}.

Definition only_search (term : string) (field : sortField) (order : sortDirection)
  : settings :=
  {| searchTerm := term; selectedStatus := "all"; selectedType := "all";
     selectedTag := "all"; sortBy := field; sortOrder := order |}.

(** ** Missing dates *)

(** The time value of ['1900-01-01']. *)
Definition sentinel_time : Z := -2208988800000.

(** The field has no date: it is [null] or the empty string. *)
Definition is_missing (field : sortField) (e : entry) : bool :=
  match raw_date field e with
  | None | Some EmptyString => true
  | Some _ => false
  end.

(** A date that is present is a valid one later than 1900-01-01. *)
Definition after_sentinel `{Host} (field : sortField) (e : entry) : bool :=
  match raw_date field e with
  | None | Some EmptyString => true
  | Some d => match newDate d with
              | Some t => sentinel_time <? t
              | None => false
              end
  end.

(** Two valid Dates in time order. *)
Definition time_le (x y : Date) : Prop :=
  match x, y with
  | Some tx, Some ty => tx <= ty
  | _, _ => False
  end.

(** ** Reading the heap *)

(** The entries an array of references denotes. *)
Definition deref (h : heap) (l : list loc) : option (list entry) :=
  mapM (M := option) (fun r => objects h !! r) l.

(** [refs] point at the entries [es]. *)
Definition points_to (h : heap) (refs : list loc) (es : list entry) : Prop :=
  Forall2 (fun r e => objects h !! r = Some e) refs es.

(** ** Exact arithmetic *)

(** Structural equality of two numbers. *)
Definition same (x y : number) : bool :=
  match x, y with
  | S754_finite s1 m1 e1, S754_finite s2 m2 e2 =>
      Bool.eqb s1 s2 && Pos.eqb m1 m2 && Z.eqb e1 e2
  | S754_zero s1, S754_zero s2 => Bool.eqb s1 s2
  | S754_infinity s1, S754_infinity s2 => Bool.eqb s1 s2
  | S754_nan, S754_nan => true
  | _, _ => false
  end.

(** Where the remainder [r] lies in a unit: at its start, below, at or
    above its middle. *)
Definition loc_of (r unit : Z) : location :=
  if r =? 0 then loc_Exact else loc_Inexact (2 * r ?= unit).

(** The integer nearest to [num / den], the even one at a tie. *)
Definition round_ne (num den : Z) : Z :=
  round_nearest_even (num / den) (loc_of (num mod den) den).

(** The float [m * 2^e] for [m] from 2^52 to 2^53. *)
Definition pack (m e : Z) : number :=
  if m <? 2 ^ 53 then S754_finite false (Z.to_pos m) e
  else S754_finite false (Z.to_pos (2 ^ 52)) (e + 1).

(** The sign bit is clear, or the value is NaN. *)
Definition not_negative (x : number) : bool :=
  match x with
  | S754_zero s | S754_infinity s | S754_finite s _ _ => negb s
  | S754_nan => true
  end.

(** The binary64 sum of integers, added from the left as [reduce] adds
    them. *)
Definition number_sum (values : list Z) : number :=
  fold_left (fun sum v => add sum (of_Z v)) values (of_Z 0).

(** The mean [s / n] in tenths, rounded half up, in exact arithmetic. *)
Definition tenths (s n : Z) : Z := (20 * s + n) / (2 * n).

(** [Math.round(s / n * 10)] agrees with the exact rounding for every
    mean of [n] values between 0 and 5, up to [bound] values. *)
Definition round_exact_upto (bound : nat) : bool :=
  forallb (fun n => forallb (fun s =>
      same (Math_round (mul (div (of_Z (Z.of_nat s)) (of_Z (Z.of_nat n))) (of_Z 10)))
           (of_Z (tenths (Z.of_nat s) (Z.of_nat n))))
    (seq 0 (S (5 * n)))) (seq 1 bound).

(** The sum of the values that are present. *)
Definition sum_present (f : entry -> option Z) (items : list entry) : Z :=
  foldr Z.add 0 (omap f items).

Definition absent (f : entry -> option Z) (item : entry) : bool :=
  match f item with Some _ => false | None => true end.

(** The double that the literal [4.7] denotes. *)
Definition four_point_seven : number := S754_finite false 5291729562160333 (-50).

(** ** Tag counts *)

(** One pass of the inner loop body. *)
Definition count_tag (tagCount : gmap string jsvalue) (tag : string) : gmap string jsvalue :=
  set tagCount tag (or_zero_plus_one (get tagCount tag)).

(** All tag occurrences of a store, entry by entry. *)
Definition all_tags (data : list entry) : list string := concat (tags <$> data).

Definition occurrences (tag : string) (data : list entry) : nat :=
  length (List.filter (String.eqb tag) (all_tags data)).

(** [tagCount] holds the count [c] for [tag]: no property for 0, the
    number [c] otherwise. *)
Definition counts (tagCount : gmap string jsvalue) (tag : string) (c : Z) : Prop :=
  (c = 0 ∧ tagCount !! tag = None) ∨ (0 < c ∧ tagCount !! tag = Some (VNumber c)).

(** ** Example data *)

(** An entry with the given status, rating and impact, for examples. *)
Definition rated_entry (status : string) (rating impact : option Z) : entry :=
  {| id := ""; dateAdded := "2025-01-01"; dateRead := None; title := ""; author := "";
     type := "book"; tags := []; status := status; rating := rating; impact := impact |}.

(** An entry with the given tags, for examples. *)
Definition tagged_entry (tags : list string) : entry :=
  {| id := ""; dateAdded := "2025-01-01"; dateRead := None; title := ""; author := "";
     type := "book"; tags := tags; status := "to-read"; rating := None; impact := None |}.

(** The entry at position [n] of the fixture. *)
Definition sample (n : nat) : entry := nth n allSampleData (tagged_entry []).

(** Ten entries, six of them read and rated 4, 5, 4, 5, 5, 5. *)
Definition six_read_store : list entry :=
  [ rated_entry "read" (Some 4) None; rated_entry "to-read" None None;
    rated_entry "read" (Some 5) None; rated_entry "read" (Some 4) None;
    rated_entry "in-progress" None None; rated_entry "read" (Some 5) None;
    rated_entry "read" (Some 5) None; rated_entry "to-read" None None;
    rated_entry "read" (Some 5) None; rated_entry "in-progress" None None ].

(** A heap with three entry objects and the store array at address 4. *)
Definition small_heap : heap :=
  {| objects := list_to_map [(1%positive, sample 0); (2%positive, sample 2);
                             (3%positive, sample 6)];
     arrays := {[ 4%positive := [1%positive; 2%positive; 3%positive] ]} |}.

(** ** Dropdown options *)

Definition only_type (type : string) (field : sortField) (order : sortDirection) : settings :=
  {| searchTerm := ""; selectedStatus := "all"; selectedType := type;
     selectedTag := "all"; sortBy := field; sortOrder := order |}.

(** The settings [cfg] with the sort order replaced. *)
Definition with_order (cfg : settings) (order : sortDirection) : settings :=
  {| searchTerm := searchTerm cfg; selectedStatus := selectedStatus cfg;
     selectedType := selectedType cfg; selectedTag := selectedTag cfg;
     sortBy := sortBy cfg; sortOrder := order |}.

(** ** Counters *)

(** How often [key] occurs in [keys]. *)
Definition tally (key : string) (keys : list string) : Z :=
  Z.of_nat (length (List.filter (String.eqb key) keys)).

(** The row of a counter object for [key]. *)
Definition row_of (keys : list string) (key : string) : string * jsvalue :=
  (key, VNumber (tally key keys)).

(** A key that [Object.entries] lists in creation order and that is
    counted as a number: no array index, no member of
    [Object.prototype]. *)
Definition plain_key (key : string) : bool :=
  match inherited key, array_index key with
  | None, None => true
  | _, _ => false
  end.

(** The number in a row, 0 when it holds none. *)
Definition count_of (row : string * jsvalue) : Z :=
  match row.2 with
  | VNumber n => n
  | VString _ => 0
  end.

(** ** Chart data *)

(** The entry has a truthy [dateRead]. *)
Definition dated (item : entry) : bool := truthy (dateRead item).

(** The time value of the entry's [dateRead]. *)
Definition read_time `{Host} (item : entry) : Date := Date_of (dateRead item).

(** [a] was read no later than [b], both on valid dates. *)
Definition chronological `{Host} (a b : entry) : Prop :=
  match read_time a, read_time b with
  | Some ta, Some tb => ta <= tb
  | _, _ => False
  end.

(** The tags as [wordCloudData] counts them: trimmed, the empty ones
    left out. *)
Definition clean_tags `{Builtins} (data : list entry) : list string :=
  List.filter (fun tag => truthy (Some tag)) (trim <$> all_tags data).

(** The entry has a rating from 1 to 5. *)
Definition rated_1_to_5 (item : entry) : bool :=
  match rating item with
  | Some n => (1 <=? n) && (n <=? 5)
  | None => false
  end.

(** The number of filled stars. *)
Definition filled (stars : list bool) : nat := length (List.filter (fun star => star) stars).

(** The entry has a truthy [type]. *)
Definition typed (item : entry) : bool := truthy (Some (type item)).

(** The name a type is drawn under. *)
Definition display (item : entry) : string :=
  AdvancedAnalytics.String_replace "_" " " (type item).

Definition slice_of (names : list string) (name : string) : AdvancedAnalytics.slice :=
  {| AdvancedAnalytics.slice_name := name;
     AdvancedAnalytics.slice_value := VNumber (tally name names);
     AdvancedAnalytics.slice_fill := AdvancedAnalytics.fill_of name |}.

(** The status is none of the three that are counted. *)
Definition other_status (item : entry) : bool :=
  negb (has_status "read" item || has_status "in-progress" item || has_status "to-read" item).

(** ** The two averages *)

(** The mean [s / n] lies halfway between two tenths. *)
Definition exact_tie (s n : Z) : bool := (20 * s) mod (2 * n) =? n.

(** The text is [n] tenths with one decimal. *)
Definition shows (text : option string) (n : Z) : bool :=
  match text with
  | Some t => (t =? one_decimal n)%string
  | None => false
  end.

(** [(s / n).toFixed(1)] shows the exact rounding of the mean, or at a
    tie possibly the tenth below, for every mean of [n] values between
    0 and 5, up to [bound] values. *)
Definition fixed_exact_upto (bound : nat) : bool :=
  forallb (fun n => forallb (fun s =>
      let text := toFixed1 (div (of_Z (Z.of_nat s)) (of_Z (Z.of_nat n))) in
      let t := tenths (Z.of_nat s) (Z.of_nat n) in
      shows text t || (exact_tie (Z.of_nat s) (Z.of_nat n) && shows text (t - 1)))
    (seq 0 (S (5 * n)))) (seq 1 bound).

(** Nineteen read entries rated 2 and one rated 1: the mean is 1.95. *)
Definition twenty_read : list entry :=
  (replicate 19 (rated_entry "read" (Some 2) None) ++ [rated_entry "read" (Some 1) None])%list.

(** * Properties *)

(** ** The two insertion sorts meet the contract of the host sort *)
Section InsertionSort.
Context {A : Type}.
Implicit Types (shift : A -> A -> bool) (cmp : A -> A -> Z) (l prefix : list A).

Lemma sift_perm shift x prefix : sift shift x prefix ≡ₚ x :: prefix.
Proof.
  induction prefix as [|y rest IH]; simpl; [done|].
  destruct (shift x y); [|done].
  rewrite IH. apply perm_swap.
Qed.

Lemma fold_sift_perm shift l prefix :
  fold_left (fun prefix x => sift shift x prefix) l prefix ≡ₚ l ++ prefix.
Proof.
  revert prefix. induction l as [|x l IH]; intros prefix; simpl; [done|].
  rewrite IH, sift_perm. by rewrite Permutation_middle.
Qed.

Lemma insertion_sort_perm shift l : insertion_sort shift l ≡ₚ l.
Proof.
  unfold insertion_sort. rewrite reverse_Permutation, fold_sift_perm.
  by rewrite app_nil_r.
Qed.

Lemma descending_rev cmp prefix :
  descending cmp prefix → StronglySorted (fun a b => cmp a b <= 0) (reverse prefix).
Proof.
  induction 1 as [|x rest Hrest IH Hx]; [constructor|].
  rewrite reverse_cons. apply StronglySorted_app. split_and!; [|done|].
  - intros a b Ha Hb. apply list_elem_of_singleton in Hb as ->.
    rewrite Forall_forall in Hx. apply Hx. by apply elem_of_reverse.
  - repeat constructor.
Qed.

Lemma sift_descending shift cmp l x prefix :
  ordering_on cmp l → sound_on shift cmp l →
  x ∈ l → prefix ⊆ l →
  descending cmp prefix → descending cmp (sift shift x prefix).
Proof.
  intros (Htot & Htrans & _) Hsound Hx Hsub Hdesc.
  induction Hdesc as [|y rest Hrest IH Hy]; simpl.
  { repeat constructor. }
  assert (y ∈ l) as Hyl by (apply Hsub; left).
  assert (rest ⊆ l) as Hsub' by (intros z Hz; apply Hsub; by right).
  specialize (Hsound x y Hx Hyl).
  destruct (shift x y).
  - constructor; [by apply IH|].
    apply Forall_forall. intros z Hz.
    rewrite sift_perm in Hz. apply elem_of_cons in Hz as [->|Hz]; [done|].
    rewrite Forall_forall in Hy. by apply Hy.
  - constructor; [by constructor|].
    constructor; [done|].
    apply Forall_forall. intros z Hz.
    rewrite Forall_forall in Hy.
    apply (Htrans z y x); auto.
Qed.

Lemma fold_sift_descending shift cmp l l' prefix :
  ordering_on cmp l → sound_on shift cmp l →
  l' ⊆ l → prefix ⊆ l →
  descending cmp prefix →
  descending cmp (fold_left (fun prefix x => sift shift x prefix) l' prefix).
Proof.
  intros Hord Hsound. revert prefix.
  induction l' as [|x l' IH]; intros prefix Hl' Hsub Hdesc; simpl; [done|].
  assert (x ∈ l) as Hx by (apply Hl'; left).
  apply IH.
  - intros z Hz. apply Hl'. by right.
  - intros z Hz. rewrite sift_perm in Hz.
    apply elem_of_cons in Hz as [->|Hz]; auto.
  - by eapply sift_descending.
Qed.

Lemma insertion_sort_sorted shift cmp l :
  ordering_on cmp l → sound_on shift cmp l →
  StronglySorted (fun a b => cmp a b <= 0) (insertion_sort shift l).
Proof.
  intros Hord Hsound. apply descending_rev.
  eapply fold_sift_descending; eauto.
  - set_solver.
  - constructor.
Qed.

Lemma sound_gt cmp l : ordering_on cmp l → sound_on (fun x y => 0 <? cmp y x) cmp l.
Proof.
  intros (Htot & _ & _) x y Hx Hy.
  destruct (Z.ltb_spec 0 (cmp y x)); [|lia].
  destruct (Htot x y Hx Hy); [done|lia].
Qed.

Lemma sound_lt cmp l : ordering_on cmp l → sound_on (fun x y => cmp x y <? 0) cmp l.
Proof.
  intros (Htot & _ & Hzero) x y Hx Hy.
  destruct (Z.ltb_spec (cmp x y) 0); [lia|].
  destruct (Z.eq_dec (cmp x y) 0) as [H0|H0].
  - rewrite (Hzero x y); auto. lia.
  - destruct (Htot x y Hx Hy); [lia|done].
Qed.

End InsertionSort.

Lemma sift_fmap {A B} (f : A -> B) (shift : B -> B -> bool) x (prefix : list A) :
  f <$> sift (fun x y => shift (f x) (f y)) x prefix = sift shift (f x) (f <$> prefix).
Proof.
  induction prefix as [|y rest IH]; csimpl; [done|].
  destruct (shift (f x) (f y)); csimpl; by rewrite ?IH.
Qed.

Lemma insertion_sort_natural {A B} (f : A -> B) (shift : B -> B -> bool) (l : list A) :
  f <$> insertion_sort (fun x y => shift (f x) (f y)) l = insertion_sort shift (f <$> l).
Proof.
  unfold insertion_sort. rewrite fmap_reverse. f_equal.
  change (@nil B) with (f <$> @nil A).
  generalize (@nil A) as prefix.
  induction l as [|x l IH]; intros prefix; csimpl; [done|].
  by rewrite IH, sift_fmap.
Qed.

(** Both hosts meet the contract. *)
Lemma host_gt_laws : HostLaws host_gt.
Proof.
  split.
  - intros. apply insertion_sort_perm.
  - intros A B f cmp l. apply (insertion_sort_natural f (fun x y => 0 <? cmp y x)).
  - intros A cmp l Hord. apply insertion_sort_sorted; [done|]. by apply sound_gt.
  - done.
  - done.
Qed.

Lemma host_lt_laws : HostLaws host_lt.
Proof.
  split.
  - intros. apply insertion_sort_perm.
  - intros A B f cmp l. apply (insertion_sort_natural f (fun x y => cmp x y <? 0)).
  - intros A cmp l Hord. apply insertion_sort_sorted; [done|]. by apply sound_lt.
  - done.
  - done.
Qed.

(** ** Strings: substring search and the code-unit order *)

Lemma app_String (c : ascii) (s t : string) : String c s ++ t = String c (s ++ t).
Proof. reflexivity. Qed.

Lemma prefix_spec (needle hay : string) :
  String.prefix needle hay = true ↔ ∃ post, hay = needle ++ post.
Proof.
  revert hay. induction needle as [|c needle IH]; intros hay.
  - destruct hay; simpl; split; eauto.
  - destruct hay as [|d hay]; simpl.
    + split; [done|]. by intros [post ?].
    + destruct (ascii_dec c d) as [->|Hne].
      * rewrite IH. split; intros [post Hpost]; exists post;
          rewrite app_String in *; congruence.
      * split; [done|]. intros [post Hpost]. rewrite app_String in Hpost. congruence.
Qed.

Lemma includes_spec (hay needle : string) :
  includes hay needle = true ↔ contains hay needle.
Proof.
  induction hay as [|c hay IH].
  - change (includes "" needle) with (String.prefix needle "" || false).
    rewrite orb_false_r, prefix_spec. split.
    + intros [post Hpost]. by exists "", post.
    + intros (pre & post & Heq). destruct pre; [eauto|done].
  - change (includes (String c hay) needle)
      with (String.prefix needle (String c hay) || includes hay needle).
    rewrite orb_true_iff, prefix_spec, IH. split.
    + intros [[post Hpost]|(pre & post & Heq)].
      * by exists "", post.
      * exists (String c pre), post. by rewrite app_String, Heq.
    + intros (pre & post & Heq). destruct pre as [|d pre].
      * left. eauto.
      * right. exists pre, post. rewrite app_String in Heq. congruence.
Qed.

Lemma includes_empty (hay : string) : includes hay "" = true.
Proof. apply includes_spec. by exists "", hay. Qed.

Lemma ascii_compare_refl (c : ascii) : Ascii.compare c c = Eq.
Proof. unfold Ascii.compare. apply N.compare_refl. Qed.

Lemma string_compare_refl (s : string) : String.compare s s = Eq.
Proof. induction s as [|c s IH]; simpl; [done|]. by rewrite ascii_compare_refl. Qed.

Lemma string_compare_le_trans (a b c : string) :
  String.compare a b ≠ Gt → String.compare b c ≠ Gt → String.compare a c ≠ Gt.
Proof.
  revert b c. induction a as [|x a IH]; intros [|y b] [|z c]; simpl; try done.
  unfold Ascii.compare.
  destruct (N.compare_spec (N_of_ascii x) (N_of_ascii y)) as [Hxy|Hxy|Hxy];
    destruct (N.compare_spec (N_of_ascii y) (N_of_ascii z)) as [Hyz|Hyz|Hyz];
    try done; intros Hab Hbc.
  - rewrite Hxy, Hyz, N.compare_refl. by eapply IH.
  - rewrite Hxy. by rewrite (proj2 (N.compare_lt_iff _ _) Hyz).
  - rewrite <- Hyz. by rewrite (proj2 (N.compare_lt_iff _ _) Hxy).
  - by rewrite (proj2 (N.compare_lt_iff _ _) (N.lt_trans _ _ _ Hxy Hyz)).
Qed.

Lemma string_lt_gt (a b : string) : string_lt a b = string_gt b a.
Proof.
  unfold string_lt, string_gt. rewrite (String.compare_antisym b a).
  by destruct (String.compare a b).
Qed.


(** ** The comparator *)
Section Engine.
Context {host : Host} {laws : HostLaws host}.

Lemma toLowerCase_empty : toLowerCase "" = "".
Proof. by rewrite toLowerCase_ascii. Qed.

Lemma newDate_sentinel : newDate sentinel = Some sentinel_time.
Proof. by apply Date_parse_iso. Qed.

Lemma value_lt_gt field (x y : sortValue field) : value_lt field x y = value_gt field y x.
Proof. destruct field; simpl; try done. apply string_lt_gt. Qed.

Lemma comparator_asc field a b :
  comparator field asc a b = if above field a b then 1 else -1.
Proof. reflexivity. Qed.

Lemma comparator_desc field a b :
  comparator field desc a b = if above field b a then 1 else -1.
Proof. unfold comparator, above. by rewrite value_lt_gt. Qed.

Lemma comparator_flip field a b :
  comparator field desc a b = comparator field asc b a.
Proof. by rewrite comparator_asc, comparator_desc. Qed.

Lemma date_gt_irrefl (x : Date) : date_gt x x = false.
Proof. destruct x as [t|]; simpl; [|done]. apply Z.ltb_irrefl. Qed.

Lemma date_gt_asym (x y : Date) : date_gt x y = true → date_gt y x = false.
Proof. destruct x, y; simpl; try done. lia. Qed.

Lemma date_gt_neg_trans (x y z : Date) :
  y ≠ None → date_gt x y = false → date_gt y z = false → date_gt x z = false.
Proof. destruct x, y, z; simpl; try done. lia. Qed.

Lemma date_gt_total (x y : Date) :
  x ≠ None → y ≠ None → x ≠ y → date_gt x y = true ∨ date_gt y x = true.
Proof.
  destruct x as [tx|], y as [ty|]; simpl; try done.
  intros _ _ Hne. assert (tx ≠ ty) by congruence. lia.
Qed.

Lemma string_gt_irrefl (s : string) : string_gt s s = false.
Proof. unfold string_gt. by rewrite string_compare_refl. Qed.

Lemma string_gt_asym (s t : string) : string_gt s t = true → string_gt t s = false.
Proof.
  unfold string_gt. rewrite (String.compare_antisym s t).
  by destruct (String.compare t s).
Qed.

Lemma string_gt_neg_trans (s t u : string) :
  string_gt s t = false → string_gt t u = false → string_gt s u = false.
Proof.
  unfold string_gt. intros Hst Htu.
  pose proof (string_compare_le_trans s t u) as Ht.
  destruct (String.compare s t), (String.compare t u), (String.compare s u);
    try done; exfalso; by apply Ht.
Qed.

Lemma string_gt_total (s t : string) :
  s ≠ t → string_gt s t = true ∨ string_gt t s = true.
Proof.
  unfold string_gt. intros Hne. rewrite (String.compare_antisym s t).
  destruct (String.compare t s) eqn:Hc; simpl; auto.
  by apply String.compare_eq_iff in Hc.
Qed.

Lemma above_irrefl field a b :
  sort_value field a = sort_value field b → above field a b = false.
Proof.
  unfold above. intros ->. destruct field; cbn [value_gt].
  - apply date_gt_irrefl.
  - apply date_gt_irrefl.
  - apply string_gt_irrefl.
  - apply Z.ltb_irrefl.
Qed.

Lemma above_asym field a b : above field a b = true → above field b a = false.
Proof.
  unfold above. destruct field; cbn [value_gt].
  - apply date_gt_asym.
  - apply date_gt_asym.
  - apply string_gt_asym.
  - lia.
Qed.

Lemma above_neg_trans field a b c :
  valid_key field b →
  above field a b = false → above field b c = false → above field a c = false.
Proof.
  unfold above, valid_key. destruct field; cbn [value_gt].
  - apply date_gt_neg_trans.
  - apply date_gt_neg_trans.
  - intros _. apply string_gt_neg_trans.
  - lia.
Qed.

Lemma above_total field a b :
  valid_key field a → valid_key field b →
  sort_value field a ≠ sort_value field b →
  (field = ByRating → ToNumber (rating a) ≠ ToNumber (rating b)) →
  above field a b = true ∨ above field b a = true.
Proof.
  unfold above, valid_key. destruct field; cbn [value_gt].
  - intros Ha Hb Hne _. by apply date_gt_total.
  - intros Ha Hb Hne _. by apply date_gt_total.
  - intros _ _ Hne _. by apply string_gt_total.
  - intros _ _ _ Hne. specialize (Hne eq_refl).
    change (sort_value ByRating a) with (rating a).
    change (sort_value ByRating b) with (rating b). lia.
Qed.

Lemma comparator_le field order a b :
  comparator field order a b <= 0 ↔
  (match order with asc => above field a b | desc => above field b a end) = false.
Proof.
  destruct order; rewrite ?comparator_asc, ?comparator_desc;
    destruct (above _ _ _); split; (done || lia).
Qed.

Lemma comparator_ordering field order (l : list entry) :
  (∀ e, e ∈ l → valid_key field e) → ordering_on (comparator field order) l.
Proof.
  intros Hvalid. split_and!.
  - intros a b _ _. rewrite !comparator_le.
    destruct order.
    + destruct (above field a b) eqn:Hab; [right; by apply above_asym|by left].
    + destruct (above field b a) eqn:Hab; [right; by apply above_asym|by left].
  - intros a b c Ha Hb Hc. rewrite !comparator_le. destruct order.
    + apply above_neg_trans; auto.
    + intros Hba Hcb. apply (above_neg_trans field c b a); auto.
  - intros a b _ _. destruct order; rewrite ?comparator_asc, ?comparator_desc;
      destruct (above _ _ _); done.
Qed.

Lemma conforms_valid_key field e : conforms e = true → valid_key field e.
Proof.
  unfold conforms, valid_key, effective_time, newDate. intros Hc.
  repeat (apply andb_prop in Hc as [Hc ?]).
  pose proof newDate_sentinel as Hs. unfold newDate in Hs.
  destruct field; simpl; try done.
  - destruct (dateAdded e) eqn:Hd; simpl; [by rewrite Hs|].
    by destruct (Date_parse (String _ _)).
  - destruct (dateRead e) as [[|a d]|]; simpl; try by rewrite Hs.
    by destruct (Date_parse (String a d)).
Qed.

(** ** The derived view *)

Lemma elem_of_List_filter {A} (p : A -> bool) (l : list A) (x : A) :
  x ∈ List.filter p l ↔ x ∈ l ∧ p x = true.
Proof. rewrite !list_elem_of_In. apply filter_In. Qed.

Lemma elem_of_filteredData store cfg e :
  e ∈ filteredData store cfg ↔ e ∈ store ∧ matches cfg e = true.
Proof.
  unfold filteredData. rewrite array_sort_perm. apply elem_of_List_filter.
Qed.

Lemma existsb_elem_of {A} (p : A -> bool) (l : list A) :
  existsb p l = true ↔ ∃ x, x ∈ l ∧ p x = true.
Proof.
  rewrite existsb_exists. by setoid_rewrite list_elem_of_In.
Qed.

Lemma matchesSearch_spec term e :
  matchesSearch term e = true ↔
  term = "" ∨ contains_ci (title e) term ∨ contains_ci (author e) term ∨
  ∃ tag, tag ∈ tags e ∧ contains_ci tag term.
Proof.
  unfold matchesSearch, contains_ci.
  rewrite !orb_true_iff, !includes_spec, existsb_elem_of.
  setoid_rewrite includes_spec. split.
  - intros [[?|?]|?]; auto.
  - intros [->|[?|[?|?]]]; auto.
    left; left. rewrite toLowerCase_empty. apply includes_spec, includes_empty.
Qed.

Lemma matchesStatus_spec sel e :
  matchesStatus sel e = true ↔ sel = "all" ∨ status e = sel.
Proof. unfold matchesStatus. by rewrite orb_true_iff, !String.eqb_eq. Qed.

Lemma matchesType_spec sel e :
  matchesType sel e = true ↔ sel = "all" ∨ type e = sel.
Proof. unfold matchesType. by rewrite orb_true_iff, !String.eqb_eq. Qed.

Lemma matchesTag_spec sel e :
  matchesTag sel e = true ↔ sel = "all" ∨ sel ∈ tags e.
Proof.
  unfold matchesTag. rewrite orb_true_iff, String.eqb_eq, existsb_elem_of.
  apply or_iff_compat_l. split.
  - intros (tag & Hin & Heq). apply String.eqb_eq in Heq. by subst.
  - intros Hin. exists sel. by rewrite String.eqb_refl.
Qed.

(** C1.  An entry is in the derived view exactly when it is in the
    store and passes the four filters together: the search text is
    empty or occurs, ignoring case, in the title, the author or some
    tag; the status filter is "all" or the entry's status; the type
    filter is "all" or the entry's type; the tag filter is "all" or one
    of the entry's tags. *)
Theorem view_membership store cfg e :
  e ∈ filteredData store cfg ↔
  e ∈ store ∧
  (searchTerm cfg = "" ∨
   contains_ci (title e) (searchTerm cfg) ∨
   contains_ci (author e) (searchTerm cfg) ∨
   ∃ tag, tag ∈ tags e ∧ contains_ci tag (searchTerm cfg)) ∧
  (selectedStatus cfg = "all" ∨ status e = selectedStatus cfg) ∧
  (selectedType cfg = "all" ∨ type e = selectedType cfg) ∧
  (selectedTag cfg = "all" ∨ selectedTag cfg ∈ tags e).
Proof.
  rewrite elem_of_filteredData. unfold matches.
  rewrite !andb_true_iff, matchesSearch_spec, matchesStatus_spec,
    matchesType_spec, matchesTag_spec.
  tauto.
Qed.

Lemma filteredData_sorted store cfg :
  (∀ e, e ∈ store → matches cfg e = true → valid_key (sortBy cfg) e) →
  StronglySorted (fun a b => comparator (sortBy cfg) (sortOrder cfg) a b <= 0)
    (filteredData store cfg).
Proof.
  intros Hvalid. apply array_sort_sorted, comparator_ordering.
  intros e He. apply elem_of_List_filter in He as [??]. auto.
Qed.


(** C7.  With no search text and the status and type filters on "all",
    the tag filter "AI" keeps exactly the entries that carry the tag "AI"
    itself: an entry tagged only "ai", or only "AI Ethics", is dropped,
    although the free-text search for "AI" finds both. *)
Theorem tag_filter_is_exact (store : list entry) field order :
  (∀ e, e ∈ filteredData store (only_tag "AI" field order) ↔
        (e ∈ store ∧ "AI" ∈ tags e)) ∧
  (∀ e, e ∈ store → (tags e = ["ai"] ∨ tags e = ["AI Ethics"]) →
     (e ∉ filteredData store (only_tag "AI" field order)) ∧
     (e ∈ filteredData store (only_search "AI" field order))).
Proof.
  assert (∀ e, matches (only_tag "AI" field order) e = true ↔ "AI" ∈ tags e) as Htag.
  { intros e. unfold matches. cbn [only_tag searchTerm selectedStatus selectedType selectedTag].
    rewrite !andb_true_iff, matchesSearch_spec, matchesStatus_spec,
      matchesType_spec, matchesTag_spec.
    split; [intros (_ & [?|?]); done|]. intros ?. split_and!; auto. }
  split.
  - intros e. by rewrite elem_of_filteredData, Htag.
  - intros e He Htags. split.
    + rewrite elem_of_filteredData, Htag. intros [_ Hin].
      destruct Htags as [Ht|Ht]; rewrite Ht in Hin;
        apply list_elem_of_singleton in Hin; done.
    + apply elem_of_filteredData. split; [done|].
      unfold matches, matchesSearch. simpl.
      rewrite (toLowerCase_ascii "AI") by done.
      destruct Htags as [-> | ->]; simpl.
      * rewrite (toLowerCase_ascii "ai") by done. by rewrite !orb_true_r.
      * rewrite (toLowerCase_ascii "AI Ethics") by done. by rewrite !orb_true_r.
Qed.

(** The filter lets every entry through when no control is set. *)
Lemma matches_no_filter field order e : matches (no_filter field order) e = true.
Proof.
  unfold matches, matchesSearch. cbn [no_filter searchTerm].
  by rewrite toLowerCase_empty, includes_empty.
Qed.

Lemma filter_no_filter field order (store : list entry) :
  List.filter (matches (no_filter field order)) store = store.
Proof.
  induction store as [|e store IH]; simpl; [done|].
  by rewrite matches_no_filter, IH.
Qed.

Lemma StronglySorted_three {A} (R : A -> A -> Prop) (a b c : A) :
  R a b → R a c → R b c → StronglySorted R [a; b; c].
Proof. intros. repeat constructor; done. Qed.

(** C6.  Three entries titled "Atomic Habits", "The Lean Startup" and
    "Why We Sleep", held in any order and with no filter set, come out
    in that order when sorted by title ascending and in the opposite
    order when sorted descending. *)
Theorem sort_by_title (e1 e2 e3 : entry) (store : list entry) :
  title e1 = "Atomic Habits" →
  title e2 = "The Lean Startup" →
  title e3 = "Why We Sleep" →
  store ≡ₚ [e1; e2; e3] →
  filteredData store (no_filter ByTitle asc) = [e1; e2; e3] ∧
  filteredData store (no_filter ByTitle desc) = [e3; e2; e1].
Proof.
  intros H1 H2 H3 Hperm.
  assert (∀ order a b, a ∈ [e1; e2; e3] → b ∈ [e1; e2; e3] →
            comparator ByTitle order a b <= 0 → comparator ByTitle order b a <= 0 →
            a = b) as Hanti.
  { intros order a b Ha Hb. rewrite !comparator_le. unfold above. cbn [value_gt sort_value].
    set_unfold. destruct order;
      destruct Ha as [->|[->|[->|[]]]]; destruct Hb as [->|[->|[->|[]]]];
      rewrite ?H1, ?H2, ?H3; try done; vm_compute; congruence. }
  split.
  - apply (StronglySorted_unique_strong (fun a b => comparator ByTitle asc a b <= 0)).
    + intros a b Ha Hb. apply Hanti; [|done].
      apply elem_of_filteredData in Ha as [Ha _]. by rewrite Hperm in Ha.
    + by apply (filteredData_sorted store (no_filter ByTitle asc)).
    + apply StronglySorted_three;
        rewrite comparator_le; unfold above; cbn [value_gt sort_value];
        rewrite ?H1, ?H2, ?H3; by vm_compute.
    + unfold filteredData. by rewrite array_sort_perm, filter_no_filter.
  - apply (StronglySorted_unique_strong (fun a b => comparator ByTitle desc a b <= 0)).
    + intros a b Ha Hb. apply Hanti.
      * apply elem_of_filteredData in Ha as [Ha _]. by rewrite Hperm in Ha.
      * by apply (elem_of_reverse b [e3; e2; e1]).
    + by apply (filteredData_sorted store (no_filter ByTitle desc)).
    + apply StronglySorted_three;
        rewrite comparator_le; unfold above; cbn [value_gt sort_value];
        rewrite ?H1, ?H2, ?H3; by vm_compute.
    + unfold filteredData. rewrite array_sort_perm, filter_no_filter, Hperm.
      rewrite (Permutation_rev [e3; e2; e1]). done.
Qed.

Lemma conforms_rating_distinct a b :
  conforms a = true → conforms b = true →
  rating a ≠ rating b → ToNumber (rating a) ≠ ToNumber (rating b).
Proof.
  unfold conforms, in_scale. intros Ha Hb.
  repeat (apply andb_prop in Ha as [Ha ?]). repeat (apply andb_prop in Hb as [Hb ?]).
  destruct (rating a) as [n|], (rating b) as [m|]; simpl; intros Hne; try done.
  - congruence.
  - lia.
  - lia.
Qed.

(** ** Sorting by a date field *)

Lemma effective_time_cases field e :
  after_sentinel field e = true →
  (is_missing field e = true ∧ effective_time field e = Some sentinel_time) ∨
  (is_missing field e = false ∧ ∃ t, effective_time field e = Some t ∧ sentinel_time < t).
Proof.
  unfold after_sentinel, is_missing, effective_time.
  destruct (raw_date field e) as [[|c d]|]; cbn [or_string]; auto using newDate_sentinel.
  destruct (newDate (String c d)) as [t|]; [|done].
  intros Ht. right. split; [done|]. exists t. split; [done|lia].
Qed.

Lemma StronglySorted_weaken {A} (R R' : A -> A -> Prop) (l : list A) :
  (∀ a b, a ∈ l → b ∈ l → R a b → R' a b) →
  StronglySorted R l → StronglySorted R' l.
Proof.
  intros Himpl Hs. induction Hs as [|x l Hs IH Hx]; constructor.
  - apply IH. intros a b Ha Hb. apply Himpl; by right.
  - rewrite Forall_forall in *. intros y Hy. apply Himpl; [left|by right|auto].
Qed.

(** A list in [R] order splits into the elements with [p] followed by
    those without, when no element without [p] may precede one with it. *)
Lemma sorted_blocks {A} (R : A -> A -> Prop) (p : A -> bool) (l : list A) :
  StronglySorted R l →
  (∀ a b, a ∈ l → b ∈ l → p a = false → p b = true → ¬ R a b) →
  l = (List.filter p l ++ List.filter (fun x => negb (p x)) l)%list.
Proof.
  intros Hs Hsep. induction Hs as [|x l Hs IH Hx]; [done|].
  assert (l = (List.filter p l ++ List.filter (fun x => negb (p x)) l)%list) as Hl.
  { apply IH. intros a b Ha Hb. apply Hsep; by right. }
  simpl. destruct (p x) eqn:Hpx; simpl; [by rewrite <- Hl|].
  assert (List.filter p l = []) as Hnone.
  { destruct (List.filter p l) as [|y ys] eqn:Hf; [done|]. exfalso.
    assert (y ∈ List.filter p l) as Hy by (rewrite Hf; left).
    apply elem_of_List_filter in Hy as [Hy Hpy].
    rewrite Forall_forall in Hx. apply (Hsep x y); [left|by right|done|done|auto]. }
  rewrite Hnone. simpl. f_equal. rewrite Hl at 1. by rewrite Hnone.
Qed.

Lemma above_date field a b :
  field = ByDateAdded ∨ field = ByDateRead →
  above field a b = date_gt (effective_time field a) (effective_time field b).
Proof. by intros [-> | ->]. Qed.

Lemma after_sentinel_valid field e :
  after_sentinel field e = true → valid_key field e.
Proof.
  intros He. unfold valid_key.
  destruct (effective_time_cases field e He) as [[_ Ht]|[_ (t & Ht & _)]];
    destruct field; try done; by rewrite Ht.
Qed.

(** C3.  Sorting by [dateAdded] or [dateRead], over a store whose
    present dates are valid and later than 1900-01-01: every entry that
    passes the filter is in the view also when its date is missing, and
    then it is placed by the time value of 1900-01-01; the view is in
    the order of these time values; so the entries without a date form
    one block, before all dated entries ascending and after them
    descending. *)
Theorem missing_dates_sort_as_sentinel (store : list entry) (cfg : settings) :
  sortBy cfg = ByDateAdded ∨ sortBy cfg = ByDateRead →
  (∀ e, e ∈ store → after_sentinel (sortBy cfg) e = true) →
  let view := filteredData store cfg in
  let time := effective_time (sortBy cfg) in
  (∀ e, e ∈ store → matches cfg e = true → is_missing (sortBy cfg) e = true →
     e ∈ view ∧ time e = Some sentinel_time) ∧
  StronglySorted (fun a b => match sortOrder cfg with
                             | asc => time_le (time a) (time b)
                             | desc => time_le (time b) (time a)
                             end) view ∧
  ∃ missing dated,
    Forall (fun e => is_missing (sortBy cfg) e = true) missing ∧
    Forall (fun e => is_missing (sortBy cfg) e = false) dated ∧
    view = match sortOrder cfg with
           | asc => (missing ++ dated)%list
           | desc => (dated ++ missing)%list
           end.
Proof.
  intros Hfield Hafter view time.
  assert (∀ e, e ∈ view → e ∈ store) as Hview.
  { intros e He. by apply elem_of_filteredData in He as [? _]. }
  assert (StronglySorted (fun a b => match sortOrder cfg with
                                     | asc => time_le (time a) (time b)
                                     | desc => time_le (time b) (time a)
                                     end) view) as Hsorted.
  { apply (StronglySorted_weaken
             (fun a b => comparator (sortBy cfg) (sortOrder cfg) a b <= 0)).
    - intros a b Ha Hb. rewrite comparator_le, !above_date by done.
      apply Hview, Hafter, effective_time_cases in Ha, Hb. subst time.
      destruct Ha as [[_ Ha]|[_ (ta & Ha & _)]], Hb as [[_ Hb]|[_ (tb & Hb & _)]];
        rewrite Ha, Hb; destruct (sortOrder cfg); simpl; lia.
    - apply filteredData_sorted. intros e He _. by apply after_sentinel_valid, Hafter. }
  split_and!; [|done|].
  - intros e He Hm Hmiss. split; [by apply elem_of_filteredData|].
    destruct (effective_time_cases _ e (Hafter e He)) as [[_ Ht]|[Hd _]]; [done|congruence].
  - destruct (sortOrder cfg).
    + exists (List.filter (is_missing (sortBy cfg)) view),
        (List.filter (fun e => negb (is_missing (sortBy cfg) e)) view).
      split_and!.
      * apply Forall_forall. intros e He. by apply elem_of_List_filter in He as [_ ?].
      * apply Forall_forall. intros e He. apply elem_of_List_filter in He as [_ ?].
        by apply negb_true_iff.
      * apply (sorted_blocks _ _ _ Hsorted). intros a b Ha Hb Hda Hmb.
        apply Hview, Hafter, effective_time_cases in Ha, Hb. subst time.
        destruct Ha as [[? _]|[_ (ta & Ha & ?)]]; [congruence|].
        destruct Hb as [[_ Hb]|[? _]]; [|congruence].
        rewrite Ha, Hb. simpl. lia.
    + exists (List.filter (is_missing (sortBy cfg)) view),
        (List.filter (fun e => negb (is_missing (sortBy cfg) e)) view).
      split_and!.
      * apply Forall_forall. intros e He. by apply elem_of_List_filter in He as [_ ?].
      * apply Forall_forall. intros e He. apply elem_of_List_filter in He as [_ ?].
        by apply negb_true_iff.
      * rewrite (sorted_blocks _ (fun e => negb (is_missing (sortBy cfg) e)) _ Hsorted) at 1.
        { f_equal. apply filter_ext. intros e. apply negb_involutive. }
        intros a b Ha Hb Hma Hdb.
        apply negb_false_iff in Hma. apply negb_true_iff in Hdb.
        apply Hview, Hafter, effective_time_cases in Ha, Hb. subst time.
        destruct Hb as [[? _]|[_ (tb & Hb & ?)]]; [congruence|].
        destruct Ha as [[_ Ha]|[? _]]; [|congruence].
        rewrite Ha, Hb. simpl. lia.
Qed.

(** ** The view is built beside the store *)

Lemma deref_points_to h refs es : deref h refs = Some es ↔ points_to h refs es.
Proof. apply mapM_Some. Qed.

Lemma run_bind {A B} (m : M A) (k : A -> M B) (h : heap) :
  (m ≫= k) h = match m h with
               | Some (x, h') => k x h'
               | None => None
               end.
Proof. reflexivity. Qed.

Lemma run_get_object h r e : objects h !! r = Some e → get_object r h = Some (e, h).
Proof. unfold get_object. by intros ->. Qed.

Lemma run_get_array h r l : arrays h !! r = Some l → get_array r h = Some (l, h).
Proof. unfold get_array. by intros ->. Qed.

Lemma run_put_array h r l l' :
  arrays h !! r = Some l' →
  put_array r l h = Some (tt, {| objects := objects h; arrays := <[r := l]> (arrays h) |}).
Proof. unfold put_array. by intros ->. Qed.

Lemma mapM_get_object h refs es :
  points_to h refs es → mapM get_object refs h = Some (es, h).
Proof.
  induction 1 as [|r e refs es Hr _ IH]; [done|].
  cbn. rewrite run_bind, (run_get_object _ _ _ Hr), run_bind.
  fold (mapM (M := M) get_object). by rewrite IH.
Qed.

Lemma filterM_get_object h (p : entry -> bool) refs es :
  points_to h refs es →
  ∃ kept,
    filterM (fun r => item ← get_object r; mret (p item)) refs h = Some (kept, h) ∧
    points_to h kept (List.filter p es).
Proof.
  induction 1 as [|r e refs es Hr _ (kept & Hrun & Hkept)].
  { exists []. split; [done|constructor]. }
  exists (if p e then r :: kept else kept). split.
  - cbn. rewrite !run_bind, (run_get_object _ _ _ Hr). cbn.
    rewrite run_bind. by rewrite Hrun.
  - simpl. destruct (p e); [by constructor|done].
Qed.

Lemma points_to_sorted h (cmp : entry -> entry -> Z) refs es :
  points_to h refs es →
  let sorted := array_sort (fun x y => cmp (snd x) (snd y)) (zip refs es) in
  points_to h (fst <$> sorted) (snd <$> sorted) ∧ snd <$> sorted = array_sort cmp es.
Proof.
  intros Hpt sorted. split.
  - apply Forall2_fmap, Forall_Forall2_diag.
    unfold sorted. rewrite array_sort_perm.
    clear sorted. induction Hpt; constructor; auto.
  - unfold sorted. rewrite array_sort_natural. f_equal.
    apply snd_zip. by rewrite (Forall2_length _ _ _ Hpt).
Qed.

(** C8.  Computing the view writes nothing that was there before: the
    result is an array that did not exist, so a new one at every call;
    every entry object and every other array, the store among them, is
    as it was; and the new array holds the filtered and sorted entries. *)
Theorem view_leaves_store_untouched (h : heap) (store : loc) (items : list loc)
    (es : list entry) (cfg : settings) :
  arrays h !! store = Some items →
  deref h items = Some es →
  ∃ view h',
    filteredData_heap store cfg h = Some (view, h') ∧
    arrays h !! view = None ∧
    view ≠ store ∧
    objects h' = objects h ∧
    arrays h' !! store = Some items ∧
    deref h' items = Some es ∧
    (∀ r, r ≠ view → arrays h' !! r = arrays h !! r) ∧
    ∃ refs, arrays h' !! view = Some refs ∧
            deref h' refs = Some (filteredData es cfg).
Proof.
  intros Hstore Hitems. apply deref_points_to in Hitems.
  destruct (filterM_get_object h (matches cfg) items es Hitems) as (kept & Hrun & Hkept).
  set (view := fresh (dom (arrays h))).
  assert (arrays h !! view = None) as Hfresh.
  { apply not_elem_of_dom. apply is_fresh. }
  assert (view ≠ store) as Hne by congruence.
  set (h1 := {| objects := objects h; arrays := <[view := kept]> (arrays h) |}).
  set (cmp := comparator (sortBy cfg) (sortOrder cfg)).
  set (sorted := array_sort (fun x y => cmp (snd x) (snd y))
                   (zip kept (List.filter (matches cfg) es))).
  set (h2 := {| objects := objects h;
                arrays := <[view := fst <$> sorted]> (<[view := kept]> (arrays h)) |}).
  destruct (points_to_sorted h1 cmp kept _ Hkept) as [Hpt Hnat].
  fold sorted in Hpt, Hnat.
  exists view, h2. split_and!; try done.
  - unfold filteredData_heap, Array_filter, Array_sort.
    rewrite !run_bind, (run_get_array _ _ _ Hstore), run_bind, Hrun.
    unfold alloc_array. fold view. fold h1.
    rewrite !run_bind, (run_get_array h1 view kept) by apply lookup_insert_eq.
    rewrite run_bind, (mapM_get_object h1 kept _ Hkept).
    fold cmp. fold sorted.
    rewrite run_bind, (run_put_array h1 view _ kept) by apply lookup_insert_eq.
    done.
  - cbn. by rewrite !lookup_insert_ne.
  - by apply deref_points_to.
  - intros r Hr. cbn. by rewrite !lookup_insert_ne.
  - exists (fst <$> sorted). split.
    + cbn. by rewrite lookup_insert_eq.
    + apply deref_points_to. unfold filteredData. fold cmp. by rewrite <- Hnat.
Qed.

End Engine.

(** ** Ties *)

(** C10.  The comparator returns 1 or -1 and never 0.  On two entries
    with the same sort value it returns -1 in either argument order and
    in either direction.  On schema-conforming entries with different
    sort values the two argument orders give opposite results.  The
    order of two tied entries is the sort's choice: of two hosts that
    both meet the contract, one keeps them as they were and the other
    swaps them. *)
Theorem comparator_never_zero :
  (∀ (host : Host) field order a b,
     comparator field order a b = 1 ∨ comparator field order a b = -1) ∧
  (∀ (host : Host) field order a b, sort_value field a = sort_value field b →
     comparator field order a b = -1 ∧ comparator field order b a = -1) ∧
  (∀ (host : Host), HostLaws host →
     ∀ field order a b, conforms a = true → conforms b = true →
     sort_value field a ≠ sort_value field b →
     comparator field order a b = - comparator field order b a) ∧
  (HostLaws host_gt ∧ HostLaws host_lt ∧
   ∀ field order a b,
     @sort_value host_gt field a = @sort_value host_gt field b →
     @array_sort host_gt entry (@comparator host_gt field order) [a; b] = [a; b] ∧
     @array_sort host_lt entry (@comparator host_lt field order) [a; b] = [b; a]).
Proof.
  assert (∀ (host : Host) field order a b, sort_value field a = sort_value field b →
            comparator field order a b = -1) as Htie.
  { intros host field order a b Heq.
    destruct order; rewrite ?comparator_asc, ?comparator_desc;
      by rewrite above_irrefl. }
  split_and!.
  - intros host field order a b.
    destruct order; rewrite ?comparator_asc, ?comparator_desc;
      destruct (above _ _ _); auto.
  - intros host field order a b Heq. split; by apply Htie.
  - intros host laws field order a b Ha Hb Hne.
    assert (above field a b = true ∨ above field b a = true) as Habove.
    { apply above_total; auto using conforms_valid_key.
      intros ->. by apply conforms_rating_distinct. }
    destruct order; rewrite ?comparator_asc, ?comparator_desc;
      destruct Habove as [Hab|Hba];
      rewrite ?Hab, ?Hba, ?(above_asym _ _ _ Hab), ?(above_asym _ _ _ Hba); done.
  - apply host_gt_laws.
  - apply host_lt_laws.
  - intros field order a b Heq.
    assert (@comparator host_gt field order a b = -1) as Hab by by apply Htie.
    assert (@comparator host_gt field order b a = -1) as Hba by by apply Htie.
    split.
    + change (sort_gt (@comparator host_gt field order) [a; b] = [a; b]).
      unfold sort_gt, insertion_sort. cbn [fold_left sift]. by rewrite Hab.
    + change (sort_lt (@comparator host_gt field order) [a; b] = [b; a]).
      unfold sort_lt, insertion_sort. cbn [fold_left sift]. by rewrite Hba.
Qed.


(** ** Reading statistics *)

Lemma same_eq (x y : number) : same x y = true → x = y.
Proof.
  destruct x, y; simpl; try done.
  - by intros ->%Bool.eqb_prop.
  - by intros ->%Bool.eqb_prop.
  - intros [[->%Bool.eqb_prop ->%Pos.eqb_eq]%andb_prop ->%Z.eqb_eq]%andb_prop. done.
Qed.

Lemma round_exact : round_exact_upto 30 = true.
Proof. by vm_compute. Qed.

Lemma round_exact_upto_spec (bound n s : nat) :
  round_exact_upto bound = true →
  (1 <= n < 1 + bound)%nat → (s <= 5 * n)%nat →
  Math_round (mul (div (of_Z (Z.of_nat s)) (of_Z (Z.of_nat n))) (of_Z 10)) =
  of_Z (tenths (Z.of_nat s) (Z.of_nat n)).
Proof.
  unfold round_exact_upto. intros Htable Hn Hs.
  rewrite forallb_forall in Htable.
  assert (In n (seq 1 bound)) as Hin by (apply in_seq; lia).
  specialize (Htable n Hin). cbv beta in Htable.
  rewrite forallb_forall in Htable.
  assert (In s (seq 0 (S (5 * n)))) as Hin' by (apply in_seq; lia).
  specialize (Htable s Hin'). cbv beta in Htable.
  apply same_eq. exact Htable.
Qed.

Lemma round_exact_at (s n : Z) :
  0 < n <= 30 → 0 <= s <= 5 * n →
  Math_round (mul (div (of_Z s) (of_Z n)) (of_Z 10)) = of_Z (tenths s n).
Proof.
  intros Hn Hs.
  rewrite <- (Z2Nat.id n), <- (Z2Nat.id s) by lia.
  apply (round_exact_upto_spec 30); [apply round_exact|lia|lia].
Qed.

(** ** Binary64 on small integers *)

(** The exponent function of binary64 on the exponents met here. *)
Lemma fexp_normal (e : Z) : -1021 <= e → fexp 53 1024 e = e - 53.
Proof. intros He. unfold fexp, emin. lia. Qed.

Lemma digits2_bounds (p : positive) :
  2 ^ (Zpos (digits2_pos p) - 1) <= Zpos p < 2 ^ Zpos (digits2_pos p).
Proof.
  induction p as [p IH|p IH|]; cbn [digits2_pos].
  - rewrite Pos2Z.inj_succ, Z.pow_succ_r by lia.
    replace (Z.succ (Zpos (digits2_pos p)) - 1) with (Z.succ (Zpos (digits2_pos p) - 1)) by lia.
    rewrite Z.pow_succ_r by lia. lia.
  - rewrite Pos2Z.inj_succ, Z.pow_succ_r by lia.
    replace (Z.succ (Zpos (digits2_pos p)) - 1) with (Z.succ (Zpos (digits2_pos p) - 1)) by lia.
    rewrite Z.pow_succ_r by lia. lia.
  - simpl. lia.
Qed.

Lemma digits2_unique (p : positive) (k : Z) :
  2 ^ (k - 1) <= Zpos p < 2 ^ k → Zpos (digits2_pos p) = k.
Proof.
  intros [Hlo Hhi]. pose proof (digits2_bounds p) as [Hlo' Hhi'].
  assert (0 < k) as Hk.
  { destruct (Z.ltb_spec 0 k); [done|]. 
    assert (2 ^ k <= 1); [|lia].
    destruct (Z.eqb_spec k 0) as [->|]; [simpl; lia|]. rewrite Z.pow_neg_r by lia. lia. }
  destruct (Z.lt_trichotomy (Zpos (digits2_pos p)) k) as [Hlt|[Heq|Hgt]]; [|done|].
  - assert (2 ^ Zpos (digits2_pos p) <= 2 ^ (k - 1)) by (apply Z.pow_le_mono_r; lia). lia.
  - assert (2 ^ k <= 2 ^ (Zpos (digits2_pos p) - 1)) by (apply Z.pow_le_mono_r; lia). lia.
Qed.

Lemma iter_xO (p : positive) (k : positive) : Zpos (Pos.iter xO p k) = Zpos p * 2 ^ Zpos k.
Proof.
  induction k as [|k IH] using Pos.peano_ind.
  - simpl. lia.
  - rewrite Pos.iter_succ, Pos2Z.inj_succ, Z.pow_succ_r by lia.
    rewrite Pos2Z.inj_xO, IH. lia.
Qed.

Lemma iter_pos_nat {A} (f : A -> A) (n : positive) (x : A) :
  SpecFloat.iter_pos f n x = Nat.iter (Pos.to_nat n) f x.
Proof.
  revert x. induction n as [n IH|n IH|]; intros x; cbn [SpecFloat.iter_pos].
  - rewrite !IH, Pos2Nat.inj_xI. 
    replace (S (2 * Pos.to_nat n)) with (Pos.to_nat n + (Pos.to_nat n + 1))%nat by lia.
    rewrite !Nat.iter_add. done.
  - rewrite !IH, Pos2Nat.inj_xO.
    replace (2 * Pos.to_nat n)%nat with (Pos.to_nat n + Pos.to_nat n)%nat by lia.
    by rewrite Nat.iter_add.
  - done.
Qed.

Lemma loc_of_exact r unit : loc_of r unit = loc_Exact ↔ r = 0.
Proof. unfold loc_of. destruct (Z.eqb_spec r 0); split; (done || lia). Qed.

Lemma shr_1_loc (mrs : shr_record) (r D : Z) :
  0 <= shr_m mrs → 0 <= r < D →
  loc_of_shr_record mrs = loc_of r D →
  shr_m (shr_1 mrs) = shr_m mrs / 2 ∧
  loc_of_shr_record (shr_1 mrs) = loc_of ((shr_m mrs mod 2) * D + r) (2 * D).
Proof.
  destruct mrs as [m rr ss]. cbn [shr_m]. intros Hm Hr Hloc.
  assert (rr || ss = negb (r =? 0)) as Hrs.
  { destruct (Z.eqb_spec r 0) as [->|Hne].
    - destruct rr, ss; simpl in *; try done.
    - destruct rr, ss; simpl in *; try done.
      symmetry in Hloc. apply loc_of_exact in Hloc. lia. }
  assert (shr_1 {| shr_m := m; shr_r := rr; shr_s := ss |} =
          {| shr_m := m / 2; shr_r := Z.odd m; shr_s := rr || ss |}) as ->.
  { destruct m as [|[p|p|]|p]; try done; try lia.
    - cbn [shr_1]. f_equal. rewrite Pos2Z.inj_xI. 
      apply (Z.div_unique_pos _ _ _ 1); lia.
    - cbn [shr_1]. f_equal. rewrite Pos2Z.inj_xO. 
      apply (Z.div_unique_pos _ _ _ 0); lia. }
  cbn [shr_m]. split; [done|]. rewrite Hrs.
  rewrite Zmod_odd. unfold loc_of at 1.
  destruct (Z.odd m), (Z.eqb_spec r 0) as [->|Hne]; cbn [negb loc_of_shr_record].
  - unfold loc_of. destruct (Z.eqb_spec (1 * D + 0) 0); [lia|].
    f_equal. symmetry. apply Z.compare_eq_iff. lia.
  - unfold loc_of. destruct (Z.eqb_spec (1 * D + r) 0); [lia|].
    f_equal. symmetry. apply Z.compare_gt_iff. lia.
  - done.
  - unfold loc_of. destruct (Z.eqb_spec (0 * D + r) 0); [lia|].
    f_equal. symmetry. apply Z.compare_lt_iff. lia.
Qed.

(** [k] right shifts of the record for [q] with its remainder [r] in
    the unit [D] give the quotient of [N = q * D + r] by [D * 2^k] and
    the place of the remainder in that unit. *)
Lemma shr_iter_loc (k : nat) (mrs : shr_record) (r D : Z) :
  0 <= shr_m mrs → 0 <= r < D →
  loc_of_shr_record mrs = loc_of r D →
  let N := shr_m mrs * D + r in
  let unit := D * 2 ^ Z.of_nat k in
  shr_m (Nat.iter k shr_1 mrs) = N / unit ∧
  loc_of_shr_record (Nat.iter k shr_1 mrs) = loc_of (N mod unit) unit.
Proof.
  intros Hm Hr Hloc N. induction k as [|k IH]; intros unit.
  - unfold unit. change (Nat.iter 0 shr_1 mrs) with mrs.
    change (2 ^ Z.of_nat 0) with 1. rewrite Z.mul_1_r. unfold N.
    assert ((shr_m mrs * D + r) / D = shr_m mrs) as ->.
    { symmetry. apply (Z.div_unique_pos _ _ _ r); lia. }
    assert ((shr_m mrs * D + r) mod D = r) as ->.
    { symmetry. apply (Z.mod_unique_pos _ _ (shr_m mrs)); lia. }
    done.
  - change (Nat.iter (S k) shr_1 mrs) with (shr_1 (Nat.iter k shr_1 mrs)).
    cbv zeta in IH. destruct IH as [IHm IHl].
    set (u := D * 2 ^ Z.of_nat k) in *.
    assert (0 < u) as Hu by (unfold u; apply Z.mul_pos_pos; [lia|apply Z.pow_pos_nonneg; lia]).
    assert (unit = u * 2) as Hunit.
    { unfold unit, u. rewrite Nat2Z.inj_succ, Z.pow_succ_r by lia. lia. }
    assert (0 <= N) as HN by (unfold N; nia).
    destruct (shr_1_loc (Nat.iter k shr_1 mrs) (N mod u) u) as [Hm' Hl'].
    + rewrite IHm. apply Z.div_pos; lia.
    + apply Z.mod_pos_bound. lia.
    + done.
    + rewrite Hm', Hl', IHm, Hunit. split.
      * rewrite Z.div_div by lia. done.
      * f_equal; [|lia]. rewrite Z.rem_mul_r by lia. lia.
Qed.

Lemma shr_nat (mrs : shr_record) (e n : Z) :
  0 <= n → shr mrs e n = (Nat.iter (Z.to_nat n) shr_1 mrs, e + n).
Proof.
  intros Hn. destruct n as [|p|p]; [|..|lia].
  - simpl. by rewrite Z.add_0_r.
  - unfold shr. rewrite iter_pos_nat. by rewrite Z2Nat.inj_pos.
Qed.

Lemma shr_record_of_loc_m m l : shr_m (shr_record_of_loc m l) = m.
Proof. by destruct l as [|[]]. Qed.

Lemma shr_record_of_loc_loc m l : loc_of_shr_record (shr_record_of_loc m l) = l.
Proof. by destruct l as [|[]]. Qed.

Lemma Zdigits2_unique (m k : Z) : 2 ^ (k - 1) <= m < 2 ^ k → 0 < m → Zdigits2 m = k.
Proof. intros Hm Hpos. destruct m as [|p|p]; try lia. by apply digits2_unique. Qed.

Lemma round_ne_bounds (num den : Z) :
  0 < den → num / den <= round_ne num den <= num / den + 1.
Proof.
  intros Hden. unfold round_ne, round_nearest_even, loc_of.
  destruct (num mod den =? 0); [lia|].
  destruct (2 * (num mod den) ?= den); [destruct (Z.even (num / den))|..]; lia.
Qed.

(** Rounding a non-negative value given by the mantissa [mx] of
    [53 + c] bits at the exponent [ex], with its remainder [r] in the
    unit [D]: the mantissa is rounded to 53 bits, to nearest and at a
    tie to even. *)
Lemma binary_round_aux_spec (mx ex r D : Z) (c : nat) :
  0 <= r < D →
  2 ^ (52 + Z.of_nat c) <= mx < 2 ^ (53 + Z.of_nat c) →
  -1074 <= ex + Z.of_nat c → ex + Z.of_nat c < 971 →
  binary_round_aux 53 1024 false mx ex (loc_of r D) =
  pack (round_ne (mx * D + r) (D * 2 ^ Z.of_nat c)) (ex + Z.of_nat c).
Proof.
  intros Hr Hmx Hlo Hhi.
  assert (0 < 2 ^ (52 + Z.of_nat c)) as Hpow by (apply Z.pow_pos_nonneg; lia).
  assert (0 < mx) as Hpos by lia.
  assert (0 < 2 ^ Z.of_nat c) as Hpc by (apply Z.pow_pos_nonneg; lia).
  set (unit := D * 2 ^ Z.of_nat c).
  set (N := mx * D + r).
  assert (0 < unit) as Hunit by (unfold unit; nia).
  unfold binary_round_aux.
  assert (shr_fexp 53 1024 mx ex (loc_of r D) =
          (Nat.iter c shr_1 (shr_record_of_loc mx (loc_of r D)), ex + Z.of_nat c)) as ->.
  { unfold shr_fexp. rewrite (Zdigits2_unique mx (53 + Z.of_nat c)); [|split; [|lia]|lia].
    - rewrite fexp_normal by lia. rewrite shr_nat by lia.
      replace (53 + Z.of_nat c + ex - 53 - ex) with (Z.of_nat c) by lia.
      by rewrite Nat2Z.id.
    - replace (53 + Z.of_nat c - 1) with (52 + Z.of_nat c) by lia. lia. }
  destruct (shr_iter_loc c (shr_record_of_loc mx (loc_of r D)) r D) as [Hm Hl].
  { rewrite shr_record_of_loc_m. lia. }
  { done. }
  { apply shr_record_of_loc_loc. }
  rewrite shr_record_of_loc_m in Hm, Hl. fold N unit in Hm, Hl.
  rewrite Hm, Hl. fold (round_ne N unit).
  assert (2 ^ 52 <= N / unit < 2 ^ 53) as Hq.
  { assert (2 ^ (52 + Z.of_nat c) = 2 ^ 52 * 2 ^ Z.of_nat c) as E1 by (apply Z.pow_add_r; lia).
    assert (2 ^ (53 + Z.of_nat c) = 2 ^ 53 * 2 ^ Z.of_nat c) as E2 by (apply Z.pow_add_r; lia).
    split.
    - apply Z.div_le_lower_bound; [lia|]. unfold N, unit. nia.
    - apply Z.div_lt_upper_bound; [lia|]. unfold N, unit. nia. }
  pose proof (round_ne_bounds N unit Hunit) as Hrne.
  set (m2 := round_ne N unit) in *.
  unfold pack. destruct (Z.ltb_spec m2 (2 ^ 53)) as [Hlt|Hge].
  - assert (shr_fexp 53 1024 m2 (ex + Z.of_nat c) loc_Exact =
            ({| shr_m := m2; shr_r := false; shr_s := false |}, ex + Z.of_nat c)) as ->.
    { unfold shr_fexp. rewrite (Zdigits2_unique m2 53) by lia.
      rewrite fexp_normal by lia. rewrite shr_nat by lia.
      replace (53 + (ex + Z.of_nat c) - 53 - (ex + Z.of_nat c)) with 0 by lia.
      cbn. f_equal. lia. }
    cbn [shr_m]. destruct m2 as [|p|p]; try lia.
    destruct (Z.leb_spec (ex + Z.of_nat c) (1024 - 53)); [done|lia].
  - assert (m2 = 2 ^ 53) as -> by lia.
    assert (shr_fexp 53 1024 (2 ^ 53) (ex + Z.of_nat c) loc_Exact =
            ({| shr_m := 2 ^ 52; shr_r := false; shr_s := false |}, ex + Z.of_nat c + 1)) as ->.
    { unfold shr_fexp. rewrite (Zdigits2_unique (2 ^ 53) 54) by lia.
      rewrite fexp_normal by lia. rewrite shr_nat by lia.
      replace (54 + (ex + Z.of_nat c) - 53 - (ex + Z.of_nat c)) with 1 by lia.
      reflexivity. }
    cbn [shr_m]. 
    destruct (Z.leb_spec (ex + Z.of_nat c + 1) (1024 - 53)); [done|lia].
Qed.

Lemma round_ne_exact (k unit : Z) : 0 < unit → round_ne (k * unit) unit = k.
Proof.
  intros Hu. unfold round_ne. rewrite Z.div_mul, Z.mod_mul by lia. done.
Qed.

Lemma pow2_split (a b : Z) : 0 <= a → 0 <= b → 2 ^ (a + b) = 2 ^ a * 2 ^ b.
Proof. intros. by apply Z.pow_add_r. Qed.

Lemma pow2_pos (a : Z) : 0 <= a → 0 < 2 ^ a.
Proof. intros. by apply Z.pow_pos_nonneg. Qed.

Lemma shl_align_fst (mx : positive) (ex ez : Z) :
  ez <= ex → Zpos (fst (shl_align mx ex ez)) = Zpos mx * 2 ^ (ex - ez).
Proof.
  intros Hle. unfold shl_align.
  destruct (ez - ex) as [|p|p] eqn:Hd; try lia.
  - replace (ex - ez) with 0 by lia. simpl. lia.
  - cbn [fst]. rewrite iter_xO. f_equal. f_equal. lia.
Qed.

(** A value [v] of [d <= 53] bits, given as [v * 2^k] at the exponent
    [e - k], is represented exactly. *)
Lemma binary_round_exact (v k d e : Z) :
  2 ^ (d - 1) <= v < 2 ^ d → 1 <= d <= 53 → 0 <= k →
  -1000 <= e - k → e + d < 1000 →
  binary_round 53 1024 false (Z.to_pos (v * 2 ^ k)) (e - k) =
  S754_finite false (Z.to_pos (v * 2 ^ (53 - d))) (e + d - 53).
Proof.
  intros Hv Hd Hk Hlo Hhi.
  pose proof (pow2_pos (d - 1) ltac:(lia)) as Hp1.
  pose proof (pow2_pos k Hk) as Hpk.
  pose proof (pow2_pos (53 - d) ltac:(lia)) as Hpd.
  assert (0 < v) as Hvpos by lia.
  assert (0 < v * 2 ^ k) as HM by nia.
  assert (2 ^ (d + k - 1) <= v * 2 ^ k < 2 ^ (d + k)) as Hdig.
  { replace (d + k - 1) with ((d - 1) + k) by lia.
    rewrite !pow2_split by lia. split.
    - apply Z.mul_le_mono_nonneg_r; lia.
    - apply Z.mul_lt_mono_pos_r; lia. }
  assert (2 ^ 52 <= v * 2 ^ (53 - d) < 2 ^ 53) as Hnorm.
  { replace (2 ^ 52) with (2 ^ ((d - 1) + (53 - d))) by (f_equal; lia).
    replace (2 ^ 53) with (2 ^ (d + (53 - d))) by (f_equal; lia).
    rewrite !pow2_split by lia. split.
    - apply Z.mul_le_mono_nonneg_r; lia.
    - apply Z.mul_lt_mono_pos_r; lia. }
  unfold binary_round.
  assert (Zpos (digits2_pos (Z.to_pos (v * 2 ^ k))) = d + k) as ->.
  { apply digits2_unique. by rewrite Z2Pos.id. }
  rewrite fexp_normal by lia.
  change loc_Exact with (loc_of 0 1).
  destruct (Z.le_gt_cases (d + k) 53) as [Hshl|Hshr].
  - (* the mantissa is shifted left to 53 bits *)
    assert (shl_align (Z.to_pos (v * 2 ^ k)) (e - k) (d + k + (e - k) - 53) =
            (Z.to_pos (v * 2 ^ (53 - d)), e + d - 53)) as ->.
    { unfold shl_align.
      destruct (d + k + (e - k) - 53 - (e - k)) as [|p|p] eqn:Hs; try lia.
      - assert (k = 53 - d) as -> by lia. f_equal. lia.
      - f_equal; [|lia]. apply Pos2Z.inj. rewrite iter_xO, !Z2Pos.id by lia.
        replace (53 - d) with (k + Zpos p) by lia. rewrite pow2_split by lia. lia. }
    rewrite Z2Pos.id by lia.
    rewrite (binary_round_aux_spec _ _ 0 1 0%nat) by lia.
    change (Z.of_nat 0) with 0. rewrite Z.add_0_r, Z.mul_1_r, Z.add_0_r.
    change (1 * 2 ^ 0) with 1.
    replace (v * 2 ^ (53 - d)) with ((v * 2 ^ (53 - d)) * 1) at 1 by lia.
    rewrite round_ne_exact by lia. unfold pack.
    destruct (Z.ltb_spec (v * 2 ^ (53 - d)) (2 ^ 53)); [done|lia].
  - (* the mantissa is shifted right, losing no bit *)
    assert (shl_align (Z.to_pos (v * 2 ^ k)) (e - k) (d + k + (e - k) - 53) =
            (Z.to_pos (v * 2 ^ k), e - k)) as ->.
    { unfold shl_align. destruct (d + k + (e - k) - 53 - (e - k)) as [|p|p] eqn:Hs; try lia; done. }
    rewrite Z2Pos.id by lia.
    set (c := Z.to_nat (d + k - 53)).
    assert (Z.of_nat c = d + k - 53) as Hc by (unfold c; lia).
    assert (2 ^ (52 + Z.of_nat c) <= v * 2 ^ k < 2 ^ (53 + Z.of_nat c)) as Hb.
    { rewrite Hc. replace (52 + (d + k - 53)) with (d + k - 1) by lia.
      replace (53 + (d + k - 53)) with (d + k) by lia. done. }
    rewrite (binary_round_aux_spec _ _ 0 1 c) by lia.
    rewrite Z.mul_1_r, Z.add_0_r, Z.mul_1_l, Hc.
    assert (v * 2 ^ k = (v * 2 ^ (53 - d)) * 2 ^ (d + k - 53)) as ->.
    { rewrite <- Z.mul_assoc, <- pow2_split by lia. f_equal. f_equal. lia. }
    rewrite round_ne_exact by (apply pow2_pos; lia). unfold pack.
    destruct (Z.ltb_spec (v * 2 ^ (53 - d)) (2 ^ 53)); [|lia].
    f_equal. lia.
Qed.

(** The double of a positive integer below 2^53. *)
Lemma of_Z_normal (z d : Z) :
  2 ^ (d - 1) <= z < 2 ^ d → 1 <= d <= 53 →
  of_Z z = S754_finite false (Z.to_pos (z * 2 ^ (53 - d))) (d - 53).
Proof.
  intros Hz Hd. pose proof (pow2_pos (d - 1) ltac:(lia)) as Hp.
  unfold of_Z. destruct z as [|p|p]; try lia.
  change (binary_normalize prec emax (Zpos p) 0 false) with (binary_round 53 1024 false p 0).
  pose proof (binary_round_exact (Zpos p) 0 d 0 Hz Hd) as H.
  rewrite Z.mul_1_r in H. change (0 - 0) with 0 in H. rewrite Pos2Z.id in H.
  apply H; lia.
Qed.

Lemma digits_exist (z : Z) :
  0 < z < 2 ^ 53 → ∃ d, 1 <= d <= 53 ∧ 2 ^ (d - 1) <= z < 2 ^ d.
Proof.
  intros Hz. destruct z as [|p|p]; try lia.
  exists (Zpos (digits2_pos p)). pose proof (digits2_bounds p) as Hb.
  split; [|done]. split; [lia|].
  destruct (Z.le_gt_cases (Zpos (digits2_pos p)) 53) as [|Hgt]; [done|].
  assert (2 ^ 53 <= 2 ^ (Zpos (digits2_pos p) - 1)) by (apply Z.pow_le_mono_r; lia). lia.
Qed.

(** Binary64 addition is exact on non-negative integers whose sum is
    below 2^53. *)
Lemma add_exact (a b : Z) :
  0 <= a → 0 <= b → a + b < 2 ^ 53 → add (of_Z a) (of_Z b) = of_Z (a + b).
Proof.
  intros Ha Hb Hsum.
  destruct (Z.eq_dec a 0) as [->|Hane].
  { change (of_Z 0) with (S754_zero false). rewrite Z.add_0_l.
    destruct (Z.eq_dec b 0) as [->|Hbne]; [done|].
    destruct (digits_exist b ltac:(lia)) as (db & Hdb & Hb').
    by rewrite (of_Z_normal b db). }
  destruct (digits_exist a ltac:(lia)) as (da & Hda & Ha').
  destruct (Z.eq_dec b 0) as [->|Hbne].
  { change (of_Z 0) with (S754_zero false). rewrite Z.add_0_r.
    by rewrite (of_Z_normal a da). }
  destruct (digits_exist b ltac:(lia)) as (db & Hdb & Hb').
  destruct (digits_exist (a + b) ltac:(lia)) as (d & Hd & Hab).
  rewrite (of_Z_normal a da), (of_Z_normal b db), (of_Z_normal (a + b) d) by done.
  pose proof (pow2_pos (53 - da) ltac:(lia)) as Hpa.
  pose proof (pow2_pos (53 - db) ltac:(lia)) as Hpb.
  unfold add, SFadd. cbn [cond_Zopp].
  set (ez := Z.min (da - 53) (db - 53)).
  set (k := - ez).
  assert (0 <= k <= 52) as Hk by (unfold k, ez; lia).
  pose proof (pow2_pos k ltac:(lia)) as Hpk.
  rewrite !shl_align_fst by (unfold ez; lia).
  rewrite !Z2Pos.id by nia.
  assert (a * 2 ^ (53 - da) * 2 ^ (da - 53 - ez) = a * 2 ^ k) as ->.
  { rewrite <- Z.mul_assoc, <- pow2_split by (unfold ez; lia). f_equal. f_equal. lia. }
  assert (b * 2 ^ (53 - db) * 2 ^ (db - 53 - ez) = b * 2 ^ k) as ->.
  { rewrite <- Z.mul_assoc, <- pow2_split by (unfold ez; lia). f_equal. f_equal. lia. }
  rewrite <- Z.mul_add_distr_r.
  assert (0 < (a + b) * 2 ^ k) as HM by nia.
  unfold binary_normalize. destruct ((a + b) * 2 ^ k) as [|p|p] eqn:HMp; try lia.
  change prec with 53. change emax with 1024.
  pose proof (binary_round_exact (a + b) k d 0 Hab Hd ltac:(lia) ltac:(lia) ltac:(lia)) as H.
  rewrite HMp, Pos2Z.id in H. replace (0 - k) with ez in H by (unfold k; lia).
  rewrite H. f_equal.
Qed.

Lemma new_location_spec (D r : Z) : 0 < D → 0 <= r < D → new_location D r = loc_of r D.
Proof.
  intros HD Hr. unfold new_location, new_location_even, new_location_odd, loc_of.
  destruct (Z.even D) eqn:Hev; [done|].
  destruct (Z.eqb_spec r 0); [done|]. f_equal.
  assert (Z.odd D = true) as Hodd by (by rewrite <- Z.negb_even, Hev).
  apply Z.odd_spec in Hodd as [h Hh].
  destruct (Z.compare_spec (2 * r + 1) D); symmetry.
  - apply Z.compare_lt_iff. lia.
  - apply Z.compare_lt_iff. lia.
  - apply Z.compare_gt_iff. lia.
Qed.

Lemma loc_of_scale (r unit k : Z) : 0 < k → loc_of (r * k) (unit * k) = loc_of r unit.
Proof.
  intros Hk. unfold loc_of.
  destruct (Z.eqb_spec (r * k) 0), (Z.eqb_spec r 0); try done; try nia.
  f_equal. destruct (Z.compare_spec (2 * r) unit).
  - apply Z.compare_eq_iff. nia.
  - apply Z.compare_lt_iff. nia.
  - apply Z.compare_gt_iff. nia.
Qed.

Lemma round_ne_scale (num den k : Z) :
  0 < den → 0 < k → round_ne (num * k) (den * k) = round_ne num den.
Proof.
  intros Hden Hk. unfold round_ne.
  rewrite Z.div_mul_cancel_r by lia.
  rewrite Z.mul_mod_distr_r by lia. by rewrite loc_of_scale.
Qed.

Lemma div_eucl_div_mod (a b : Z) : Z.div_eucl a b = (a / b, a mod b).
Proof. unfold Z.div, Z.modulo. by destruct (Z.div_eucl a b). Qed.

(** The quotient of two positive integers below 2^53: the mantissa is
    [s * 2^E / n] rounded to nearest, at a tie to even, for the [E]
    that brings the quotient between 2^52 and 2^53. *)
Lemma div_spec (s n : Z) :
  0 < s < 2 ^ 53 → 0 < n < 2 ^ 53 →
  ∃ E, 0 <= E <= 105 ∧ 2 ^ 52 * n <= s * 2 ^ E < 2 ^ 53 * n ∧
       div (of_Z s) (of_Z n) = pack (round_ne (s * 2 ^ E) n) (- E).
Proof.
  intros Hs Hn.
  destruct (digits_exist s Hs) as (ds & Hds & Hs').
  destruct (digits_exist n Hn) as (dn & Hdn & Hn').
  rewrite (of_Z_normal s ds), (of_Z_normal n dn) by done.
  pose proof (pow2_pos (53 - ds) ltac:(lia)) as Hps.
  pose proof (pow2_pos (53 - dn) ltac:(lia)) as Hpn.
  pose proof (pow2_pos (ds - 1) ltac:(lia)) as Hps1.
  pose proof (pow2_pos (dn - 1) ltac:(lia)) as Hpn1.
  set (A := s * 2 ^ (53 - ds)). set (B := n * 2 ^ (53 - dn)).
  assert (2 ^ 52 <= A < 2 ^ 53) as HA.
  { unfold A. replace (2 ^ 52) with (2 ^ ((ds - 1) + (53 - ds))) by (f_equal; lia).
    replace (2 ^ 53) with (2 ^ (ds + (53 - ds))) by (f_equal; lia).
    rewrite !pow2_split by lia. split.
    - apply Z.mul_le_mono_nonneg_r; lia.
    - apply Z.mul_lt_mono_pos_r; lia. }
  assert (2 ^ 52 <= B < 2 ^ 53) as HB.
  { unfold B. replace (2 ^ 52) with (2 ^ ((dn - 1) + (53 - dn))) by (f_equal; lia).
    replace (2 ^ 53) with (2 ^ (dn + (53 - dn))) by (f_equal; lia).
    rewrite !pow2_split by lia. split.
    - apply Z.mul_le_mono_nonneg_r; lia.
    - apply Z.mul_lt_mono_pos_r; lia. }
  unfold div, SFdiv, SFdiv_core_binary. change prec with 53. change emax with 1024.
  rewrite !Z2Pos.id by lia.
  rewrite !(Zdigits2_unique _ 53) by lia.
  rewrite fexp_normal by lia.
  replace (53 + (ds - 53) - (53 + (dn - 53)) - 53) with (ds - dn - 53) by lia.
  replace (Z.min (ds - dn - 53) (ds - 53 - (dn - 53))) with (ds - dn - 53) by lia.
  replace (ds - 53 - (dn - 53) - (ds - dn - 53)) with 53 by lia.
  cbv iota. rewrite Z.shiftl_mul_pow2 by lia.
  rewrite div_eucl_div_mod.
  set (q := A * 2 ^ 53 / B). set (r := (A * 2 ^ 53) mod B).
  assert (A * 2 ^ 53 = q * B + r ∧ 0 <= r < B) as [Hqr Hr].
  { unfold q, r. split; [|apply Z.mod_pos_bound; lia].
    rewrite (Z.div_mod (A * 2 ^ 53) B) at 1 by lia. lia. }
  rewrite new_location_spec by lia. cbn [xorb].
  assert (2 ^ 52 <= q < 2 ^ 54) as Hq by nia.
  set (c := if q <? 2 ^ 53 then 0%nat else 1%nat).
  assert (2 ^ (52 + Z.of_nat c) <= q < 2 ^ (53 + Z.of_nat c)) as Hqc.
  { unfold c. destruct (Z.ltb_spec q (2 ^ 53)); simpl Z.of_nat; simpl Z.add; lia. }
  assert (Z.of_nat c = 0 ∨ Z.of_nat c = 1) as Hc by (unfold c; destruct (q <? 2 ^ 53); lia).
  rewrite (binary_round_aux_spec q _ r B c) by lia.
  rewrite <- Hqr.
  set (E := 53 + dn - ds - Z.of_nat c).
  exists E.
  assert (0 <= E <= 105) as HE by (unfold E; lia).
  pose proof (pow2_pos E ltac:(lia)) as HpE.
  pose proof (pow2_pos (Z.of_nat c) ltac:(lia)) as Hpc.
  set (k := 2 ^ (53 - dn + Z.of_nat c)).
  assert (0 < k) as Hkpos by (unfold k; apply pow2_pos; lia).
  assert (A * 2 ^ 53 = (s * 2 ^ E) * k) as HAk.
  { unfold A, k, E. rewrite <- !Z.mul_assoc, <- !pow2_split by lia. f_equal. f_equal. lia. }
  assert (B * 2 ^ Z.of_nat c = n * k) as HBk.
  { unfold B, k. rewrite <- !Z.mul_assoc, <- !pow2_split by lia. done. }
  split; [done|]. split.
  - assert (2 ^ (52 + Z.of_nat c) * B <= A * 2 ^ 53 < 2 ^ (53 + Z.of_nat c) * B) as Hb.
    { assert (2 ^ (52 + Z.of_nat c) * B <= q * B) by (apply Z.mul_le_mono_nonneg_r; lia).
      assert ((q + 1) * B <= 2 ^ (53 + Z.of_nat c) * B) by (apply Z.mul_le_mono_nonneg_r; lia).
      lia. }
    rewrite !pow2_split in Hb by lia.
    rewrite HAk in Hb.
    replace (2 ^ 52 * 2 ^ Z.of_nat c * B) with (2 ^ 52 * n * k) in Hb
      by (rewrite <- (Z.mul_assoc _ n k), <- HBk; lia).
    replace (2 ^ 53 * 2 ^ Z.of_nat c * B) with (2 ^ 53 * n * k) in Hb
      by (rewrite <- (Z.mul_assoc _ n k), <- HBk; lia).
    split.
    + apply (Z.mul_le_mono_pos_r _ _ k); lia.
    + apply (Z.mul_lt_mono_pos_r k); lia.
  - rewrite HAk, HBk, round_ne_scale by lia. f_equal. unfold E. lia.
Qed.

Lemma round_ne_ratio (a b a' b' : Z) :
  0 < b → 0 < b' → a * b' = a' * b → round_ne a b = round_ne a' b'.
Proof.
  intros Hb Hb' Heq.
  rewrite <- (round_ne_scale a b b'), <- (round_ne_scale a' b' b) by done.
  by rewrite Heq, (Z.mul_comm b b').
Qed.

Lemma round_ne_error (num den : Z) :
  0 < den → - den <= 2 * (round_ne num den * den - num) <= den.
Proof.
  intros Hden. unfold round_ne, round_nearest_even, loc_of.
  pose proof (Z.div_mod num den ltac:(lia)) as Hdm.
  pose proof (Z.mod_pos_bound num den Hden) as Hr.
  destruct (Z.eqb_spec (num mod den) 0) as [H0|Hne]; [lia|].
  destruct (Z.compare_spec (2 * (num mod den)) den);
    [destruct (Z.even (num / den))|..]; lia.
Qed.

(** The quotient depends on the ratio only. *)
Lemma div_ratio (s n s' n' : Z) :
  0 < s < 2 ^ 53 → 0 < n < 2 ^ 53 → 0 < s' < 2 ^ 53 → 0 < n' < 2 ^ 53 →
  s * n' = s' * n →
  div (of_Z s) (of_Z n) = div (of_Z s') (of_Z n').
Proof.
  intros Hs Hn Hs' Hn' Heq.
  destruct (div_spec s n Hs Hn) as (E & HE & Hb & ->).
  destruct (div_spec s' n' Hs' Hn') as (E' & HE' & Hb' & ->).
  pose proof (pow2_pos E ltac:(lia)) as HpE.
  pose proof (pow2_pos E' ltac:(lia)) as HpE'.
  assert (E = E') as <-.
  { destruct (Z.lt_trichotomy E E') as [Hlt|[?|Hgt]]; [exfalso|done|exfalso].
    - assert (2 ^ E' = 2 ^ E * 2 ^ (E' - E)) as HEE.
      { rewrite <- pow2_split by lia. f_equal. lia. }
      assert (2 <= 2 ^ (E' - E)) as H2.
      { change 2 with (2 ^ 1) at 1. apply Z.pow_le_mono_r; lia. }
      assert (s' * 2 ^ E' * n = s * 2 ^ E * n' * 2 ^ (E' - E)) as Hx.
      { rewrite HEE.
        replace (s' * (2 ^ E * 2 ^ (E' - E)) * n) with ((s' * n) * 2 ^ E * 2 ^ (E' - E)) by ring.
        rewrite <- Heq. ring. }
      assert (2 ^ 52 * n * n' <= s * 2 ^ E * n') as H1
        by (apply Z.mul_le_mono_nonneg_r; lia).
      assert (s * 2 ^ E * n' * 2 <= s * 2 ^ E * n' * 2 ^ (E' - E)) as H3
        by (apply Z.mul_le_mono_nonneg_l; nia).
      assert (s' * 2 ^ E' * n < 2 ^ 53 * n' * n) as H4
        by (apply Z.mul_lt_mono_pos_r; lia).
      lia.
    - assert (2 ^ E = 2 ^ E' * 2 ^ (E - E')) as HEE.
      { rewrite <- pow2_split by lia. f_equal. lia. }
      assert (2 <= 2 ^ (E - E')) as H2.
      { change 2 with (2 ^ 1) at 1. apply Z.pow_le_mono_r; lia. }
      assert (s * 2 ^ E * n' = s' * 2 ^ E' * n * 2 ^ (E - E')) as Hx.
      { rewrite HEE.
        replace (s * (2 ^ E' * 2 ^ (E - E')) * n') with ((s * n') * 2 ^ E' * 2 ^ (E - E')) by ring.
        rewrite Heq. ring. }
      assert (2 ^ 52 * n' * n <= s' * 2 ^ E' * n) as H1
        by (apply Z.mul_le_mono_nonneg_r; lia).
      assert (s' * 2 ^ E' * n * 2 <= s' * 2 ^ E' * n * 2 ^ (E - E')) as H3
        by (apply Z.mul_le_mono_nonneg_l; nia).
      assert (s * 2 ^ E * n' < 2 ^ 53 * n * n') as H4
        by (apply Z.mul_lt_mono_pos_r; lia).
      lia. }
  f_equal. apply round_ne_ratio; [lia|lia|].
  replace (s * 2 ^ E * n') with ((s * n') * 2 ^ E) by ring. rewrite Heq. ring.
Qed.

(** Ten times a double with a 53-bit mantissa. *)
Lemma mul10_spec (m e : Z) :
  2 ^ 52 <= m < 2 ^ 53 → -1000 <= e <= 900 →
  ∃ j, (j = 3 ∨ j = 4) ∧ 2 ^ 52 * 2 ^ j <= 10 * m < 2 ^ 53 * 2 ^ j ∧
       mul (S754_finite false (Z.to_pos m) e) (of_Z 10) =
       pack (round_ne (10 * m) (2 ^ j)) (e + j).
Proof.
  intros Hm He.
  change (of_Z 10) with (S754_finite false 5629499534213120 (-49)).
  unfold mul, SFmul. cbn [xorb]. change prec with 53. change emax with 1024.
  rewrite Pos2Z.inj_mul, Z2Pos.id by lia.
  change (Zpos 5629499534213120) with (10 * 2 ^ 49).
  change loc_Exact with (loc_of 0 1).
  set (j := if 10 * m <? 2 ^ 56 then 3 else 4).
  assert ((j = 3 ∧ 10 * m < 2 ^ 56) ∨ (j = 4 ∧ 2 ^ 56 <= 10 * m)) as Hj.
  { unfold j. destruct (Z.ltb_spec (10 * m) (2 ^ 56)); [by left|by right]. }
  exists j. split; [destruct Hj as [[? _]|[? _]]; auto|].
  assert (2 ^ 52 * 2 ^ j <= 10 * m < 2 ^ 53 * 2 ^ j) as Hb.
  { destruct Hj as [[-> ?]|[-> ?]]; lia. }
  split; [done|].
  set (c := Z.to_nat (49 + j)).
  assert (Z.of_nat c = 49 + j) as Hc by (unfold c; destruct Hj as [[-> ?]|[-> ?]]; lia).
  assert (2 ^ (52 + Z.of_nat c) <= m * (10 * 2 ^ 49) < 2 ^ (53 + Z.of_nat c)) as Hmc.
  { rewrite Hc. destruct Hj as [[-> ?]|[-> ?]]; simpl Z.add; lia. }
  rewrite (binary_round_aux_spec _ _ 0 1 c) by (rewrite ?Hc; destruct Hj as [[-> ?]|[-> ?]]; lia).
  rewrite Z.mul_1_r, Z.add_0_r, Z.mul_1_l, Hc.
  assert (2 ^ (49 + j) = 2 ^ j * 2 ^ 49) as -> by (destruct Hj as [[-> ?]|[-> ?]]; lia).
  replace (m * (10 * 2 ^ 49)) with ((10 * m) * 2 ^ 49) by lia.
  rewrite round_ne_scale by (destruct Hj as [[-> ?]|[-> ?]]; lia).
  f_equal. lia.
Qed.

Lemma pack_cases (M e : Z) :
  2 ^ 52 <= M <= 2 ^ 53 →
  ∃ m e', pack M e = S754_finite false (Z.to_pos m) e' ∧ 2 ^ 52 <= m < 2 ^ 53 ∧
          ((e' = e ∧ m = M) ∨ (e' = e + 1 ∧ 2 * m = M)).
Proof.
  intros HM. unfold pack. destruct (Z.ltb_spec M (2 ^ 53)).
  - exists M, e. split; [done|]. split; [lia|]. by left.
  - exists (2 ^ 52), (e + 1). split; [done|]. split; [lia|]. right. split; [done|]. lia.
Qed.

Lemma round_ne_in_binade (num den : Z) :
  0 < den → 2 ^ 52 * den <= num < 2 ^ 53 * den → 2 ^ 52 <= round_ne num den <= 2 ^ 53.
Proof.
  intros Hden Hb. pose proof (round_ne_bounds num den Hden) as Hr.
  assert (2 ^ 52 <= num / den) by (apply Z.div_le_lower_bound; lia).
  assert (num / den < 2 ^ 53) by (apply Z.div_lt_upper_bound; lia).
  lia.
Qed.

(** The arithmetic of the two roundings: a mantissa [mq] within half a
    unit of [s * U / n] and a mantissa [mp] within half a unit of
    [10 * mq / J] round half up to the tenths of [s / n], when the mean
    is no tie and [n] is small against [U]. *)
Lemma two_roundings (s n T mq mp U V J : Z) :
  0 < n → 0 < V → 0 < J <= 32 → U = V * J → (10 + J) * n < U →
  - n <= 2 * (mq * n - s * U) <= n →
  - J <= 2 * (mp * J - 10 * mq) <= J →
  2 * n * T + 1 <= 20 * s + n < 2 * n * T + 2 * n →
  (2 * mp + V) / (2 * V) = T.
Proof.
  intros Hn HV HJ HU Hbig Hq Hp HT.
  assert (0 < J * n) as HJn by nia.
  assert (0 < U) as HUpos by nia.
  symmetry. apply (Z.div_unique_pos _ _ _ (2 * mp + V - 2 * V * T)); [|lia].
  assert (20 * s * U >= (2 * n * T - n + 1) * U) as H1 by nia.
  assert (20 * s * U <= (2 * n * T + n - 1) * U) as H2 by nia.
  assert (20 * (mq * n) >= 20 * (s * U) - 10 * n) as H3 by lia.
  assert (20 * (mq * n) <= 20 * (s * U) + 10 * n) as H4 by lia.
  assert (2 * (mp * J) * n >= (20 * mq - J) * n) as H5 by nia.
  assert (2 * (mp * J) * n <= (20 * mq + J) * n) as H6 by nia.
  assert (2 * V * T * (J * n) <= (2 * mp + V) * (J * n)) as Hlo.
  { replace (2 * V * T * (J * n)) with (2 * n * T * U) by (rewrite HU; ring).
    replace ((2 * mp + V) * (J * n)) with (2 * (mp * J) * n + U * n) by (rewrite HU; ring).
    nia. }
  assert ((2 * mp + V) * (J * n) < (2 * V * T + 2 * V) * (J * n)) as Hhi.
  { replace ((2 * V * T + 2 * V) * (J * n)) with (2 * n * T * U + 2 * (U * n)) by (rewrite HU; ring).
    replace ((2 * mp + V) * (J * n)) with (2 * (mp * J) * n + U * n) by (rewrite HU; ring).
    nia. }
  apply Z.mul_le_mono_pos_r in Hlo; [|done].
  apply Z.mul_lt_mono_pos_r in Hhi; [|done].
  lia.
Qed.

Lemma Math_round_finite (m : positive) (e : Z) :
  e < 0 →
  Math_round (S754_finite false m e) = of_Z ((2 * Zpos m + 2 ^ (- e)) / 2 ^ (1 - e)).
Proof.
  intros He. unfold Math_round, of_Z, round_half_up. cbn [cond_Zopp].
  destruct (Z.leb_spec 0 e); [lia|done].
Qed.

(** [Math.round(s / n * 10)] is the mean in tenths rounded half up, for
    every mean of fewer than 2^32 values between 0 and 5. *)
Lemma round_exact_all (s n : Z) :
  0 < n < 2 ^ 32 → 0 <= s <= 5 * n →
  Math_round (mul (div (of_Z s) (of_Z n)) (of_Z 10)) = of_Z (tenths s n).
Proof.
  intros Hn Hs.
  destruct (Z.eq_dec s 0) as [->|Hs0].
  { destruct (digits_exist n ltac:(lia)) as (dn & Hdn & Hn').
    rewrite (of_Z_normal n dn) by done.
    assert (tenths 0 n = 0) as ->.
    { unfold tenths. apply Z.div_small. lia. }
    reflexivity. }
  set (T := tenths s n).
  assert (2 * n * T <= 20 * s + n < 2 * n * T + 2 * n) as HT.
  { unfold T, tenths.
    pose proof (Z.div_mod (20 * s + n) (2 * n) ltac:(lia)) as Hdm.
    pose proof (Z.mod_pos_bound (20 * s + n) (2 * n) ltac:(lia)) as Hr. lia. }
  destruct (Z.eq_dec (20 * s + n) (2 * n * T)) as [Htie|Hno].
  - (* the mean lies halfway between two tenths: it is t / 20 *)
    set (t := 2 * T - 1).
    assert (20 * s = t * n) as Hst by (unfold t; lia).
    assert (0 < t <= 100) as Ht by nia.
    rewrite (div_ratio s n t 20) by lia.
    rewrite round_exact_at by lia.
    f_equal. unfold tenths, t.
    replace (20 * (2 * T - 1) + 20) with (T * (2 * 20)) by lia.
    by rewrite Z.div_mul.
  - destruct (div_spec s n ltac:(lia) ltac:(lia)) as (E & HE & Hb & ->).
    pose proof (pow2_pos E ltac:(lia)) as HpE.
    assert (50 <= E) as HE50.
    { destruct (Z.le_gt_cases 50 E); [done|exfalso].
      assert (2 ^ E <= 2 ^ 49) by (apply Z.pow_le_mono_r; lia). nia. }
    pose proof (round_ne_in_binade (s * 2 ^ E) n ltac:(lia) Hb) as HMq.
    pose proof (round_ne_error (s * 2 ^ E) n ltac:(lia)) as Hqerr.
    set (Mq := round_ne (s * 2 ^ E) n) in *.
    destruct (pack_cases Mq (- E) HMq) as (mq & eq & -> & Hmq & Heq).
    destruct (mul10_spec mq eq Hmq ltac:(lia)) as (j & Hj & Hbj & ->).
    assert (0 < 2 ^ j <= 16) as Hpj by (destruct Hj as [-> | ->]; lia).
    pose proof (round_ne_in_binade (10 * mq) (2 ^ j) ltac:(lia) ltac:(lia)) as HMp.
    pose proof (round_ne_error (10 * mq) (2 ^ j) ltac:(lia)) as Hperr.
    set (Mp := round_ne (10 * mq) (2 ^ j)) in *.
    destruct (pack_cases Mp (eq + j) HMp) as (mp & ep & -> & Hmp & Hep).
    assert (ep < 0) as Hneg by (destruct Heq as [[-> _]|[-> _]], Hep as [[-> _]|[-> _]], Hj as [-> | ->]; lia).
    rewrite Math_round_finite by done. rewrite Z2Pos.id by lia. f_equal.
    set (V := 2 ^ (- ep)). set (J := 2 ^ (ep - eq)). set (U := 2 ^ (- eq)).
    assert (0 < V) as HV by (unfold V; apply pow2_pos; lia).
    assert (2 ^ (1 - ep) = 2 * V) as ->.
    { unfold V. replace (1 - ep) with (1 + - ep) by lia. rewrite pow2_split by lia. done. }
    assert (U = V * J) as HU.
    { unfold U, V, J. rewrite <- pow2_split by lia. f_equal. lia. }
    assert (2 ^ 49 <= U) as HU49.
    { unfold U. apply Z.pow_le_mono_r; lia. }
    assert (J = 2 ^ j ∧ mp = Mp ∨ J = 2 * 2 ^ j ∧ 2 * mp = Mp) as HJ.
    { unfold J. destruct Hep as [[-> ->]|[-> <-]]; [left|right]; split; try done.
      - f_equal; lia.
      - replace (eq + j + 1 - eq) with (1 + j) by lia. rewrite pow2_split by lia. done. }
    assert (U = 2 ^ E ∧ mq = Mq ∨ 2 * U = 2 ^ E ∧ 2 * mq = Mq) as HUE.
    { unfold U. destruct Heq as [[-> ->]|[-> <-]]; [left|right]; split; try done.
      - f_equal; lia.
      - replace E with (1 + - (- E + 1)) at 2 by lia. rewrite pow2_split by lia. done. }
    assert (0 < J <= 32) as HJ32 by (destruct HJ as [[-> _]|[-> _]]; lia).
    assert ((10 + J) * n < U) as Hbig.
    { assert ((10 + J) * n <= 42 * n) by (apply Z.mul_le_mono_nonneg_r; lia). lia. }
    assert (- n <= 2 * (mq * n - s * U) <= n) as Hq.
    { destruct HUE as [[-> ->]|[HU2 HM2]]; [lia|].
      rewrite <- HU2, <- HM2 in Hqerr. lia. }
    assert (- J <= 2 * (mp * J - 10 * mq) <= J) as Hp.
    { destruct HJ as [[-> ->]|[-> HM2]]; [lia|].
      rewrite <- HM2 in Hperr. lia. }
    apply (two_roundings s n T mq mp U V J); lia.
Qed.

(** ** The averages *)

Lemma sum_present_cons (f : entry -> option Z) (item : entry) (items : list entry) :
  sum_present f (item :: items) = or_zero (f item) + sum_present f items.
Proof. unfold sum_present. cbn. by destruct (f item). Qed.

Lemma sum_present_fmap (f : entry -> option Z) (items : list entry) :
  sum_present f items = foldr (fun v acc => or_zero v + acc) 0 (f <$> items).
Proof.
  induction items as [|item items IH]; [done|].
  rewrite sum_present_cons, IH. done.
Qed.

Lemma length_present_absent (f : entry -> option Z) (items : list entry) :
  length items = (length (omap f items) + length (List.filter (absent f) items))%nat.
Proof.
  induction items as [|item items IH]; [done|].
  cbn. unfold absent at 1. destruct (f item); cbn; lia.
Qed.

Lemma sum_present_bounds (f : entry -> option Z) (items : list entry) :
  (∀ e, e ∈ items → in_scale (f e) = true) →
  0 <= sum_present f items <= 5 * Z.of_nat (length items).
Proof.
  induction items as [|item items IH]; intros Hscale.
  - unfold sum_present. simpl. lia.
  - assert (0 <= sum_present f items <= 5 * Z.of_nat (length items)) as Hrest.
    { apply IH. intros e He. apply Hscale. by right. }
    assert (in_scale (f item) = true) as Hitem by (apply Hscale; left).
    rewrite sum_present_cons. unfold in_scale in Hitem. simpl length.
    destruct (f item) as [n|]; simpl or_zero; lia.
Qed.

(** Sums of non-negative terms keep the sign bit clear, so that adding
    the number 0 for an absent value changes nothing. *)
Lemma binary_round_aux_not_negative (m e : Z) (l : location) :
  not_negative (binary_round_aux 53 1024 false m e l) = true.
Proof.
  unfold binary_round_aux.
  destruct (shr_fexp 53 1024 m e l) as [mrs e'].
  destruct (shr_fexp 53 1024 (round_nearest_even (shr_m mrs) (loc_of_shr_record mrs)) e' loc_Exact)
    as [mrs' e''].
  destruct (shr_m mrs'); [done| |done].
  by destruct (Z.leb _ _).
Qed.

Lemma binary_round_not_negative (m : positive) (e : Z) :
  not_negative (binary_round 53 1024 false m e) = true.
Proof.
  unfold binary_round. destruct (shl_align _ _ _). apply binary_round_aux_not_negative.
Qed.

Lemma of_Z_not_negative (z : Z) : 0 <= z → not_negative (of_Z z) = true.
Proof.
  intros Hz. destruct z as [|p|p]; [done| |lia]. apply binary_round_not_negative.
Qed.

Lemma add_not_negative (x y : number) :
  not_negative x = true → not_negative y = true → not_negative (add x y) = true.
Proof.
  destruct x as [[|]|[|]| |[|] mx ex], y as [[|]|[|]| |[|] my ey]; try done.
  intros _ _. unfold add, SFadd. cbn [cond_Zopp Z.add].
  destruct (shl_align mx ex (Z.min ex ey)) as [mx' ex'].
  destruct (shl_align my ey (Z.min ex ey)) as [my' ey'].
  cbn [fst]. apply binary_round_not_negative.
Qed.

Lemma add_zero_r (x : number) : not_negative x = true → add x (of_Z 0) = x.
Proof. by destruct x as [[|]|[|]| |[|] mx ex]. Qed.

Lemma sum_present_nonneg (f : entry -> option Z) (items : list entry) :
  (∀ e, e ∈ items → 0 <= or_zero (f e)) → 0 <= sum_present f items.
Proof.
  induction items as [|item items IH]; intros Hpos.
  - unfold sum_present. simpl. lia.
  - rewrite sum_present_cons.
    assert (0 <= or_zero (f item)) by (apply Hpos; left).
    assert (0 <= sum_present f items) by (apply IH; intros e He; apply Hpos; by right).
    lia.
Qed.

(** The reducer's binary64 sum is the exact sum as long as that stays
    below 2^53. *)
Lemma fold_add_exact (f : entry -> option Z) (items : list entry) (acc : Z) :
  (∀ e, e ∈ items → 0 <= or_zero (f e)) →
  0 <= acc → acc + sum_present f items < 2 ^ 53 →
  fold_left (fun sum item => add sum (of_Z (or_zero (f item)))) items (of_Z acc) =
  of_Z (acc + sum_present f items).
Proof.
  revert acc. induction items as [|item items IH]; intros acc Hpos Hacc Hsum.
  - unfold sum_present. simpl. f_equal. lia.
  - rewrite sum_present_cons in Hsum |- *.
    assert (0 <= or_zero (f item)) as Hitem by (apply Hpos; left).
    assert (∀ e, e ∈ items → 0 <= or_zero (f e)) as Hrest by (intros e He; apply Hpos; by right).
    pose proof (sum_present_nonneg f items Hrest) as Hnonneg.
    simpl fold_left. rewrite add_exact by lia.
    rewrite IH by (done || lia). f_equal. lia.
Qed.

Lemma in_scale_nonneg (v : option Z) : in_scale v = true → 0 <= or_zero v.
Proof. destruct v as [n|]; simpl; lia. Qed.

(** On the 1-to-5 scale the average is the quotient of the exact sum
    and the count; an array has fewer than 2^32 elements. *)
Lemma average_spec (f : entry -> option Z) (items : list entry) :
  (∀ e, e ∈ items → in_scale (f e) = true) →
  Z.of_nat (length items) < 2 ^ 32 →
  average f items = div (of_Z (sum_present f items)) (of_Z (Z.of_nat (length items))).
Proof.
  intros Hscale Hlen. pose proof (sum_present_bounds f items Hscale) as Hsum.
  unfold average. rewrite (fold_add_exact f items 0); [done| |lia|lia].
  intros e He. apply in_scale_nonneg. by apply Hscale.
Qed.

Lemma average_fmap (f : entry -> option Z) (items : list entry) :
  average f items =
  div (fold_left (fun sum v => add sum (of_Z (or_zero v))) (f <$> items) (of_Z 0))
      (of_Z (Z.of_nat (length (f <$> items)))).
Proof.
  unfold average. rewrite length_fmap. f_equal.
  generalize (of_Z 0) as sum. induction items as [|item items IH]; intros sum; [done|].
  cbn. apply IH.
Qed.

(** The absent values add the number 0, which leaves the sum as it is. *)
Lemma fold_add_present (f : entry -> option Z) (items : list entry) (x : number) :
  (∀ e, e ∈ items → 0 <= or_zero (f e)) → not_negative x = true →
  fold_left (fun sum item => add sum (of_Z (or_zero (f item)))) items x =
  fold_left (fun sum v => add sum (of_Z v)) (omap f items) x.
Proof.
  revert x. induction items as [|item items IH]; intros x Hpos Hx; [done|].
  assert (0 <= or_zero (f item)) as Hitem by (apply Hpos; left).
  assert (∀ e, e ∈ items → 0 <= or_zero (f e)) as Hrest by (intros e He; apply Hpos; by right).
  cbn. destruct (f item) as [v|]; cbn.
  - apply IH; [done|]. apply add_not_negative; [done|]. by apply of_Z_not_negative.
  - rewrite add_zero_r by done. by apply IH.
Qed.

Lemma average_present (f : entry -> option Z) (items : list entry) :
  (∀ e, e ∈ items → 0 <= or_zero (f e)) →
  average f items =
  div (number_sum (omap f items))
      (of_Z (Z.of_nat (length (omap f items) + length (List.filter (absent f) items)))).
Proof.
  intros Hpos. unfold average, number_sum.
  rewrite <- length_present_absent. by rewrite fold_add_present.
Qed.

(** The statistics of a store without read entries. *)
Lemma no_read_entries_NaN (data : list entry) :
  List.filter (has_status "read") data = [] →
  averageRating (getReadingStats data) = NaN ∧
  averageImpact (getReadingStats data) = NaN.
Proof. unfold getReadingStats. intros ->. by vm_compute. Qed.

(** C2.  On the empty store [getReadingStats] reports zero items, and
    its [averageRating] is NaN, not 0: the division by the zero count
    goes through unguarded. *)
Theorem empty_store_average_is_NaN :
  totalItems (getReadingStats []) = 0%nat ∧
  averageRating (getReadingStats []) = NaN ∧
  isNaN (averageRating (getReadingStats [])) = true.
Proof. by vm_compute. Qed.

(** It is the double nearest to 47/10: the error is below half a unit
    in the last place, [2^-51]. *)
Lemma four_point_seven_nearest :
  four_point_seven = div (of_Z 47) (of_Z 10) ∧
  Z.abs (10 * 5291729562160333 - 47 * 2 ^ 50) * 2 < 10.
Proof. by vm_compute. Qed.

(** C4.  A store of 10 entries of which 6 are read, with ratings 4, 5,
    4, 5, 5, 5: [getReadingStats] counts 6 read entries and gives the
    average rating 4.7. *)
Theorem stats_of_six_ratings (data : list entry) :
  length data = 10%nat →
  rating <$> List.filter (has_status "read") data =
    [Some 4; Some 5; Some 4; Some 5; Some 5; Some 5] →
  totalItems (getReadingStats data) = 10%nat ∧
  readItems (getReadingStats data) = 6%nat ∧
  averageRating (getReadingStats data) = four_point_seven.
Proof.
  intros Hlen Hread. unfold getReadingStats. cbn [totalItems readItems averageRating].
  split_and!; [done| |].
  - by rewrite <- (length_fmap rating), Hread.
  - rewrite average_fmap, Hread. by vm_compute.
Qed.

(** C9.  The averages run over all read entries: the numerator is the
    sum of the ratings that are present, added in binary64 from the
    left as [reduce] does, the denominator counts the rated and the
    unrated read entries alike, and the quotient is rounded to one
    decimal by [Math.round(x * 10) / 10]; the same for impact.  For
    every store with at least one read entry and values on the 1-to-5
    scale the result is the double nearest to the mean rounded half up
    to a tenth (an array has fewer than 2^32 elements).  A read entry
    without a rating therefore lowers the average: one entry rated 4
    averages 4, and together with an unrated one it averages 2. *)
Theorem unrated_read_entries_count_as_zero :
  (∀ data,
     let read := List.filter (has_status "read") data in
     (∀ e, e ∈ read → 0 <= or_zero (rating e) ∧ 0 <= or_zero (impact e)) →
     averageRating (getReadingStats data) =
       round_tenth (div (number_sum (omap rating read))
                        (of_Z (Z.of_nat (length (omap rating read) +
                                         length (List.filter (absent rating) read))))) ∧
     averageImpact (getReadingStats data) =
       round_tenth (div (number_sum (omap impact read))
                        (of_Z (Z.of_nat (length (omap impact read) +
                                         length (List.filter (absent impact) read)))))) ∧
  (∀ data,
     let read := List.filter (has_status "read") data in
     (0 < length read)%nat → Z.of_nat (length read) < 2 ^ 32 →
     (∀ e, e ∈ read → in_scale (rating e) = true ∧ in_scale (impact e) = true) →
     length read = (length (omap rating read) + length (List.filter (absent rating) read))%nat ∧
     length read = (length (omap impact read) + length (List.filter (absent impact) read))%nat ∧
     averageRating (getReadingStats data) =
       div (of_Z (tenths (sum_present rating read) (Z.of_nat (length read)))) (of_Z 10) ∧
     averageImpact (getReadingStats data) =
       div (of_Z (tenths (sum_present impact read) (Z.of_nat (length read)))) (of_Z 10)) ∧
  (averageRating (getReadingStats [rated_entry "read" (Some 4) (Some 4)]) = of_Z 4 ∧
   averageRating (getReadingStats [rated_entry "read" (Some 4) (Some 4);
                                   rated_entry "read" None None]) = of_Z 2).
Proof.
  split_and!.
  - intros data read Hpos. unfold getReadingStats. cbn [averageRating averageImpact].
    fold read. rewrite !average_present; [done| |].
    + intros e He. by apply Hpos.
    + intros e He. by apply Hpos.
  - intros data read Hpos Hlen Hscale.
    assert (∀ e, e ∈ read → in_scale (rating e) = true) as Hrating
      by (intros e He; by apply Hscale).
    assert (∀ e, e ∈ read → in_scale (impact e) = true) as Himpact
      by (intros e He; by apply Hscale).
    pose proof (sum_present_bounds rating read Hrating) as Hsum.
    pose proof (sum_present_bounds impact read Himpact) as Hsum'.
    split; [apply length_present_absent|]. split; [apply length_present_absent|].
    unfold getReadingStats. cbn [averageRating averageImpact].
    fold read. rewrite !average_spec by done. unfold round_tenth.
    rewrite !round_exact_all by lia. done.
  - by vm_compute.
  - by vm_compute.
Qed.

(** ** Tag frequency *)

Lemma getTagFrequency_flat (data : list entry) :
  getTagFrequency data = fold_left count_tag (all_tags data) ∅.
Proof.
  unfold getTagFrequency, all_tags. generalize (∅ : gmap string jsvalue) as tagCount.
  induction data as [|item data IH]; intros tagCount; [done|].
  cbn. rewrite fold_left_app. apply IH.
Qed.

Lemma inherited_proto : inherited "__proto__" = Some "[object Object]".
Proof. reflexivity. Qed.

Lemma count_tag_other tagCount tag key :
  key ≠ tag → count_tag tagCount tag !! key = tagCount !! key.
Proof.
  intros Hne. unfold count_tag, set.
  destruct (tag =? "__proto__")%string; [done|]. by rewrite lookup_insert_ne.
Qed.

Lemma count_tag_same tagCount tag c :
  inherited tag = None → counts tagCount tag c → counts (count_tag tagCount tag) tag (c + 1).
Proof.
  intros Hsafe Hc. right. split; [destruct Hc as [[-> _]|[? _]]; lia|].
  unfold count_tag, set.
  destruct (String.eqb_spec tag "__proto__") as [->|_]; [by rewrite inherited_proto in Hsafe|].
  rewrite lookup_insert_eq. unfold get.
  destruct Hc as [[-> ->]|[_ ->]]; [by rewrite Hsafe|done].
Qed.

Lemma fold_count_tag tag (l : list string) tagCount c :
  inherited tag = None → counts tagCount tag c →
  counts (fold_left count_tag l tagCount) tag
         (c + Z.of_nat (length (List.filter (String.eqb tag) l))).
Proof.
  intros Hsafe. revert tagCount c.
  induction l as [|key l IH]; intros tagCount c Hc.
  - simpl. by rewrite Z.add_0_r.
  - simpl. destruct (String.eqb_spec tag key) as [<-|Hne].
    + simpl length. rewrite Nat2Z.inj_succ, <- Z.add_succ_comm.
      apply IH. by apply count_tag_same.
    + apply IH. unfold counts in *. by rewrite count_tag_other.
Qed.

(** X18.  A tag that names no member of [Object.prototype] is counted
    once for each of its occurrences, over all entries. *)
Lemma tag_frequency_counts (data : list entry) (tag : string) :
  inherited tag = None →
  counts (getTagFrequency data) tag (Z.of_nat (occurrences tag data)).
Proof.
  intros Hsafe. rewrite getTagFrequency_flat.
  apply (fold_count_tag tag (all_tags data) ∅ 0 Hsafe). by left.
Qed.

(** Entries tagged A, B and A give A twice and B once. *)
Lemma tag_frequency_example :
  getTagFrequency [tagged_entry ["A"; "B"]; tagged_entry ["A"]] =
  <["B" := VNumber 1]> (<["A" := VNumber 2]> ∅).
Proof. by vm_compute. Qed.

(** C5.  A tag that names a member of [Object.prototype] is not
    counted: for the single tag "constructor" the property read by
    [tagCount[tag]] is the inherited function, and the stored value is
    its text followed by "1", not the number 1. *)
Theorem tag_named_constructor_is_not_counted :
  occurrences "constructor" [tagged_entry ["constructor"]] = 1%nat ∧
  getTagFrequency [tagged_entry ["constructor"]] !! "constructor" =
    Some (VString "function Object() { [native code] }1") ∧
  getTagFrequency [tagged_entry ["constructor"]] !! "constructor" ≠ Some (VNumber 1).
Proof. split_and!; [done|by vm_compute|by vm_compute]. Qed.

(** ** Sets *)

Lemma Set_add_spec {A} `{EqDecision A} (s : list A) (x : A) :
  NoDup s → NoDup (Set_add s x) ∧ ∀ y, y ∈ Set_add s x ↔ y ∈ s ∨ y = x.
Proof.
  intros Hs. unfold Set_add. case_bool_decide as Hx.
  - split; [done|]. intros y. split; [by left|]. by intros [?| ->].
  - split.
    + apply NoDup_app. split_and!; [done| |apply NoDup_singleton].
      intros y Hy ->%list_elem_of_singleton. done.
    + intros y. by rewrite elem_of_app, list_elem_of_singleton.
Qed.

Lemma fold_Set_add_spec {A} `{EqDecision A} (l s : list A) :
  NoDup s →
  NoDup (fold_left Set_add l s) ∧ ∀ y, y ∈ fold_left Set_add l s ↔ y ∈ s ∨ y ∈ l.
Proof.
  revert s. induction l as [|x l IH]; intros s Hs; simpl.
  - split; [done|]. intros y. rewrite elem_of_nil. tauto.
  - destruct (Set_add_spec s x Hs) as [Hnd Hin].
    destruct (IH _ Hnd) as [Hnd' Hin']. split; [done|].
    intros y. rewrite Hin', Hin, elem_of_cons. tauto.
Qed.

Lemma fold_Set_add_prefix {A} `{EqDecision A} (l s : list A) :
  s `prefix_of` fold_left Set_add l s.
Proof.
  revert s. induction l as [|x l IH]; intros s; simpl; [done|].
  trans (Set_add s x); [|apply IH].
  unfold Set_add. case_bool_decide; [done|]. by apply prefix_app_r.
Qed.

Lemma Set_from_NoDup {A} `{EqDecision A} (l : list A) : NoDup (Set_from l).
Proof. apply fold_Set_add_spec, NoDup_nil_2. Qed.

Lemma elem_of_Set_from {A} `{EqDecision A} (l : list A) (x : A) : x ∈ Set_from l ↔ x ∈ l.
Proof.
  unfold Set_from. destruct (fold_Set_add_spec l [] (NoDup_nil_2)) as [_ ->].
  rewrite elem_of_nil. tauto.
Qed.

Lemma Set_from_app {A} `{EqDecision A} (l more : list A) :
  Set_from l `prefix_of` Set_from (l ++ more).
Proof. unfold Set_from. rewrite fold_left_app. apply fold_Set_add_prefix. Qed.

(** ** getUniqueValues *)

(** X1.  [getUniqueValues] lists every truthy value that the field
    takes in some entry, each once: [null], the empty string and 0 are
    left out, and no value is listed twice. *)
Theorem getUniqueValues_spec (data : list entry) (field : fieldName) :
  NoDup (getUniqueValues data field) ∧
  ∀ v, v ∈ getUniqueValues data field ↔
       Boolean v = true ∧ ∃ item, item ∈ data ∧ get_field field item = v.
Proof.
  split; [apply Set_from_NoDup|]. intros v. unfold getUniqueValues.
  rewrite elem_of_Set_from, elem_of_List_filter, list_elem_of_In, in_map_iff.
  setoid_rewrite list_elem_of_In. split.
  - intros [(item & <- & Hin) Hb]. eauto.
  - intros [Hb (item & Hin & <-)]. eauto.
Qed.

(** X2.  The values come in the order of their first occurrence:
    entries appended to the data leave the values found so far in
    place and only add new ones behind them. *)
Theorem getUniqueValues_grows (data more : list entry) (field : fieldName) :
  getUniqueValues data field `prefix_of` getUniqueValues (data ++ more) field.
Proof.
  unfold getUniqueValues. rewrite map_app, List.filter_app. apply Set_from_app.
Qed.

(** ** Plain objects *)

Lemma own_lookup (o : object) (key : string) :
  own o key = (list_to_map o : gmap string jsvalue) !! key.
Proof.
  induction o as [|[k v] o IH]; simpl; [done|].
  destruct (String.eqb_spec k key) as [->|Hne].
  - by rewrite lookup_insert_eq.
  - by rewrite lookup_insert_ne.
Qed.

Lemma own_None (o : object) (key : string) : own o key = None ↔ key ∉ o.*1.
Proof. rewrite own_lookup. symmetry. apply not_elem_of_list_to_map. Qed.

Lemma obj_get_get (o : object) (key : string) : obj_get o key = get (list_to_map o) key.
Proof. unfold obj_get, get. by rewrite own_lookup. Qed.

Lemma obj_update_keys (o : object) key v : (obj_update o key v).*1 = o.*1.
Proof.
  induction o as [|[k w] o IH]; simpl; [done|].
  destruct (k =? key)%string; csimpl; [done|]. by rewrite IH.
Qed.

Lemma obj_update_map (o : object) key v :
  key ∈ o.*1 →
  (list_to_map (obj_update o key v) : gmap string jsvalue) = <[key := v]> (list_to_map o).
Proof.
  induction o as [|[k w] o IH]; csimpl; [by intros ?%elem_of_nil|].
  intros Hin. destruct (String.eqb_spec k key) as [->|Hne]; csimpl.
  - by rewrite insert_insert_eq.
  - rewrite insert_insert_ne by done. f_equal. apply IH.
    apply elem_of_cons in Hin as [?|?]; [congruence|done].
Qed.

Lemma obj_set_map (o : object) key v :
  (list_to_map (obj_set o key v) : gmap string jsvalue) = set (list_to_map o) key v.
Proof.
  unfold obj_set, set. destruct (key =? "__proto__")%string; [done|].
  destruct (own o key) eqn:Hown.
  - apply obj_update_map. apply dec_stable. rewrite <- own_None. congruence.
  - apply list_to_map_snoc. by apply own_None.
Qed.

Lemma obj_set_keys (o : object) key v :
  NoDup o.*1 →
  NoDup (obj_set o key v).*1 ∧
  ∀ k, k ∈ (obj_set o key v).*1 ↔ k ∈ o.*1 ∨ (k = key ∧ key ≠ "__proto__").
Proof.
  intros Hnd. unfold obj_set.
  destruct (String.eqb_spec key "__proto__") as [->|Hne].
  - split; [done|]. intros k. split; [by left|]. by intros [?|[_ ?]].
  - destruct (own o key) eqn:Hown.
    + rewrite obj_update_keys. split; [done|]. intros k. split; [by left|].
      intros [?|[-> _]]; [done|]. apply dec_stable. rewrite <- own_None. congruence.
    + apply own_None in Hown. rewrite fmap_app. csimpl. split.
      * apply NoDup_app. split_and!; [done| |apply NoDup_singleton].
        by intros k Hk ->%list_elem_of_singleton.
      * intros k. rewrite elem_of_app, list_elem_of_singleton.
        split; [intros [?| ->]; auto|intros [?|[-> _]]; auto].
Qed.

Lemma count_key_map (o : object) key :
  (list_to_map (count_key o key) : gmap string jsvalue) = count_tag (list_to_map o) key.
Proof. unfold count_key, count_tag. by rewrite obj_set_map, obj_get_get. Qed.

Lemma fold_count_key_map (l : list string) (o : object) :
  (list_to_map (fold_left count_key l o) : gmap string jsvalue) =
  fold_left count_tag l (list_to_map o).
Proof.
  revert o. induction l as [|key l IH]; intros o; simpl; [done|].
  by rewrite IH, count_key_map.
Qed.

Lemma fold_count_key_keys (l : list string) (o : object) :
  NoDup o.*1 →
  NoDup (fold_left count_key l o).*1 ∧
  ∀ k, k ∈ (fold_left count_key l o).*1 ↔ k ∈ o.*1 ∨ (k ∈ l ∧ k ≠ "__proto__").
Proof.
  revert o. induction l as [|key l IH]; intros o Hnd; simpl.
  - split; [done|]. intros k. rewrite elem_of_nil. tauto.
  - destruct (obj_set_keys o key (or_zero_plus_one (obj_get o key)) Hnd) as [Hnd' Hin].
    destruct (IH _ Hnd') as [Hnd'' Hin'']. split; [done|].
    intros k. unfold count_key at 2. rewrite Hin'', Hin, elem_of_cons.
    split; [intros [[?|[-> ?]]|[? ?]]; auto|intros [?|[[->|?] ?]]; auto].
Qed.

Lemma tagFrequency_object_flat (data : list entry) :
  tagFrequency_object data = fold_left count_key (all_tags data) [].
Proof.
  unfold tagFrequency_object, all_tags. generalize ([] : object) as o.
  induction data as [|item data IH]; intros o; [done|].
  cbn. rewrite fold_left_app. apply IH.
Qed.

(** The object and the map of [getTagFrequency] hold the same
    properties. *)
Lemma tagFrequency_object_map (data : list entry) :
  list_to_map (tagFrequency_object data) = getTagFrequency data.
Proof.
  by rewrite tagFrequency_object_flat, getTagFrequency_flat, fold_count_key_map.
Qed.

Lemma insert_index_perm i p l : insert_index i p l ≡ₚ (i, p) :: l.
Proof.
  induction l as [|[j q] l IH]; simpl; [done|].
  destruct (i <? j)%N; [done|]. rewrite IH. apply Permutation_swap.
Qed.

Lemma Object_entries_perm (o : object) : Object_entries o ≡ₚ o.
Proof.
  unfold Object_entries.
  induction o as [|[k v] o IH]; simpl; [done|].
  destruct (split_keys o) as [indexed named].
  destruct (array_index k) as [i|].
  - rewrite insert_index_perm. csimpl. by rewrite IH.
  - rewrite <- Permutation_middle. by rewrite IH.
Qed.

Lemma Object_keys_perm (o : object) : Object_keys o ≡ₚ o.*1.
Proof. unfold Object_keys. by rewrite Object_entries_perm. Qed.

Lemma split_keys_plain (o : object) :
  (∀ k, k ∈ o.*1 → array_index k = None) → split_keys o = ([], o).
Proof.
  induction o as [|[k v] o IH]; intros Hplain; [done|]. simpl.
  rewrite (Hplain k) by (by left).
  rewrite IH; [done|]. intros k' Hk'. apply Hplain. by right.
Qed.

Lemma Object_entries_plain (o : object) :
  (∀ k, k ∈ o.*1 → array_index k = None) → Object_entries o = o.
Proof. intros Hplain. unfold Object_entries. by rewrite split_keys_plain. Qed.

(** ** Counters *)

Lemma tally_pos key keys : key ∈ keys ↔ 0 < tally key keys.
Proof.
  unfold tally. induction keys as [|k keys IH]; simpl.
  - rewrite elem_of_nil. lia.
  - rewrite elem_of_cons. destruct (String.eqb_spec key k) as [->|Hne]; simpl.
    + split; [lia|by left].
    + rewrite <- IH. split; [by intros [?|?]|by right].
Qed.

(** A counter object filled from [keys] holds, for each key that names
    no member of [Object.prototype], the number of its occurrences. *)
Lemma counter_object (keys : list string) :
  let o := fold_left count_key keys [] in
  NoDup o.*1 ∧
  (∀ k, k ∈ o.*1 ↔ k ∈ keys ∧ k ≠ "__proto__") ∧
  (∀ k v, (k, v) ∈ o → inherited k = None → v = VNumber (tally k keys)).
Proof.
  intros o. destruct (fold_count_key_keys keys [] (NoDup_nil_2)) as [Hnd Hin].
  fold o in Hnd, Hin. split_and!; [done| |].
  - intros k. rewrite Hin. csimpl. rewrite elem_of_nil. tauto.
  - intros k v Hkv Hsafe.
    apply (elem_of_list_to_map_1 (M := gmap string)) in Hkv; [|done].
    unfold o in Hkv. rewrite fold_count_key_map in Hkv.
    destruct (fold_count_tag k keys (list_to_map []) 0 Hsafe) as [[_ Hnone]|[_ Hsome]].
    + by left.
    + congruence.
    + rewrite Hsome in Hkv. unfold tally. by injection Hkv as <-.
Qed.

Lemma count_key_keys_order (o : object) (key : string) :
  key ≠ "__proto__" → (count_key o key).*1 = Set_add o.*1 key.
Proof.
  intros Hne. unfold count_key, obj_set, Set_add.
  destruct (String.eqb_spec key "__proto__") as [?|_]; [done|].
  destruct (own o key) eqn:Hown.
  - rewrite obj_update_keys. rewrite bool_decide_eq_true_2; [done|].
    apply dec_stable. rewrite <- own_None. congruence.
  - apply own_None in Hown. rewrite bool_decide_eq_false_2 by done.
    by rewrite fmap_app.
Qed.

Lemma fold_count_key_order (keys : list string) (o : object) :
  (∀ k, k ∈ keys → k ≠ "__proto__") →
  (fold_left count_key keys o).*1 = fold_left Set_add keys o.*1.
Proof.
  revert o. induction keys as [|key keys IH]; intros o Hne; [done|]. simpl.
  rewrite IH by (intros k Hk; apply Hne; by right).
  rewrite count_key_keys_order; [done|]. apply Hne. by left.
Qed.

Lemma rows_determined (l : object) (ks : list string) (g : string -> jsvalue) :
  l.*1 = ks → (∀ k v, (k, v) ∈ l → v = g k) → l = (fun k => (k, g k)) <$> ks.
Proof.
  revert ks. induction l as [|[k v] l IH]; intros ks <- Hval; [done|]. csimpl.
  rewrite (Hval k v) by (by left). f_equal. apply IH; [done|].
  intros k' v' Hin. apply Hval. by right.
Qed.

Lemma inherited_not_proto key : inherited key = None → key ≠ "__proto__".
Proof. by intros Hsafe ->. Qed.

(** The rows of a counter object, in creation order: the keys by first
    occurrence, each with the number of its occurrences. *)
Lemma counter_object_rows (keys : list string) :
  (∀ k, k ∈ keys → inherited k = None) →
  fold_left count_key keys [] = row_of keys <$> Set_from keys.
Proof.
  intros Hsafe. apply rows_determined.
  - apply fold_count_key_order. intros k Hk. by apply inherited_not_proto, Hsafe.
  - intros k v Hkv. apply (counter_object keys); [done|].
    apply Hsafe. apply (counter_object keys). by apply (list_elem_of_fmap_2 fst) in Hkv.
Qed.

Lemma plain_key_spec key :
  plain_key key = true → inherited key = None ∧ array_index key = None.
Proof. unfold plain_key. by destruct (inherited key), (array_index key). Qed.

Lemma counter_rows_plain (keys : list string) :
  (∀ k, k ∈ keys → plain_key k = true) →
  Object_entries (fold_left count_key keys []) = row_of keys <$> Set_from keys.
Proof.
  intros Hplain.
  assert (fold_left count_key keys [] = row_of keys <$> Set_from keys) as Hrows.
  { apply counter_object_rows. intros k Hk. by apply plain_key_spec, Hplain. }
  rewrite Hrows. apply Object_entries_plain.
  intros k Hk. apply plain_key_spec, Hplain.
  apply list_elem_of_fmap in Hk as (row & -> & Hrow).
  apply list_elem_of_fmap in Hrow as (m & -> & Hm). simpl. by apply elem_of_Set_from.
Qed.

Lemma fold_left_fmap {A B C} (f : A -> B) (g : C -> B -> C) (l : list A) (acc : C) :
  fold_left (fun acc x => g acc (f x)) l acc = fold_left g (f <$> l) acc.
Proof. revert acc. induction l as [|x l IH]; intros acc; [done|]. csimpl. apply IH. Qed.

Lemma fold_left_filter_fmap {A B C} (p : A -> bool) (f : A -> B) (g : C -> B -> C)
    (l : list A) (acc : C) :
  fold_left (fun acc x => if p x then g acc (f x) else acc) l acc =
  fold_left g (f <$> List.filter p l) acc.
Proof.
  revert acc. induction l as [|x l IH]; intros acc; [done|]. simpl.
  rewrite IH. by destruct (p x).
Qed.

Lemma length_filter_cons {A} (p : A -> bool) (x : A) (l : list A) :
  length (List.filter p (x :: l)) = ((if p x then 1 else 0) + length (List.filter p l))%nat.
Proof. simpl. by destruct (p x). Qed.

Lemma filter_length_le {A} (p : A -> bool) (l : list A) :
  (length (List.filter p l) <= length l)%nat.
Proof. induction l as [|x l IH]; simpl; [done|]. destruct (p x); simpl; lia. Qed.

Lemma filter_idemp {A} (p : A -> bool) (l : list A) :
  List.filter p (List.filter p l) = List.filter p l.
Proof.
  induction l as [|x l IH]; simpl; [done|].
  destruct (p x) eqn:Hp; simpl; [|done]. by rewrite Hp, IH.
Qed.

Lemma filter_ext_in {A} (p q : A -> bool) (l : list A) :
  (∀ x, x ∈ l → p x = q x) → List.filter p l = List.filter q l.
Proof.
  induction l as [|x l IH]; intros Heq; [done|]. simpl.
  rewrite (Heq x) by (by left). rewrite IH; [done|]. intros y Hy. apply Heq. by right.
Qed.

Lemma length_filter_NoDup (tag : string) (l : list string) :
  NoDup l →
  length (List.filter (String.eqb tag) l) = if existsb (String.eqb tag) l then 1%nat else 0%nat.
Proof.
  induction 1 as [|k l Hnotin Hnd IH]; [done|]. simpl.
  destruct (String.eqb_spec tag k) as [->|Hne]; simpl; [|done].
  rewrite IH. destruct (existsb (String.eqb k) l) eqn:Hex; [|done].
  apply existsb_elem_of in Hex as (x & Hx & ->%String.eqb_eq). done.
Qed.

Lemma tally_entries (tag : string) (data : list entry) :
  (∀ e, e ∈ data → NoDup (tags e)) →
  tally tag (all_tags data) =
  Z.of_nat (length (List.filter (fun e => existsb (String.eqb tag) (tags e)) data)).
Proof.
  unfold tally, all_tags. intros Hnd. f_equal.
  induction data as [|e data IH]; [done|]. csimpl.
  rewrite List.filter_app, length_app, IH by (intros e' He'; apply Hnd; by right).
  rewrite length_filter_NoDup by (apply Hnd; by left).
  by destruct (existsb (String.eqb tag) (tags e)).
Qed.

(** ** sort() on strings *)

Lemma default_compare_le (x y : string) :
  default_compare x y <= 0 ↔ String.compare x y ≠ Gt.
Proof.
  unfold default_compare, string_lt. rewrite (String.compare_antisym x y).
  destruct (String.compare y x); simpl; split; (done || lia).
Qed.

Lemma default_compare_ordering (l : list string) : ordering_on default_compare l.
Proof.
  split_and!.
  - intros a b _ _. rewrite !default_compare_le, (String.compare_antisym a b).
    destruct (String.compare b a); simpl; auto.
  - intros a b c _ _ _. rewrite !default_compare_le. apply string_compare_le_trans.
  - intros a b _ _. unfold default_compare, string_lt.
    rewrite (String.compare_antisym a b). by destruct (String.compare b a).
Qed.

Lemma default_compare_strict (x y : string) :
  x ≠ y → default_compare x y <= 0 → string_lt x y = true.
Proof.
  intros Hne. unfold default_compare, string_lt.
  rewrite (String.compare_antisym y x).
  destruct (String.compare x y) eqn:Hc; simpl; [|done|lia].
  by apply String.compare_eq_iff in Hc.
Qed.

Lemma StronglySorted_strict (l : list string) :
  NoDup l → StronglySorted (fun a b => default_compare a b <= 0) l →
  StronglySorted (fun a b => string_lt a b = true) l.
Proof.
  intros Hnd Hs. induction Hs as [|a l Hs IH Hall]; constructor.
  - apply IH. by eapply NoDup_cons_1_2.
  - apply NoDup_cons in Hnd as [Hnotin _].
    rewrite Forall_forall in Hall |- *. intros b Hb.
    apply default_compare_strict; [|by apply Hall]. intros ->. by apply Hnotin.
Qed.

Lemma StronglySorted_reverse {A} (R : A -> A -> Prop) (l : list A) :
  StronglySorted R l → StronglySorted (fun a b => R b a) (reverse l).
Proof.
  induction 1 as [|x l Hs IH Hall]; [constructor|].
  rewrite reverse_cons. apply StronglySorted_app. split_and!.
  - intros a b Ha ->%list_elem_of_singleton. rewrite elem_of_reverse in Ha.
    rewrite Forall_forall in Hall. by apply Hall.
  - done.
  - repeat constructor.
Qed.

(** ** The type dropdown *)

(** X3.  The type dropdown offers exactly the types that occur in the
    store, each once. *)
Theorem allTypes_spec (data : list entry) :
  NoDup (allTypes data) ∧ ∀ t, t ∈ allTypes data ↔ ∃ e, e ∈ data ∧ type e = t.
Proof.
  split; [apply Set_from_NoDup|]. intros t. unfold allTypes.
  rewrite elem_of_Set_from, list_elem_of_In, in_map_iff.
  by setoid_rewrite list_elem_of_In; setoid_rewrite (and_comm (_ = _)).
Qed.

Section Dropdowns.
Context {host : Host} {laws : HostLaws host}.

(** X4.  Choosing an option of the type dropdown, with the other
    filters at rest, shows exactly the entries of that type, and at
    least one, unless a type is itself named "all". *)
Theorem type_options (data : list entry) (t : string) field order :
  t ∈ allTypes data → t ≠ "all" →
  (∃ e, e ∈ filteredData data (only_type t field order)) ∧
  ∀ e, e ∈ filteredData data (only_type t field order) ↔ e ∈ data ∧ type e = t.
Proof.
  intros Hin Hne.
  assert (Hview : ∀ e, e ∈ filteredData data (only_type t field order) ↔
                       e ∈ data ∧ type e = t).
  { intros e. rewrite elem_of_filteredData. apply and_iff_compat_l.
    unfold matches, matchesSearch.
    cbn [only_type searchTerm selectedStatus selectedType selectedTag].
    rewrite toLowerCase_empty, includes_empty. cbn.
    rewrite andb_true_r, matchesType_spec.
    split; [by intros [?|?]|by right]. }
  split; [|done].
  apply elem_of_Set_from, list_elem_of_In, in_map_iff in Hin as (e & Heq & He).
  exists e. apply Hview. by rewrite list_elem_of_In.
Qed.

(** ** The tag dropdown *)

(** X5.  The tag dropdown offers the tags of the store in strictly
    ascending code-unit order, hence each once: every tag of every
    entry, except a tag named "__proto__", which is never offered. *)
Theorem allTags_spec (data : list entry) :
  StronglySorted (fun a b => string_lt a b = true) (allTags data) ∧
  ∀ tag, tag ∈ allTags data ↔ tag ∈ all_tags data ∧ tag ≠ "__proto__".
Proof.
  destruct (fold_count_key_keys (all_tags data) [] (NoDup_nil_2)) as [Hnd Hin].
  rewrite <- tagFrequency_object_flat in Hnd, Hin.
  split.
  - apply StronglySorted_strict.
    + unfold allTags. rewrite array_sort_perm, Object_keys_perm. done.
    + apply array_sort_sorted, default_compare_ordering.
  - intros tag. unfold allTags. rewrite array_sort_perm, Object_keys_perm, Hin.
    csimpl. rewrite elem_of_nil. tauto.
Qed.

(** X6.  The number beside a tag in the dropdown is the number of
    entries shown once that tag is chosen, with the other filters at
    rest: for a tag other than "all", the value of the option that
    switches the filter off, that names no member of
    [Object.prototype], in a store where no entry lists a tag twice,
    [tagFrequency[tag]] is the
    length of the view, the view holds exactly the entries with the
    tag, and it is not empty. *)
Theorem tag_option_count (data : list entry) (tag : string) field order :
  tag ∈ allTags data → tag ≠ "all" → inherited tag = None →
  (∀ e, e ∈ data → NoDup (tags e)) →
  let view := filteredData data (only_tag tag field order) in
  (∀ e, e ∈ view ↔ e ∈ data ∧ tag ∈ tags e) ∧
  (0 < length view)%nat ∧
  get (getTagFrequency data) tag = Own (VNumber (Z.of_nat (length view))).
Proof.
  intros Hin Hall Hsafe Hnd view.
  assert (Hm : ∀ e, matches (only_tag tag field order) e = existsb (String.eqb tag) (tags e)).
  { intros e. unfold matches, matchesSearch, matchesTag.
    cbn [only_tag searchTerm selectedStatus selectedType selectedTag].
    rewrite toLowerCase_empty, includes_empty. cbn.
    by destruct (String.eqb_spec tag "all"). }
  assert (Hlen : Z.of_nat (length view) = tally tag (all_tags data)).
  { rewrite tally_entries by done. f_equal. unfold view, filteredData.
    rewrite array_sort_perm. f_equal. apply filter_ext_in. intros e _. apply Hm. }
  assert (Hpos : 0 < tally tag (all_tags data)).
  { apply tally_pos. unfold allTags in Hin.
    rewrite array_sort_perm, Object_keys_perm, tagFrequency_object_flat in Hin.
    by apply (counter_object (all_tags data)) in Hin as [? _]. }
  split_and!.
  - intros e. unfold view. rewrite elem_of_filteredData, Hm, existsb_elem_of.
    apply and_iff_compat_l. split.
    + by intros (x & Hx & ->%String.eqb_eq).
    + intros Hx. exists tag. by rewrite String.eqb_refl.
  - lia.
  - rewrite Hlen, getTagFrequency_flat. unfold get.
    destruct (fold_count_tag tag (all_tags data) ∅ 0 Hsafe) as [[Hz _]|[_ ->]].
    + by left.
    + unfold tally in Hpos. lia.
    + done.
Qed.

(** ** The sort order *)

(** X7.  Switching the order from ascending to descending reverses the
    view, when the sort field tells the shown entries apart and their
    dates, if sorted by, are valid. *)
Theorem descending_is_ascending_reversed (store : list entry) (cfg : settings) :
  (∀ e, e ∈ store → matches cfg e = true → valid_key (sortBy cfg) e) →
  (∀ a b, a ∈ store → b ∈ store → matches cfg a = true → matches cfg b = true →
          above (sortBy cfg) a b = false → above (sortBy cfg) b a = false → a = b) →
  filteredData store (with_order cfg desc) = reverse (filteredData store (with_order cfg asc)).
Proof.
  intros Hvalid Hdistinct.
  apply (StronglySorted_unique_strong
           (fun a b => comparator (sortBy cfg) desc a b <= 0)).
  - intros a b Ha Hb. rewrite elem_of_filteredData in Ha.
    rewrite elem_of_reverse, elem_of_filteredData in Hb.
    destruct Ha as [Ha Hma], Hb as [Hb Hmb].
    rewrite !comparator_le. intros Hba Hab. by apply Hdistinct.
  - apply (filteredData_sorted store (with_order cfg desc)). exact Hvalid.
  - apply (StronglySorted_weaken (fun a b => comparator (sortBy cfg) asc b a <= 0)).
    + intros a b _ _. by rewrite comparator_flip.
    + apply (StronglySorted_reverse (fun a b => comparator (sortBy cfg) asc a b <= 0)).
      apply (filteredData_sorted store (with_order cfg asc)). exact Hvalid.
  - rewrite reverse_Permutation. unfold filteredData. by rewrite !array_sort_perm.
Qed.

End Dropdowns.

(** ** renderStars *)

(** X8.  [renderStars] renders nothing for a missing rating or the
    rating 0; for any other rating it renders five stars, of which the
    rating, cut off at 0 and at 5, are filled, and the caption carries
    the rating itself. *)
Theorem renderStars_spec (r : Z) :
  renderStars None = None ∧ renderStars (Some 0) = None ∧
  (r ≠ 0 →
   ∃ stars, renderStars (Some r) = Some (stars, r) ∧ length stars = 5%nat ∧
            filled stars = Z.to_nat (Z.min 5 (Z.max 0 r))).
Proof.
  split_and!; [done|done|]. intros Hr.
  exists ((fun i => i <? r) <$> [0; 1; 2; 3; 4]). split_and!.
  - by destruct r.
  - done.
  - unfold filled. cbn.
    destruct (Z.ltb_spec 0 r), (Z.ltb_spec 1 r), (Z.ltb_spec 2 r),
      (Z.ltb_spec 3 r), (Z.ltb_spec 4 r); simpl; lia.
Qed.

(** ** The counts of the header and of the panel *)

(** X9.  [getReadingStats] counts every entry in [totalItems] and each
    entry with one of the three statuses in its own counter, so the
    total is their sum plus the entries of any other status; the
    counts of the analytics panel are the same four numbers. *)
Theorem status_counts (data : list entry) :
  let s := getReadingStats data in
  totalItems s =
    (readItems s + inProgress s + toRead s + length (List.filter other_status data))%nat ∧
  SimpleAnalytics.total (SimpleAnalytics.stats data) = totalItems s ∧
  SimpleAnalytics.read (SimpleAnalytics.stats data) = readItems s ∧
  SimpleAnalytics.inProgress (SimpleAnalytics.stats data) = inProgress s ∧
  SimpleAnalytics.toRead (SimpleAnalytics.stats data) = toRead s.
Proof.
  split_and!; try done.
  unfold getReadingStats. cbn [totalItems readItems inProgress toRead].
  induction data as [|e data IH]; [done|].
  rewrite !length_filter_cons. simpl length. rewrite IH.
  unfold other_status, has_status.
  destruct (String.eqb_spec (status e) "read") as [->|_]; [simpl; lia|].
  destruct (String.eqb_spec (status e) "in-progress") as [->|_]; [simpl; lia|].
  destruct (String.eqb_spec (status e) "to-read") as [_|_]; simpl; lia.
Qed.

(** ** The two averages *)

Lemma fixed_exact : fixed_exact_upto 30 = true.
Proof. by vm_compute. Qed.

Lemma shows_eq text n : shows text n = true → text = Some (one_decimal n).
Proof. destruct text as [t|]; simpl; [|done]. by intros ->%String.eqb_eq. Qed.

Lemma fixed_exact_upto_spec (bound n s : nat) :
  fixed_exact_upto bound = true →
  (1 <= n < 1 + bound)%nat → (s <= 5 * n)%nat →
  let text := toFixed1 (div (of_Z (Z.of_nat s)) (of_Z (Z.of_nat n))) in
  let t := tenths (Z.of_nat s) (Z.of_nat n) in
  text = Some (one_decimal t) ∨
  (exact_tie (Z.of_nat s) (Z.of_nat n) = true ∧ text = Some (one_decimal (t - 1))).
Proof.
  unfold fixed_exact_upto. intros Htable Hn Hs.
  rewrite forallb_forall in Htable.
  assert (In n (seq 1 bound)) as Hin by (apply in_seq; lia).
  specialize (Htable n Hin). cbv beta in Htable.
  rewrite forallb_forall in Htable.
  assert (In s (seq 0 (S (5 * n)))) as Hin' by (apply in_seq; lia).
  specialize (Htable s Hin'). cbv beta zeta in Htable.
  cbv zeta. apply orb_true_iff in Htable as [H|[Htie H]%andb_true_iff].
  - left. by apply shows_eq.
  - right. split; [done|]. by apply shows_eq.
Qed.

Lemma fixed_exact_at (s n : Z) :
  0 < n <= 30 → 0 <= s <= 5 * n →
  toFixed1 (div (of_Z s) (of_Z n)) = Some (one_decimal (tenths s n)) ∨
  (exact_tie s n = true ∧
   toFixed1 (div (of_Z s) (of_Z n)) = Some (one_decimal (tenths s n - 1))).
Proof.
  intros Hn Hs.
  rewrite <- (Z2Nat.id n), <- (Z2Nat.id s) by lia.
  apply (fixed_exact_upto_spec 30); [apply fixed_exact|lia|lia].
Qed.

(** X10.  The header and the analytics panel average the same ratings
    but round differently.  For up to 30 read entries rated 1 to 5 or
    not at all, the header shows the mean rounded half up to a tenth,
    and the panel shows the same tenth, except that at a mean lying
    exactly halfway between two tenths it may show the tenth below:
    [toFixed] rounds the quotient as binary64 holds it.  Nineteen
    ratings of 2 and one of 1 give 2 in the header and "1.9" in the
    panel. *)
Theorem analytics_average_matches_header :
  (∀ data,
     let read := List.filter (has_status "read") data in
     let t := tenths (sum_present rating read) (Z.of_nat (length read)) in
     (0 < length read <= 30)%nat →
     (∀ e, e ∈ read → in_scale (rating e) = true) →
     averageRating (getReadingStats data) = div (of_Z t) (of_Z 10) ∧
     (SimpleAnalytics.avgRating (SimpleAnalytics.stats data) =
        Some (VString (one_decimal t)) ∨
      (exact_tie (sum_present rating read) (Z.of_nat (length read)) = true ∧
       SimpleAnalytics.avgRating (SimpleAnalytics.stats data) =
         Some (VString (one_decimal (t - 1)))))) ∧
  (averageRating (getReadingStats twenty_read) = of_Z 2 ∧
   SimpleAnalytics.avgRating (SimpleAnalytics.stats twenty_read) = Some (VString "1.9")).
Proof.
  split; [|by vm_compute].
  intros data read t Hlen Hscale.
  pose proof (sum_present_bounds rating read Hscale) as Hsum.
  split.
  - unfold getReadingStats. cbn [averageRating]. fold read.
    rewrite average_spec by (done || lia). unfold round_tenth.
    by rewrite round_exact_at by lia.
  - unfold SimpleAnalytics.stats. cbn [SimpleAnalytics.avgRating]. fold read.
    destruct (Nat.ltb_spec 0 (length read)) as [_|?]; [|lia].
    rewrite average_spec by (done || lia).
    destruct (fixed_exact_at (sum_present rating read) (Z.of_nat (length read)))
      as [->|[Htie ->]]; [lia|lia|by left|by right].
Qed.

(** X11.  Without a read entry the header's [averageRating] is NaN,
    since [getReadingStats] divides unguarded.  The analytics panel
    guards the division: on a non-empty store without a read entry its
    tiles show the average 0, and on the empty store it shows only the
    "No data available" placeholder, with no average at all. *)
Theorem analytics_average_without_read_entries (data : list entry) :
  (∀ e, e ∈ data → status e ≠ "read") →
  averageRating (getReadingStats data) = NaN ∧
  (data = [] → SimpleAnalytics.tiles data = None) ∧
  (data ≠ [] →
   ∃ shown, SimpleAnalytics.tiles data = Some shown ∧
            SimpleAnalytics.read shown = 0%nat ∧
            SimpleAnalytics.avgRating shown = Some (VNumber 0)).
Proof.
  intros Hnone.
  assert (List.filter (has_status "read") data = []) as Hread.
  { induction data as [|e data IH]; [done|]. simpl.
    unfold has_status at 1. destruct (String.eqb_spec (status e) "read") as [Heq|_].
    - exfalso. apply (Hnone e); [by left|done].
    - apply IH. intros e' He'. apply Hnone. by right. }
  split_and!.
  - by apply no_read_entries_NaN.
  - by intros ->.
  - intros Hdata. exists (SimpleAnalytics.stats data). split_and!.
    + by destruct data.
    + unfold SimpleAnalytics.stats. cbn [SimpleAnalytics.read]. by rewrite Hread.
    + unfold SimpleAnalytics.stats. cbn [SimpleAnalytics.avgRating]. by rewrite Hread.
Qed.

(** ** ratingData *)

Lemma rating_bars_partition (data : list entry) :
  (length (List.filter (SimpleAnalytics.rating_is 1) data) +
   length (List.filter (SimpleAnalytics.rating_is 2) data) +
   length (List.filter (SimpleAnalytics.rating_is 3) data) +
   length (List.filter (SimpleAnalytics.rating_is 4) data) +
   length (List.filter (SimpleAnalytics.rating_is 5) data))%nat =
  length (List.filter rated_1_to_5 data).
Proof.
  induction data as [|e data IH]; [done|].
  rewrite !length_filter_cons, <- IH.
  assert ((if rated_1_to_5 e then 1 else 0) =
          (if SimpleAnalytics.rating_is 1 e then 1 else 0) +
          (if SimpleAnalytics.rating_is 2 e then 1 else 0) +
          (if SimpleAnalytics.rating_is 3 e then 1 else 0) +
          (if SimpleAnalytics.rating_is 4 e then 1 else 0) +
          (if SimpleAnalytics.rating_is 5 e then 1 else 0))%nat as ->; [|lia].
  unfold rated_1_to_5, SimpleAnalytics.rating_is. destruct (rating e) as [n|]; [|done].
  destruct (Z.eqb_spec n 1), (Z.eqb_spec n 2), (Z.eqb_spec n 3), (Z.eqb_spec n 4),
    (Z.eqb_spec n 5), (Z.leb_spec 1 n), (Z.leb_spec n 5); simpl; lia.
Qed.

(** X12.  The rating chart always has the five bars "1 Star" to
    "5 Stars", each with a colour, and every entry rated 1 to 5 is
    counted in exactly one of them, whatever its status; an entry
    without a rating, or rated outside 1 to 5, is in none. *)
Theorem ratingData_counts (data : list entry) :
  SimpleAnalytics.bar_rating <$> SimpleAnalytics.ratingData data =
    ["1 Star"; "2 Stars"; "3 Stars"; "4 Stars"; "5 Stars"] ∧
  Forall (fun bar => is_Some (SimpleAnalytics.bar_fill bar)) (SimpleAnalytics.ratingData data) ∧
  sum_list (SimpleAnalytics.bar_count <$> SimpleAnalytics.ratingData data) =
    length (List.filter rated_1_to_5 data).
Proof.
  split_and!.
  - done.
  - unfold SimpleAnalytics.ratingData. cbn. repeat constructor; by eexists.
  - unfold SimpleAnalytics.ratingData. cbn. rewrite <- rating_bars_partition. lia.
Qed.

(** ** radarData *)

Lemma max_le_foldr (l : list nat) (x : nat) :
  x ∈ l → (x <= foldr Nat.max 0 l)%nat.
Proof.
  induction l as [|y l IH]; [by intros ?%elem_of_nil|].
  intros [->|Hin]%elem_of_cons; simpl; [lia|]. specialize (IH Hin). lia.
Qed.

(** X13.  The radar chart reads the read entries only: entries of any
    other status do not change it, no dimension exceeds the number of
    read entries, and every dimension lies strictly inside the radius
    axis. *)
Theorem radarData_bounds (data : list entry) :
  SimpleAnalytics.radarData (List.filter (has_status "read") data) =
    SimpleAnalytics.radarData data ∧
  ∀ p, p ∈ SimpleAnalytics.radarData data →
       (SimpleAnalytics.value p <= length (List.filter (has_status "read") data))%nat ∧
       (SimpleAnalytics.value p < SimpleAnalytics.radius_domain data)%nat.
Proof.
  split.
  - unfold SimpleAnalytics.radarData. by rewrite filter_idemp.
  - intros p Hp. split.
    + unfold SimpleAnalytics.radarData in Hp. cbv zeta in Hp.
      repeat (apply elem_of_cons in Hp as [->|Hp]; [apply filter_length_le|]).
      by apply elem_of_nil in Hp.
    + unfold SimpleAnalytics.radius_domain.
      assert (SimpleAnalytics.value p ∈
              SimpleAnalytics.value <$> SimpleAnalytics.radarData data) as Hin
        by (by apply list_elem_of_fmap_2).
      apply max_le_foldr in Hin. lia.
Qed.

(** ** typeData *)

Lemma fill_of_defined (name : string) : AdvancedAnalytics.fill_of name ≠ Undefined.
Proof.
  unfold AdvancedAnalytics.fill_of, AdvancedAnalytics.or_else.
  destruct (obj_get AdvancedAnalytics.TYPE_COLORS name) as [|[[| |]|[|]]|];
    destruct (obj_get AdvancedAnalytics.TYPE_COLORS
                (AdvancedAnalytics.String_replace " " "_" name)) as [|[[| |]|[|]]|]; done.
Qed.

(** X14.  The type chart has one slice for each name that the types of
    the store are drawn under, the first underscore of a type turned
    into a space, in the order the names first occur; the slice counts
    the entries drawn under its name, so "linkedin_post" and
    "linkedin post" share a slice, and it always has a colour.  An
    entry with an empty type is left out.  This holds when no name is
    an array index or a member of [Object.prototype]. *)
Theorem typeData_slices (data : list entry) :
  let names := display <$> List.filter typed data in
  (∀ name, name ∈ names → plain_key name = true) →
  AdvancedAnalytics.typeData data = slice_of names <$> Set_from names ∧
  ∀ s, s ∈ AdvancedAnalytics.typeData data → AdvancedAnalytics.slice_fill s ≠ Undefined.
Proof.
  intros names Hplain.
  assert (AdvancedAnalytics.typeData data = slice_of names <$> Set_from names) as Heq.
  { unfold AdvancedAnalytics.typeData.
    rewrite (fold_left_filter_fmap typed display count_key). fold names.
    rewrite counter_rows_plain by done. by rewrite <- list_fmap_compose. }
  split; [done|]. rewrite Heq.
  intros s (name & -> & _)%list_elem_of_fmap. apply fill_of_defined.
Qed.

(** ** monthlyData, cumulativeData and wordCloudData *)

Lemma length_slice_last {A} (n : nat) (l : list A) : (length (slice_last n l) <= n)%nat.
Proof. unfold slice_last. rewrite length_drop. lia. Qed.

Lemma fold_count_clean `{Builtins} (l : list string) (o : object) :
  fold_left SimpleAnalytics.count_clean l o =
  fold_left count_key (List.filter (fun tag => truthy (Some tag)) (trim <$> l)) o.
Proof.
  revert o. induction l as [|tag l IH]; intros o; [done|].
  rewrite fmap_cons. simpl. rewrite IH. unfold SimpleAnalytics.count_clean.
  by destruct (trim tag).
Qed.

Lemma wordCloud_counts `{Builtins} (data : list entry) (o : object) :
  fold_left (fun tagCounts item =>
               fold_left SimpleAnalytics.count_clean (tags item) tagCounts) data o =
  fold_left count_key (clean_tags data) o.
Proof.
  unfold clean_tags, all_tags. revert o.
  induction data as [|item data IH]; intros o; [done|]. csimpl.
  rewrite fmap_app, List.filter_app, fold_left_app, IH. by rewrite fold_count_clean.
Qed.

Lemma fmap_S_seq_Z (c : Z) (start len : nat) :
  (fun i => c + 1 + Z.of_nat i) <$> seq start len =
  (fun i => c + Z.of_nat i) <$> seq (S start) len.
Proof.
  revert start. induction len as [|len IH]; intros start; [done|]. csimpl.
  rewrite IH. f_equal. lia.
Qed.

Lemma count_minus_ordering (l : list (string * jsvalue)) :
  (∀ row, row ∈ l → ∃ n, row.2 = VNumber n) → ordering_on SimpleAnalytics.count_minus l.
Proof.
  intros Hnum.
  assert (Hcmp : ∀ a b, a ∈ l → b ∈ l →
            SimpleAnalytics.count_minus a b = count_of b - count_of a).
  { intros a b [x Ha]%Hnum [y Hb]%Hnum.
    unfold SimpleAnalytics.count_minus, count_of. by rewrite Ha, Hb. }
  split_and!.
  - intros a b Ha Hb. rewrite !Hcmp by done. lia.
  - intros a b c Ha Hb Hc. rewrite !Hcmp by done. lia.
  - intros a b Ha Hb. rewrite !Hcmp by done. lia.
Qed.

Section Panels.
Context {host : Host} {builtins : Builtins}.

Lemma running_counter (c : Z) (items : list entry) :
  SimpleAnalytics.point_cumulative <$> SimpleAnalytics.running c items =
  (fun i => c + Z.of_nat i) <$> seq 1 (length items).
Proof.
  revert c. induction items as [|item items IH]; intros c; [done|].
  cbn [SimpleAnalytics.running length seq]. csimpl. rewrite IH, fmap_S_seq_Z. f_equal.
Qed.

Lemma running_titles (c : Z) (items : list entry) :
  SimpleAnalytics.point_title <$> SimpleAnalytics.running c items = title <$> items.
Proof.
  revert c. induction items as [|item items IH]; intros c; [done|].
  cbn [SimpleAnalytics.running]. csimpl. by rewrite IH.
Qed.

(** X15.  The monthly chart has one row for each month label of the
    entries with a read date, in the order the labels first occur in
    the data, not in the order of the calendar; each row counts the
    entries with its label, and only the last twelve rows are kept.
    This holds when no label is an array index or a member of
    [Object.prototype], as for a label such as "Jan 2025". *)
Theorem monthlyData_rows (data : list entry) :
  let months := SimpleAnalytics.month_of <$> List.filter dated data in
  (∀ month, month ∈ months → plain_key month = true) →
  SimpleAnalytics.monthlyData data = slice_last 12 (row_of months <$> Set_from months) ∧
  (length (SimpleAnalytics.monthlyData data) <= 12)%nat.
Proof.
  intros months Hplain. split; [|apply length_slice_last].
  unfold SimpleAnalytics.monthlyData. fold dated. rewrite fold_left_fmap. fold months.
  by rewrite counter_rows_plain.
Qed.

Context {laws : HostLaws host}.

Lemma date_minus_ordering (l : list entry) :
  (∀ e, e ∈ l → read_time e ≠ None) → ordering_on SimpleAnalytics.date_minus l.
Proof.
  intros Hvalid.
  assert (Hcmp : ∀ a b, a ∈ l → b ∈ l →
            ∃ ta tb, read_time a = Some ta ∧ read_time b = Some tb ∧
                     SimpleAnalytics.date_minus a b = ta - tb).
  { intros a b Ha Hb. unfold SimpleAnalytics.date_minus.
    pose proof (Hvalid a Ha) as Hta. pose proof (Hvalid b Hb) as Htb.
    unfold read_time in *.
    destruct (Date_of (dateRead a)) as [ta|]; [|done].
    destruct (Date_of (dateRead b)) as [tb|]; [|done]. by exists ta, tb. }
  split_and!.
  - intros a b Ha Hb.
    destruct (Hcmp a b Ha Hb) as (ta & tb & Hta & Htb & ->).
    destruct (Hcmp b a Hb Ha) as (? & ? & ? & ? & ->). simplify_eq. lia.
  - intros a b c Ha Hb Hc.
    destruct (Hcmp a b Ha Hb) as (ta & tb & Hta & Htb & ->).
    destruct (Hcmp b c Hb Hc) as (? & tc & ? & Htc & ->).
    destruct (Hcmp a c Ha Hc) as (? & ? & ? & ? & ->). simplify_eq. lia.
  - intros a b Ha Hb.
    destruct (Hcmp a b Ha Hb) as (ta & tb & Hta & Htb & ->).
    destruct (Hcmp b a Hb Ha) as (? & ? & ? & ? & ->). simplify_eq. lia.
Qed.

(** X16.  The cumulative chart has one point for each entry with a
    read date: the counter runs 1, 2, ... up to their number, the
    titles are those of the sorted entries, which are the dated
    entries in some order, and when every read date is a valid date
    that order is by date, earliest first. *)
Theorem cumulativeData_spec (data : list entry) :
  SimpleAnalytics.point_cumulative <$> SimpleAnalytics.cumulativeData data =
    Z.of_nat <$> seq 1 (length (List.filter dated data)) ∧
  SimpleAnalytics.point_title <$> SimpleAnalytics.cumulativeData data =
    title <$> SimpleAnalytics.sortedData data ∧
  SimpleAnalytics.sortedData data ≡ₚ List.filter dated data ∧
  ((∀ e, e ∈ data → dated e = true → read_time e ≠ None) →
   StronglySorted chronological (SimpleAnalytics.sortedData data)).
Proof.
  assert (Hperm : SimpleAnalytics.sortedData data ≡ₚ List.filter dated data).
  { unfold SimpleAnalytics.sortedData. apply array_sort_perm. }
  split_and!.
  - unfold SimpleAnalytics.cumulativeData. rewrite running_counter, Hperm. done.
  - apply running_titles.
  - done.
  - intros Hvalid.
    assert (Hv : ∀ e, e ∈ List.filter dated data → read_time e ≠ None).
    { intros e [He Hd]%elem_of_List_filter. by apply Hvalid. }
    apply (StronglySorted_weaken (fun a b => SimpleAnalytics.date_minus a b <= 0)).
    + intros a b Ha Hb. rewrite Hperm in Ha, Hb.
      unfold chronological, SimpleAnalytics.date_minus.
      pose proof (Hv a Ha) as Hta. pose proof (Hv b Hb) as Htb. unfold read_time in *.
      destruct (Date_of (dateRead a)); [|done]. destruct (Date_of (dateRead b)); [|done]. lia.
    + unfold SimpleAnalytics.sortedData. fold dated.
      by apply array_sort_sorted, date_minus_ordering.
Qed.

(** X17.  The word cloud shows at most 20 words, each once, with the
    number of tags that trim to it, the counts never increasing along
    the list; and no word left out was counted more often than a word
    shown.  Tags that trim to nothing are not counted.  This holds
    when no trimmed tag names a member of [Object.prototype]. *)
Theorem wordCloudData_top (data : list entry) :
  let words := clean_tags data in
  let rows := SimpleAnalytics.wordCloudData data in
  (∀ word, word ∈ words → inherited word = None) →
  (length rows <= 20)%nat ∧ NoDup rows.*1 ∧
  (∀ row, row ∈ rows → row.1 ∈ words ∧ row = row_of words row.1) ∧
  StronglySorted (fun a b => count_of b <= count_of a) rows ∧
  (∀ word row, word ∈ words → word ∉ rows.*1 → row ∈ rows →
     tally word words <= count_of row).
Proof.
  intros words rows Hsafe.
  set (o := fold_left count_key words []).
  set (sorted := array_sort SimpleAnalytics.count_minus (Object_entries o)).
  assert (rows = take 20 sorted) as Hrows.
  { unfold rows, SimpleAnalytics.wordCloudData. by rewrite wordCloud_counts. }
  assert (Hperm : sorted ≡ₚ o).
  { unfold sorted. by rewrite array_sort_perm, Object_entries_perm. }
  destruct (counter_object words) as (Hnd & Hkeys & Hvals). fold o in Hnd, Hkeys, Hvals.
  assert (Hrow : ∀ row, row ∈ sorted → row.1 ∈ words ∧ row = row_of words row.1).
  { intros [k v] Hin. rewrite Hperm in Hin. simpl.
    assert (k ∈ words) as Hk.
    { apply Hkeys. by apply (list_elem_of_fmap_2 fst) in Hin. }
    split; [done|]. unfold row_of. f_equal. apply Hvals; [done|]. by apply Hsafe. }
  assert (Hsorted : StronglySorted (fun a b => count_of b <= count_of a) sorted).
  { apply (StronglySorted_weaken (fun a b => SimpleAnalytics.count_minus a b <= 0)).
    - intros [ka va] [kb vb] [_ Ha]%Hrow [_ Hb]%Hrow.
      injection Ha as ->. injection Hb as ->.
      unfold SimpleAnalytics.count_minus, count_of. simpl. lia.
    - unfold sorted. apply array_sort_sorted, count_minus_ordering.
      intros row Hin. rewrite Object_entries_perm in Hin. destruct row as [k v].
      exists (tally k words). simpl. apply Hvals; [done|].
      apply Hsafe, Hkeys. by apply (list_elem_of_fmap_2 fst) in Hin. }
  rewrite <- (take_drop 20 sorted) in Hsorted.
  apply StronglySorted_app in Hsorted as (Hcross & Htake & _).
  rewrite Hrows. split_and!.
  - rewrite length_take. lia.
  - rewrite fmap_take. eapply sublist_NoDup; [|apply sublist_take]. by rewrite Hperm.
  - intros row Hin. apply Hrow. by eapply elem_of_sublist; [|apply sublist_take].
  - done.
  - intros word row Hword Hnot Hin.
    assert ((word, VNumber (tally word words)) ∈ sorted) as Hw.
    { rewrite Hperm. apply (elem_of_list_to_map_2 (M := gmap string)).
      unfold o. rewrite fold_count_key_map.
      destruct (fold_count_tag word words (list_to_map []) 0 (Hsafe word Hword))
        as [[Hz _]|[_ Hsome]]; [by left| |done].
      apply tally_pos in Hword. unfold tally in Hword. lia. }
    rewrite <- (take_drop 20 sorted) in Hw. apply elem_of_app in Hw as [Hw|Hw].
    + exfalso. apply Hnot. by apply (list_elem_of_fmap_2 fst) in Hw.
    + specialize (Hcross _ _ Hin Hw). by unfold count_of in Hcross at 1.
Qed.

End Panels.

(** ** The properties at work on concrete stores *)

Lemma forallb_elem_of {A} (p : A -> bool) (l : list A) :
  forallb p l = true → ∀ x, x ∈ l → p x = true.
Proof.
  intros Hall x Hx. rewrite forallb_forall in Hall. by apply Hall, list_elem_of_In.
Qed.

(** The examples run on [host_gt] unless they name [host_lt]. *)
#[local] Existing Instance host_gt.

Lemma view_membership_witness :
  sample 2 ∈ @filteredData host_gt allSampleData (only_tag "AI" ByTitle asc) ↔
  sample 2 ∈ allSampleData ∧
  ("" = "" ∨
   contains_ci (title (sample 2)) "" ∨
   contains_ci (author (sample 2)) "" ∨
   ∃ tag, tag ∈ tags (sample 2) ∧ contains_ci tag "") ∧
  ("all" = "all" ∨ status (sample 2) = "all") ∧
  ("all" = "all" ∨ type (sample 2) = "all") ∧
  ("AI" = "all" ∨ "AI" ∈ tags (sample 2)).
Proof.
  exact (@view_membership host_gt host_gt_laws allSampleData
           (only_tag "AI" ByTitle asc) (sample 2)).
Defined.

Lemma missing_dates_sort_as_sentinel_witness :
  (ByDateRead = ByDateAdded ∨ ByDateRead = ByDateRead) ∧
  (∀ e, e ∈ allSampleData → @after_sentinel host_lt ByDateRead e = true) ∧
  ∃ missing dated,
    Forall (fun e => is_missing ByDateRead e = true) missing ∧
    Forall (fun e => is_missing ByDateRead e = false) dated ∧
    @filteredData host_lt allSampleData (no_filter ByDateRead desc) =
      (dated ++ missing)%list.
Proof.
  assert (∀ e, e ∈ allSampleData → @after_sentinel host_lt ByDateRead e = true) as Hafter.
  { apply forallb_elem_of. reflexivity. }
  split; [by right|]. split; [exact Hafter|].
  apply (@missing_dates_sort_as_sentinel host_lt host_lt_laws allSampleData
           (no_filter ByDateRead desc) (or_intror eq_refl) Hafter).
Defined.

Lemma stats_of_six_ratings_witness :
  length six_read_store = 10%nat ∧
  rating <$> List.filter (has_status "read") six_read_store =
    [Some 4; Some 5; Some 4; Some 5; Some 5; Some 5] ∧
  totalItems (getReadingStats six_read_store) = 10%nat ∧
  readItems (getReadingStats six_read_store) = 6%nat ∧
  averageRating (getReadingStats six_read_store) = four_point_seven.
Proof.
  split; [reflexivity|]. split; [reflexivity|].
  apply (stats_of_six_ratings six_read_store); reflexivity.
Defined.

Lemma sort_by_title_witness :
  title (sample 1) = "Atomic Habits" ∧
  title (sample 5) = "The Lean Startup" ∧
  title (sample 8) = "Why We Sleep" ∧
  @filteredData host_gt [sample 8; sample 1; sample 5] (no_filter ByTitle asc) =
    [sample 1; sample 5; sample 8] ∧
  @filteredData host_gt [sample 8; sample 1; sample 5] (no_filter ByTitle desc) =
    [sample 8; sample 5; sample 1].
Proof.
  split; [reflexivity|]. split; [reflexivity|]. split; [reflexivity|].
  apply (@sort_by_title host_gt host_gt_laws (sample 1) (sample 5) (sample 8)); try reflexivity.
  exact (Permutation_cons_append [sample 1; sample 5] (sample 8)).
Defined.

Lemma tag_filter_is_exact_witness :
  let store := [tagged_entry ["ai"]; tagged_entry ["AI"]; tagged_entry ["AI Ethics"]] in
  tagged_entry ["AI Ethics"] ∈ store ∧
  (tagged_entry ["AI Ethics"] ∉ @filteredData host_gt store (only_tag "AI" ByTitle asc)) ∧
  tagged_entry ["AI Ethics"] ∈ @filteredData host_gt store (only_search "AI" ByTitle asc).
Proof.
  intros store.
  assert (tagged_entry ["AI Ethics"] ∈ store) as Hin.
  { apply list_elem_of_In. right. right. left. reflexivity. }
  split; [exact Hin|].
  apply (proj2 (@tag_filter_is_exact host_gt host_gt_laws store ByTitle asc) _ Hin).
  right. reflexivity.
Defined.

Lemma view_leaves_store_untouched_witness :
  arrays small_heap !! 4%positive = Some [1%positive; 2%positive; 3%positive] ∧
  deref small_heap [1%positive; 2%positive; 3%positive] =
    Some [sample 0; sample 2; sample 6] ∧
  ∃ view h',
    @filteredData_heap host_lt 4%positive (no_filter ByDateRead asc) small_heap =
      Some (view, h') ∧
    arrays small_heap !! view = None ∧
    view ≠ 4%positive ∧
    objects h' = objects small_heap ∧
    arrays h' !! 4%positive = Some [1%positive; 2%positive; 3%positive] ∧
    deref h' [1%positive; 2%positive; 3%positive] = Some [sample 0; sample 2; sample 6] ∧
    (∀ r, r ≠ view → arrays h' !! r = arrays small_heap !! r) ∧
    ∃ refs, arrays h' !! view = Some refs ∧
            deref h' refs =
              Some (@filteredData host_lt [sample 0; sample 2; sample 6]
                      (no_filter ByDateRead asc)).
Proof.
  split; [reflexivity|]. split; [reflexivity|].
  apply (@view_leaves_store_untouched host_lt host_lt_laws small_heap 4%positive
           [1%positive; 2%positive; 3%positive] [sample 0; sample 2; sample 6]);
    reflexivity.
Defined.

Lemma unrated_read_entries_count_as_zero_witness :
  let data := rated_entry "read" None None :: allSampleData in
  let read := List.filter (has_status "read") data in
  (0 < length (List.filter (absent rating) read))%nat ∧
  (0 < length read)%nat ∧ Z.of_nat (length read) < 2 ^ 32 ∧
  (∀ e, e ∈ read → in_scale (rating e) = true ∧ in_scale (impact e) = true) ∧
  length read = (length (omap rating read) + length (List.filter (absent rating) read))%nat ∧
  length read = (length (omap impact read) + length (List.filter (absent impact) read))%nat ∧
  averageRating (getReadingStats data) =
    div (of_Z (tenths (sum_present rating read) (Z.of_nat (length read)))) (of_Z 10) ∧
  averageImpact (getReadingStats data) =
    div (of_Z (tenths (sum_present impact read) (Z.of_nat (length read)))) (of_Z 10).
Proof.
  intros data read.
  assert ((0 < length read)%nat) as Hpos by (vm_compute; lia).
  assert (Z.of_nat (length read) < 2 ^ 32) as Hlen by (by vm_compute).
  assert (∀ e, e ∈ read → in_scale (rating e) = true ∧ in_scale (impact e) = true) as Hscale.
  { intros e He.
    apply (forallb_elem_of (fun e => in_scale (rating e) && in_scale (impact e)) read) in He;
      [by apply andb_prop in He|reflexivity]. }
  split; [vm_compute; lia|].
  split; [exact Hpos|]. split; [exact Hlen|]. split; [exact Hscale|].
  apply (proj1 (proj2 unrated_read_entries_count_as_zero) data Hpos Hlen Hscale).
Defined.

Lemma comparator_never_zero_witness :
  sort_value ByDateRead (sample 2) = sort_value ByDateRead (sample 6) ∧
  comparator ByDateRead asc (sample 2) (sample 6) = -1 ∧
  comparator ByDateRead asc (sample 6) (sample 2) = -1 ∧
  conforms (sample 0) = true ∧ conforms (sample 1) = true ∧
  sort_value ByRating (sample 0) ≠ sort_value ByRating (sample 1) ∧
  comparator ByRating desc (sample 0) (sample 1) =
    - comparator ByRating desc (sample 1) (sample 0) ∧
  @array_sort host_gt entry (comparator ByDateRead asc) [sample 2; sample 6] =
    [sample 2; sample 6] ∧
  @array_sort host_lt entry (@comparator host_lt ByDateRead asc) [sample 2; sample 6] =
    [sample 6; sample 2].
Proof.
  destruct comparator_never_zero as (_ & Htie & Hanti & _ & _ & Hhost).
  specialize (Htie host_gt). specialize (Hanti host_gt host_gt_laws).
  assert (sort_value ByRating (sample 0) ≠ sort_value ByRating (sample 1)) as Hne.
  { intros Heq. discriminate Heq. }
  split; [reflexivity|].
  split; [apply (Htie ByDateRead asc (sample 2) (sample 6)); reflexivity|].
  split; [apply (Htie ByDateRead asc (sample 2) (sample 6)); reflexivity|].
  split; [reflexivity|]. split; [reflexivity|]. split; [exact Hne|].
  split; [apply (Hanti ByRating desc (sample 0) (sample 1)); [reflexivity|reflexivity|exact Hne]|].
  apply (Hhost ByDateRead asc (sample 2) (sample 6)). reflexivity.
Defined.

#[local] Existing Instance builtins_utc.

Lemma type_options_witness :
  "book" ∈ allTypes allSampleData ∧ "book" ≠ "all" ∧
  (∃ e, e ∈ @filteredData host_gt allSampleData (only_type "book" ByTitle asc)) ∧
  ∀ e, e ∈ @filteredData host_gt allSampleData (only_type "book" ByTitle asc) ↔
       e ∈ allSampleData ∧ type e = "book".
Proof.
  assert ("book" ∈ allTypes allSampleData) as Hin.
  { apply list_elem_of_In. vm_compute. right. left. reflexivity. }
  assert ("book" ≠ "all") as Hne by discriminate.
  split; [exact Hin|]. split; [exact Hne|].
  exact (@type_options host_gt host_gt_laws allSampleData "book" ByTitle asc Hin Hne).
Defined.

Lemma allTags_spec_witness :
  StronglySorted (fun a b => string_lt a b = true) (@allTags host_gt allSampleData) ∧
  ∀ tag, tag ∈ @allTags host_gt allSampleData ↔
         tag ∈ all_tags allSampleData ∧ tag ≠ "__proto__".
Proof. exact (@allTags_spec host_gt host_gt_laws allSampleData). Defined.

Lemma tag_option_count_witness :
  let view := @filteredData host_gt allSampleData (only_tag "Psychology" ByTitle asc) in
  "Psychology" ∈ @allTags host_gt allSampleData ∧ "Psychology" ≠ "all" ∧
  inherited "Psychology" = None ∧
  (∀ e, e ∈ allSampleData → NoDup (tags e)) ∧
  (∀ e, e ∈ view ↔ e ∈ allSampleData ∧ "Psychology" ∈ tags e) ∧
  (0 < length view)%nat ∧
  get (getTagFrequency allSampleData) "Psychology" = Own (VNumber (Z.of_nat (length view))).
Proof.
  intros view.
  assert ("Psychology" ∈ @allTags host_gt allSampleData) as Hin.
  { apply list_elem_of_In. vm_compute. do 20 right. left. reflexivity. }
  assert ("Psychology" ≠ "all") as Hne by discriminate.
  assert (∀ e, e ∈ allSampleData → NoDup (tags e)) as Hnd.
  { intros e He.
    apply (forallb_elem_of (fun e => bool_decide (NoDup (tags e))) allSampleData) in He;
      [by apply bool_decide_eq_true in He|reflexivity]. }
  split; [exact Hin|]. split; [exact Hne|]. split; [reflexivity|]. split; [exact Hnd|].
  exact (@tag_option_count host_gt host_gt_laws allSampleData "Psychology" ByTitle asc
           Hin Hne eq_refl Hnd).
Defined.

Lemma descending_is_ascending_reversed_witness :
  let store := [sample 8; sample 1; sample 5] in
  let cfg := no_filter ByTitle asc in
  (∀ e, e ∈ store → @matches host_gt cfg e = true → @valid_key host_gt (sortBy cfg) e) ∧
  (∀ a b, a ∈ store → b ∈ store →
          @matches host_gt cfg a = true → @matches host_gt cfg b = true →
          @above host_gt (sortBy cfg) a b = false →
          @above host_gt (sortBy cfg) b a = false → a = b) ∧
  @filteredData host_gt store (with_order cfg desc) =
    reverse (@filteredData host_gt store (with_order cfg asc)).
Proof.
  intros store cfg.
  assert (∀ e, e ∈ store → @matches host_gt cfg e = true →
               @valid_key host_gt (sortBy cfg) e) as Hvalid.
  { intros e _ _. exact I. }
  assert (∀ a b, a ∈ store → b ∈ store →
            @matches host_gt cfg a = true → @matches host_gt cfg b = true →
            @above host_gt (sortBy cfg) a b = false →
            @above host_gt (sortBy cfg) b a = false → a = b) as Hdistinct.
  { intros a b Ha Hb _ _.
    apply list_elem_of_In in Ha, Hb.
    destruct Ha as [<-|[<-|[<-|[]]]], Hb as [<-|[<-|[<-|[]]]];
      intros H1 H2; try reflexivity; vm_compute in H1; vm_compute in H2; discriminate. }
  split; [exact Hvalid|]. split; [exact Hdistinct|].
  exact (@descending_is_ascending_reversed host_gt host_gt_laws store cfg Hvalid Hdistinct).
Defined.

Lemma renderStars_spec_witness :
  3 ≠ 0 ∧
  ∃ stars, renderStars (Some 3) = Some (stars, 3) ∧ length stars = 5%nat ∧
           filled stars = Z.to_nat (Z.min 5 (Z.max 0 3)).
Proof.
  assert (3 ≠ 0) as Hr by discriminate.
  split; [exact Hr|]. exact (proj2 (proj2 (renderStars_spec 3)) Hr).
Defined.

Lemma analytics_average_matches_header_witness :
  let read := List.filter (has_status "read") allSampleData in
  let t := tenths (sum_present rating read) (Z.of_nat (length read)) in
  (0 < length read <= 30)%nat ∧
  (∀ e, e ∈ read → in_scale (rating e) = true) ∧
  averageRating (getReadingStats allSampleData) = div (of_Z t) (of_Z 10) ∧
  (SimpleAnalytics.avgRating (SimpleAnalytics.stats allSampleData) =
     Some (VString (one_decimal t)) ∨
   (exact_tie (sum_present rating read) (Z.of_nat (length read)) = true ∧
    SimpleAnalytics.avgRating (SimpleAnalytics.stats allSampleData) =
      Some (VString (one_decimal (t - 1))))).
Proof.
  intros read t.
  assert ((0 < length read <= 30)%nat) as Hlen by (vm_compute; lia).
  assert (∀ e, e ∈ read → in_scale (rating e) = true) as Hscale.
  { apply forallb_elem_of. reflexivity. }
  split; [exact Hlen|]. split; [exact Hscale|].
  exact (proj1 analytics_average_matches_header allSampleData Hlen Hscale).
Defined.

Lemma analytics_average_without_read_entries_witness :
  let data := [rated_entry "to-read" None None; rated_entry "in-progress" None None] in
  (∀ e, e ∈ data → status e ≠ "read") ∧
  averageRating (getReadingStats data) = NaN ∧
  ∃ shown, SimpleAnalytics.tiles data = Some shown ∧
           SimpleAnalytics.read shown = 0%nat ∧
           SimpleAnalytics.avgRating shown = Some (VNumber 0).
Proof.
  intros data.
  assert (∀ e, e ∈ data → status e ≠ "read") as Hnone.
  { intros e He. apply list_elem_of_In in He.
    destruct He as [<-|[<-|[]]]; discriminate. }
  split; [exact Hnone|].
  destruct (analytics_average_without_read_entries data Hnone) as (Hnan & _ & Hshown).
  split; [exact Hnan|]. apply Hshown. discriminate.
Defined.

Lemma radarData_bounds_witness :
  let p := {| SimpleAnalytics.dimension := "Psychology"; SimpleAnalytics.value := 2 |} in
  p ∈ SimpleAnalytics.radarData allSampleData ∧
  (SimpleAnalytics.value p <= length (List.filter (has_status "read") allSampleData))%nat ∧
  (SimpleAnalytics.value p < SimpleAnalytics.radius_domain allSampleData)%nat.
Proof.
  intros p.
  assert (p ∈ SimpleAnalytics.radarData allSampleData) as Hin.
  { apply list_elem_of_In. right. right. left. reflexivity. }
  split; [exact Hin|].
  exact (proj2 (radarData_bounds allSampleData) p Hin).
Defined.

Lemma typeData_slices_witness :
  let names := display <$> List.filter typed allSampleData in
  (∀ name, name ∈ names → plain_key name = true) ∧
  AdvancedAnalytics.typeData allSampleData = slice_of names <$> Set_from names ∧
  ∀ s, s ∈ AdvancedAnalytics.typeData allSampleData →
       AdvancedAnalytics.slice_fill s ≠ Undefined.
Proof.
  intros names.
  assert (∀ name, name ∈ names → plain_key name = true) as Hplain.
  { apply forallb_elem_of. reflexivity. }
  split; [exact Hplain|].
  exact (typeData_slices allSampleData Hplain).
Defined.

Lemma monthlyData_rows_witness :
  let months := @SimpleAnalytics.month_of host_gt builtins_utc <$>
                List.filter dated allSampleData in
  (∀ month, month ∈ months → plain_key month = true) ∧
  @SimpleAnalytics.monthlyData host_gt builtins_utc allSampleData =
    slice_last 12 (row_of months <$> Set_from months) ∧
  (length (@SimpleAnalytics.monthlyData host_gt builtins_utc allSampleData) <= 12)%nat.
Proof.
  intros months.
  assert (∀ month, month ∈ months → plain_key month = true) as Hplain.
  { apply forallb_elem_of. reflexivity. }
  split; [exact Hplain|].
  exact (@monthlyData_rows host_gt builtins_utc allSampleData Hplain).
Defined.

Lemma cumulativeData_spec_witness :
  (∀ e, e ∈ allSampleData → dated e = true → @read_time host_gt e ≠ None) ∧
  SimpleAnalytics.point_cumulative <$>
    @SimpleAnalytics.cumulativeData host_gt builtins_utc allSampleData =
    Z.of_nat <$> seq 1 (length (List.filter dated allSampleData)) ∧
  SimpleAnalytics.point_title <$>
    @SimpleAnalytics.cumulativeData host_gt builtins_utc allSampleData =
    title <$> @SimpleAnalytics.sortedData host_gt allSampleData ∧
  @SimpleAnalytics.sortedData host_gt allSampleData ≡ₚ List.filter dated allSampleData ∧
  StronglySorted (@chronological host_gt) (@SimpleAnalytics.sortedData host_gt allSampleData).
Proof.
  assert (∀ e, e ∈ allSampleData → dated e = true → @read_time host_gt e ≠ None) as Hvalid.
  { intros e He Hd.
    apply (forallb_elem_of
             (fun e => implb (dated e)
                         (match @read_time host_gt e with Some _ => true | None => false end))
             allSampleData) in He; [|reflexivity].
    rewrite Hd in He. simpl in He. by destruct (@read_time host_gt e). }
  destruct (@cumulativeData_spec host_gt builtins_utc host_gt_laws allSampleData)
    as (Hcount & Htitles & Hperm & Horder).
  split; [exact Hvalid|]. split; [exact Hcount|]. split; [exact Htitles|].
  split; [exact Hperm|]. exact (Horder Hvalid).
Defined.

Lemma wordCloudData_top_witness :
  let words := @clean_tags builtins_utc allSampleData in
  let rows := @SimpleAnalytics.wordCloudData host_gt builtins_utc allSampleData in
  (∀ word, word ∈ words → inherited word = None) ∧
  (length rows <= 20)%nat ∧ NoDup rows.*1 ∧
  (∀ row, row ∈ rows → row.1 ∈ words ∧ row = row_of words row.1) ∧
  StronglySorted (fun a b => count_of b <= count_of a) rows ∧
  (∀ word row, word ∈ words → word ∉ rows.*1 → row ∈ rows →
     tally word words <= count_of row).
Proof.
  intros words rows.
  assert (∀ word, word ∈ words → inherited word = None) as Hsafe.
  { intros word Hword.
    apply (forallb_elem_of
             (fun w => match inherited w with None => true | Some _ => false end) words)
      in Hword; [|reflexivity].
    by destruct (inherited word). }
  split; [exact Hsafe|].
  exact (@wordCloudData_top host_gt builtins_utc host_gt_laws allSampleData Hsafe).
Defined.

Lemma tag_frequency_counts_witness :
  inherited "Psychology" = None ∧
  counts (getTagFrequency allSampleData) "Psychology"
         (Z.of_nat (occurrences "Psychology" allSampleData)).
Proof.
  split; [reflexivity|].
  exact (tag_frequency_counts allSampleData "Psychology" eq_refl).
Defined.
